(** * audio-analyzer: key, loudness and duration estimators of [main.py]

    A shallow embedding of the numeric core of [main.py] ([get_duration],
    [format_duration], [estimate_key], [calculate_lufs]) and the proofs of
    the properties its specification states.

    Python's [float] and NumPy's [float64] are IEEE 754 binary64 numbers.
    They are modelled by the Standard Library's [spec_float] with the
    operations of [SpecFloat] at precision 53 and maximal exponent 1024:
    the same algorithms that specify Rocq's primitive floats, computing by
    reduction on integers. *)

From Stdlib Require Import ZArith NArith PArith Bool List String Ascii Lia.
From Stdlib Require Import Permutation.
From Stdlib Require Import Floats SpecFloat.
From Stdlib Require Import QArith Qabs.
From Stdlib Require Import Decimal DecimalFacts DecimalPos DecimalN DecimalString.
Import ListNotations.

Close Scope Q_scope.
Open Scope Z_scope.

(** ** Binary64 arithmetic *)

Definition prec : Z := 53.
Definition emax : Z := 1024.

Definition float : Type := spec_float.

Definition fadd : float -> float -> float := SFadd prec emax.
Definition fsub : float -> float -> float := SFsub prec emax.
Definition fmul : float -> float -> float := SFmul prec emax.
Definition fdiv : float -> float -> float := SFdiv prec emax.
Definition fsqrt : float -> float := SFsqrt prec emax.
Definition fabs : float -> float := SFabs.

(** Comparisons: every comparison with a NaN is false, as in Python. *)
Definition flt (x y : float) : bool := SFltb x y.
Definition fle (x y : float) : bool := SFleb x y.
Definition fgt (x y : float) : bool := SFltb y x.
Definition fge (x y : float) : bool := SFleb y x.

Definition is_nan (x : float) : bool :=
  match x with S754_nan => true | _ => false end.

(** [np.isfinite] *)
Definition is_finite (x : float) : bool :=
  match x with S754_zero _ | S754_finite _ _ _ => true | _ => false end.

(** An integer as a (not yet rounded) float datum. *)
Definition Z2F_raw (n : Z) : float :=
  match n with
  | Z0 => S754_zero false
  | Zpos p => S754_finite false p 0
  | Zneg p => S754_finite true p 0
  end.

(** [float(n)] for a Python int: the nearest binary64 number. *)
Definition Z2F (n : Z) : float := binary_normalize prec emax n 0 false.

(** The float literals of the source, as the binary64 numbers Python reads
    them to be. *)
Definition f0 : float := S754_zero false.
Definition f1 : float := Eval vm_compute in Z2F 1.
Definition f2 : float := Eval vm_compute in Z2F 2.
Definition f10 : float := Eval vm_compute in Z2F 10.
Definition f20 : float := Eval vm_compute in Z2F 20.
Definition f70 : float := Eval vm_compute in Z2F 70.
Definition f100 : float := Eval vm_compute in Z2F 100.
Definition fneg70 : float := Eval vm_compute in Z2F (-70).
Definition finf : float := S754_infinity false.
Definition fneginf : float := S754_infinity true.

(** A decimal literal [n / 10^k], correctly rounded. *)
Definition dec_lit (n : Z) (k : Z) : float :=
  fdiv (Z2F_raw n) (Z2F_raw (10 ^ k)).

Definition f0_2 : float := Eval vm_compute in dec_lit 2 1.
Definition f0_3 : float := Eval vm_compute in dec_lit 3 1.
Definition f0_4 : float := Eval vm_compute in dec_lit 4 1.
Definition f0_6 : float := Eval vm_compute in dec_lit 6 1.
Definition f0_8 : float := Eval vm_compute in dec_lit 8 1.
Definition f1e_6 : float := Eval vm_compute in dec_lit 1 6.
Definition f1e_8 : float := Eval vm_compute in dec_lit 1 8.

(** ** Python built-ins used by the source *)

(** [max(a, b)]: the first argument unless the second is greater. *)
Definition py_max (a b : float) : float := if fgt b a then b else a.

(** [min(a, b)]: the first argument unless the second is smaller. *)
Definition py_min (a b : float) : float := if flt b a then b else a.

(** [round(x)] of a float, with one argument: the nearest integer, ties
    going to the even one; it raises on a NaN or an infinity ([None]). *)
Definition round_half_even (m : Z) (k : Z) : Z :=
  (* nearest integer to m / 2^k, for k > 0 and m >= 0 *)
  let q := m / 2 ^ k in
  let r := m mod 2 ^ k in
  match 2 * r ?= 2 ^ k with
  | Lt => q
  | Eq => if Z.even q then q else q + 1
  | Gt => q + 1
  end.

Definition round_mag (m : positive) (e : Z) : Z :=
  match e with
  | Zneg k => round_half_even (Zpos m) (Zpos k)
  | _ => Zpos m * 2 ^ e
  end.

Definition py_round (x : float) : option Z :=
  match x with
  | S754_zero _ => Some 0
  | S754_finite s m e => Some (if s then - round_mag m e else round_mag m e)
  | _ => None
  end.

(** [f"{n:02d}"]: decimal digits, padded with zeros on the left to a width
    of two characters (the sign counts in the width). *)
Definition digits_of (n : Z) : uint := N.to_uint (Z.to_N n).

Definition pad2 (d : uint) : uint :=
  if (nb_digits d <? 2)%nat then D0 d else d.

Definition fmt_02d (n : Z) : string :=
  if n <? 0 then String "-" (NilEmpty.string_of_uint (digits_of (- n)))
  else NilEmpty.string_of_uint (pad2 (digits_of n)).

(** ** Exceptions

    The four functions wrap their body in [try ... except Exception] and
    return a default when anything is raised. A body is a computation in
    the error monad [exc]; the wrapper is [catch]. *)

Inductive exn : Type :=
  | TypeError | ValueError | OverflowError | ZeroDivisionError
  | ParameterError.

Inductive exc (A : Type) : Type :=
  | Ok (a : A)
  | Raise (e : exn).
Arguments Ok {A} a.
Arguments Raise {A} e.

Definition bind {A B : Type} (c : exc A) (k : A -> exc B) : exc B :=
  match c with
  | Ok a => k a
  | Raise e => Raise e
  end.

Notation "x <- c ;; k" := (bind c (fun x => k))
  (at level 61, c at next level, right associativity).

Definition catch {A : Type} (c : exc A) (default : A) : A :=
  match c with
  | Ok a => a
  | Raise _ => default
  end.

(** [a / b] on Python ints: the quotient rounded once to the nearest
    binary64 number; it raises when [b] is zero or the quotient is too
    large for a float. *)
Definition int_truediv (a b : Z) : exc float :=
  if b =? 0 then Raise ZeroDivisionError
  else
    match fdiv (Z2F_raw a) (Z2F_raw b) with
    | S754_infinity _ => Raise OverflowError
    | q => Ok q
    end.

(** ** DurationUtility: [get_duration] and [format_duration] *)

(** [y] is a one-dimensional array or [None]; [y.shape[0]] is its length. *)
Definition get_duration_body (y : option (list float)) (sr : Z) : exc float :=
  match y with
  | None => Ok f0
  | Some samples =>
      if sr <=? 0 then Ok f0
      else
        let n_samples := Z.of_nat (List.length samples) in
        duration <- int_truediv n_samples sr ;;
        if is_nan duration || flt duration f0 then Ok f0
        else Ok duration
  end.

Definition get_duration (y : option (list float)) (sr : Z) : float :=
  catch (get_duration_body y sr) f0.

(** The argument of [format_duration]: a float, or an object [float()]
    rejects. *)
Inductive pyobj : Type :=
  | PyFloat (x : float)
  | PyNone.

Definition py_float (o : pyobj) : exc float :=
  match o with
  | PyFloat x => Ok x
  | PyNone => Raise TypeError
  end.

Definition py_round_exc (x : float) : exc Z :=
  match py_round x with
  | Some n => Ok n
  | None => match x with S754_nan => Raise ValueError | _ => Raise OverflowError end
  end.

Definition mmss (minutes remaining_seconds : Z) : string :=
  fmt_02d minutes ++ ":" ++ fmt_02d remaining_seconds.

Definition format_duration_body (o : pyobj) : exc string :=
  seconds <- py_float o ;;
  if is_nan seconds || flt seconds f0 then Ok "00:00"%string
  else
    total_seconds <- py_round_exc seconds ;;
    let minutes := total_seconds / 60 in
    let remaining_seconds := total_seconds mod 60 in
    Ok (mmss minutes remaining_seconds).

Definition format_duration (o : pyobj) : string :=
  catch (format_duration_body o) "00:00"%string.

(** The floats of the specification's examples. *)
Definition f125_6 : float := Eval vm_compute in dec_lit 1256 1.
Definition f10_5 : float := Eval vm_compute in dec_lit 105 1.
Definition f11_5 : float := Eval vm_compute in dec_lit 115 1.

(** ** NumPy and librosa primitives used by the estimators

    These are library functions, not code of the repository; they are
    modelled by what their documentation says they compute, on one-
    dimensional [float64] arrays as lists. *)

(** [np.sum] does not add from left to right: numpy adds pairwise, with
    eight running sums, in an order that depends on the length and the
    memory layout of the array. [adds_up a s] says what every such order
    gives: [s] is the result of adding the elements of [a], each once, in
    some order and grouping, zeros being allowed as starting values. *)
Inductive adds_up : list float -> float -> Prop :=
  | adds_none (s : bool) : adds_up [] (S754_zero s)
  | adds_one (x : float) : adds_up [x] x
  | adds_both (a1 a2 : list float) (s1 s2 : float) :
      adds_up a1 s1 -> adds_up a2 s2 -> adds_up (a1 ++ a2) (fadd s1 s2)
  | adds_perm (a a' : list float) (s : float) :
      Permutation a a' -> adds_up a s -> adds_up a' s.

(** The reductions of the source: over a one-dimensional array
    ([np.mean(y**2)], [np.mean(valid_db)], [np.mean(block_db[final_blocks])]),
    down the columns of a matrix ([np.mean(blocks**2, axis=0)]) and along
    its rows ([np.mean(chroma, axis=1)]). numpy does not add the three in
    the same order. *)
Inductive reduction : Type :=
  | Flat
  | Axis0
  | Axis1.

(** The summations of numpy: [np_sum r] is the one of [np.sum] and
    [np.mean] in a reduction [r], [correlate_sum] the one that adds the
    products in [np.correlate]. The estimators are modelled for every
    summation. *)
Class Summation : Type := {
  np_sum : reduction -> list float -> float;
  np_sum_adds_up : forall r a, adds_up a (np_sum r a);
  correlate_sum : list float -> float;
  correlate_sum_adds_up : forall a, adds_up a (correlate_sum a)
}.

(** Adding from left to right, which is numpy's order for fewer than eight
    elements. *)
Definition sequential_sum (a : list float) : float :=
  match a with
  | [] => f0
  | x :: rest => fold_left fadd rest x
  end.

(** [np.mean]: the sum divided by the number of elements (NaN, with a
    warning only, on an empty array). *)
Definition np_mean `{Summation} (r : reduction) (a : list float) : float :=
  fdiv (np_sum r a) (Z2F (Z.of_nat (List.length a))).

(** [np.maximum]: the larger one, a NaN if either is one. *)
Definition np_maximum (a b : float) : float :=
  if is_nan a then a else if is_nan b then b else if flt a b then b else a.

(** [np.max]: raises on an empty array. *)
Definition np_max (a : list float) : exc float :=
  match a with
  | [] => Raise ValueError
  | x :: rest => Ok (fold_left np_maximum rest x)
  end.

(** [np.argmax]: the first index of the largest element (of the first NaN
    if there is one). [argmax_from] scans [a], whose first element has
    index [i], with [best] at [ibest] the largest so far. *)
Fixpoint argmax_from (a : list float) (i : nat) (ibest : nat) (best : float)
  : nat :=
  match a with
  | [] => ibest
  | x :: rest =>
      if is_nan best then ibest
      else if is_nan x || flt best x then argmax_from rest (S i) i x
      else argmax_from rest (S i) ibest best
  end.

Definition np_argmax (a : list float) : exc nat :=
  match a with
  | [] => Raise ValueError
  | x :: rest => Ok (argmax_from rest 1 0 x)
  end.

(** [np.roll(a, i)]: element [j] moves to position [(j + i) mod n]. *)
Definition np_roll (a : list float) (i : nat) : list float :=
  let n := List.length a in
  match n with
  | O => a
  | _ => let k := (n - i mod n)%nat in skipn k a ++ firstn k a
  end.

(** [np.correlate(a, v)[0]] in the default mode for arrays of equal
    length: the sum of the products of their elements. *)
Definition dot `{Summation} (a v : list float) : float :=
  correlate_sum (map (fun p => fmul (fst p) (snd p)) (combine a v)).

(** [a[i] = x] on an array. *)
Fixpoint set_nth (a : list float) (i : nat) (x : float) : list float :=
  match a, i with
  | [], _ => []
  | _ :: rest, O => x :: rest
  | y :: rest, S j => y :: set_nth rest j x
  end.

(** [np.finfo(np.float64).tiny], the smallest positive normal number. *)
Definition tiny : float := S754_finite false 4503599627370496 (-1074).

(** [librosa.util.normalize(S)] with its defaults ([norm=np.inf], no
    [threshold], no [fill]): [S] divided by its largest magnitude, left
    unscaled when that is below [tiny]; it raises when an entry is not
    finite. *)
Definition normalize (S : list float) : exc (list float) :=
  if negb (forallb is_finite S) then Raise ParameterError
  else
    length <- np_max (map fabs S) ;;
    let length := if flt length tiny then f1 else length in
    Ok (map (fun x => fdiv x length) S).

(** ** KeyEstimator: [estimate_key]

    [librosa.feature.chroma_cqt] is an external collaborator: the model
    starts from the chromagram it returns, a list of rows (one per pitch
    class), each row a list of frames. *)

Definition key_names : list string :=
  ["C"; "C#"; "D"; "D#"; "E"; "F"; "F#"; "G"; "G#"; "A"; "A#"; "B"]%string.

Definition major_template : list float :=
  [f1; f0; f0_3; f0; f0_6; f0_4; f0; f0_8; f0; f0_4; f0; f0_2].

Definition minor_template : list float :=
  [f1; f0; f0_3; f0_6; f0; f0_4; f0; f0_8; f0_4; f0; f0_4; f0].

(** The loop [for i in range(12)] filling [major_corr] or [minor_corr]. *)
Definition correlations `{Summation} (template chroma_norm : list float)
  : list float :=
  map (fun i => dot chroma_norm (np_roll template i)) (seq 0 12).

(** The three confidence terms and their blend, for the winning mode:
    [best] and [second] are its two largest correlations, [other] the
    largest one of the losing mode. *)
Definition blend (best second other : float) : float :=
  let abs_conf := fdiv (fadd best f1) f2 in
  let rel_conf := fdiv (fsub best second) (fadd best f1e_6) in
  let mode_conf := fdiv (fsub best other) (fadd (py_max best other) f1e_6) in
  fmul (fadd (fadd (fmul abs_conf f0_4) (fmul rel_conf f0_4))
             (fmul mode_conf f0_2))
       f100.

Definition clamp_confidence (confidence : float) : float :=
  py_min (py_max confidence f0) f100.

Definition estimate_key_body `{Summation} (chroma : list (list float))
  : exc (string * float) :=
  let chroma_avg := map (np_mean Axis1) chroma in
  chroma_norm <- normalize chroma_avg ;;
  let major_corr := correlations major_template chroma_norm in
  let minor_corr := correlations minor_template chroma_norm in
  major_max_idx <- np_argmax major_corr ;;
  minor_max_idx <- np_argmax minor_corr ;;
  let major_max_val := nth major_max_idx major_corr f0 in
  let minor_max_val := nth minor_max_idx minor_corr f0 in
  let major_corr' := set_nth major_corr major_max_idx fneginf in
  let minor_corr' := set_nth minor_corr minor_max_idx fneginf in
  second_major_val <- np_max major_corr' ;;
  second_minor_val <- np_max minor_corr' ;;
  let '(key, confidence) :=
    if fge major_max_val minor_max_val then
      (nth major_max_idx key_names ""%string,
       blend major_max_val second_major_val minor_max_val)
    else
      ((nth minor_max_idx key_names "" ++ "m")%string,
       blend minor_max_val second_minor_val major_max_val) in
  Ok (key, clamp_confidence confidence).

Definition estimate_key `{Summation} (chroma : list (list float))
  : string * float :=
  catch (estimate_key_body chroma) ("Unknown"%string, f0).

(** A chromagram of [T] frames whose twelve rows all hold [x]. *)
Definition const_chroma (x : float) (T : nat) : list (list float) :=
  repeat (repeat x T) 12.

(** A chromagram of one frame with the given twelve energies. *)
Definition one_frame (energies : list float) : list (list float) :=
  map (fun x => [x]) energies.

(** ** LoudnessEstimator: [calculate_lufs] *)

(** [float(n)] on a Python int: it raises when [n] is too large. *)
Definition py_float_of_int (n : Z) : exc float :=
  match Z2F n with
  | S754_infinity _ => Raise OverflowError
  | x => Ok x
  end.

(** [int(x)] on a float: truncation towards zero; it raises on a NaN or
    an infinity. *)
Definition py_int (x : float) : exc Z :=
  match x with
  | S754_nan => Raise ValueError
  | S754_infinity _ => Raise OverflowError
  | S754_zero _ => Ok 0
  | S754_finite s m e =>
      let mag := match e with
                 | Zneg k => Zpos m / 2 ^ Zpos k
                 | _ => Zpos m * 2 ^ e
                 end in
      Ok (if s then - mag else mag)
  end.

(** [librosa.util.frame(y, frame_length, hop_length)]: the complete blocks
    of [frame_length] samples that start every [hop_length] samples. *)
Fixpoint frames_from (y : list float) (frame_length hop_length n_frames : nat)
  : list (list float) :=
  match n_frames with
  | O => []
  | S k => firstn frame_length y
           :: frames_from (skipn hop_length y) frame_length hop_length k
  end.

Definition frame (y : list float) (frame_length hop_length : Z)
  : exc (list (list float)) :=
  let n := Z.of_nat (List.length y) in
  if n <? frame_length then Raise ParameterError
  else if hop_length <? 1 then Raise ParameterError
  else
    let n_frames := 1 + (n - frame_length) / hop_length in
    Ok (frames_from y (Z.to_nat frame_length) (Z.to_nat hop_length)
          (Z.to_nat n_frames)).

(** [max(min(v, 0.0), -70.0)] *)
Definition clamp_lufs (v : float) : float := py_max (py_min v f0) fneg70.

(** [np.sqrt(np.mean(a**2))] *)
Definition rms_of `{Summation} (r : reduction) (a : list float) : float :=
  fsqrt (np_mean r (map (fun x => fmul x x) a)).

(** [block_length = int(0.4 * sr)] *)
Definition block_length_of (sr : Z) : exc Z :=
  x <- py_float_of_int sr ;; py_int (fmul f0_4 x).

(** Lines 255 to 283: the two gates and the final value, from the dB
    value of each block. *)
Definition valid_blocks (block_db : list float) : list float :=
  filter (fun d => fgt d fneg70) block_db.

Definition relative_threshold_of `{Summation} (block_db : list float) : float :=
  fsub (np_mean Flat (valid_blocks block_db)) f10.

Definition final_blocks `{Summation} (block_db : list float) : list float :=
  filter (fun d => fgt d (relative_threshold_of block_db)) block_db.

Definition gated_loudness `{Summation} (block_db : list float) : float :=
  match valid_blocks block_db with
  | [] => fneg70
  | _ :: _ =>
      match final_blocks block_db with
      | [] => fneg70
      | _ :: _ =>
          clamp_lufs (fsub (np_mean Flat (final_blocks block_db)) f10)
      end
  end.

Section Loudness.

(** [np.log10] is the platform's C library function; IEEE 754 does not
    fix its results, so the estimator is modelled for any [log10]. *)
Context {summation : Summation}.
Variable log10 : float -> float.

(** [20 * np.log10(rms + 1e-8)] *)
Definition to_db (rms : float) : float :=
  fmul f20 (log10 (fadd rms f1e_8)).

Definition calculate_lufs_body (y : list float) (sr : Z) : exc float :=
  if (List.length y =? 0)%nat then Ok fneg70
  else
    block_length <- block_length_of sr ;;
    let hop_length := block_length / 2 in
    if Z.of_nat (List.length y) <? block_length then
      let rms := rms_of Flat y in
      let loudness := to_db rms in
      Ok (clamp_lufs (fsub loudness f10))
    else
      blocks <- frame y block_length hop_length ;;
      let block_rms := map (rms_of Axis0) blocks in
      let block_db := map to_db block_rms in
      Ok (gated_loudness block_db).

Definition calculate_lufs (y : list float) (sr : Z) : float :=
  catch (calculate_lufs_body y sr) fneg70.

End Loudness.

(** ** Notions the properties are stated with *)

(** The rational number a finite float stands for (0 for the others). *)
Definition F2Q (x : float) : Q :=
  match x with
  | S754_finite s m e =>
      let n := if s then Zneg m else Zpos m in
      match e with
      | Zneg k => Qmake n (2 ^ k)
      | _ => inject_Z (n * 2 ^ e)
      end
  | _ => 0%Q
  end.

(** [t] is an integer nearest to [x]. *)
Definition nearest_integer (x : float) (t : Z) : Prop :=
  (Qabs (inject_Z t - F2Q x) <= 1 # 2)%Q.

(** The number a string of decimal digits reads as. *)
Definition read_decimal (s : string) : option Z :=
  option_map (fun d => Z.of_N (N.of_uint d)) (NilEmpty.uint_of_string s).

(** The two fields of a string around its first colon. *)
Fixpoint split_colon (s : string) : option (string * string) :=
  match s with
  | EmptyString => None
  | String c rest =>
      if Ascii.eqb c ":" then Some (EmptyString, rest)
      else option_map (fun p => (String c (fst p), snd p)) (split_colon rest)
  end.

(** The number of seconds an "mm:ss" string denotes. *)
Definition denoted_seconds (s : string) : option Z :=
  match split_colon s with
  | Some (mm, ss) =>
      match read_decimal mm, read_decimal ss with
      | Some m, Some sec => Some (60 * m + sec)
      | _, _ => None
      end
  | None => None
  end.

(** A string of decimal digits only. *)
Definition is_digit (c : ascii) : bool :=
  ((48 <=? nat_of_ascii c) && (nat_of_ascii c <=? 57))%nat.

Fixpoint all_digits (s : string) : bool :=
  match s with
  | EmptyString => true
  | String c rest => is_digit c && all_digits rest
  end.

(** The binary64 instances of the rounding machinery of [SpecFloat]. *)
Abbreviation fexp64 := (fexp prec emax).
Abbreviation bounded64 := (bounded prec emax).
Abbreviation round64 := (binary_round_aux prec emax).
Abbreviation valid64 := (valid_binary prec emax).

(** What rounding a number of sign [s] and magnitude [k] (a number in
    [2^(k-1), 2^k)) may return: a zero only below the subnormal range, an
    infinity only above the finite range, otherwise a canonical float of
    magnitude [k], or [k + 1] when the mantissa rounds up to a power of
    two. *)
Inductive rounded (s : bool) (k : Z) : float -> Prop :=
  | rounded_zero : k <= -1074 -> rounded s k (S754_zero s)
  | rounded_inf : 1024 <= k -> rounded s k (S754_infinity s)
  | rounded_finite (m : positive) (e : Z) :
      bounded64 m e = true ->
      k <= Zdigits2 (Zpos m) + e <= Z.max k (-1074) + 1 ->
      rounded s k (S754_finite s m e).

(** [fin k x]: [x] is a zero or a canonical finite float below [2^k] in
    magnitude. *)
Definition fin (k : Z) (x : float) : Prop :=
  match x with
  | S754_zero _ => True
  | S754_finite _ m e => bounded64 m e = true /\ Zdigits2 (Zpos m) + e <= k
  | _ => False
  end.

(** [nonneg x]: a zero of either sign or a positive finite float. *)
Definition nonneg (x : float) : Prop :=
  match x with
  | S754_zero _ | S754_finite false _ _ => True
  | _ => False
  end.

(** [pos_ge j x]: a positive canonical finite float, at least [2^(j-1)]. *)
Definition pos_ge (j : Z) (x : float) : Prop :=
  match x with
  | S754_finite false m e =>
      bounded64 m e = true /\ j <= Zdigits2 (Zpos m) + e
  | _ => False
  end.

(** [energy x]: a finite, non-negative binary64 number, as the entries of
    a chromagram are. *)
Definition energy (x : float) : Prop :=
  match x with
  | S754_zero _ => True
  | S754_finite false m e => bounded64 m e = true
  | _ => False
  end.

(** The magnitude of a finite float, below every magnitude for a zero. *)
Definition magf (x : float) : Z :=
  match x with
  | S754_finite _ m e => Zdigits2 (Zpos m) + e
  | _ => -1075
  end.

(** The labels the estimator can return, and those the specification
    lists. *)
Definition minor_names : list string :=
  map (fun name => (name ++ "m")%string) key_names.

Definition code_labels : list string :=
  key_names ++ minor_names ++ ["Unknown"%string].

Definition spec_labels : list string :=
  key_names ++ minor_names ++ ["unknown"%string].

(** [bounded_energy k x]: a finite, non-negative binary64 number below
    [2^k]. *)
Definition bounded_energy (k : Z) (x : float) : Prop := fin k x /\ nonneg x.

(** ** A reference [log10]

    The binary logarithm of the mantissa, bit by bit by repeated squaring
    in fixed point with 256 fractional bits, then the product with
    [log10(2)] known to 200 bits, rounded once to binary64. It stands for
    [np.log10] wherever a concrete function is wanted. *)
Definition LOG10_2_SCALED : Z :=
  483736552495570264612957885066036017814076813494583656293573.

Fixpoint log2_bits (fuel : nat) (Y F : Z) : Z :=
  match fuel with
  | O => F
  | S k =>
      let Y2 := (Y * Y) / 2 ^ 256 in
      if 2 ^ 257 <=? Y2 then log2_bits k (Y2 / 2) (2 * F + 1)
      else log2_bits k Y2 (2 * F)
  end.

Definition log10_ref (x : float) : float :=
  match x with
  | S754_nan => S754_nan
  | S754_zero _ => fneginf
  | S754_infinity s => if s then S754_nan else finf
  | S754_finite true _ _ => S754_nan
  | S754_finite false m e =>
      let d := Zdigits2 (Zpos m) in
      let Y := (Zpos m * 2 ^ 256) / 2 ^ (d - 1) in
      let F := log2_bits 120 Y 0 in
      let L2 := (e + d - 1) * 2 ^ 120 + F in
      binary_normalize prec emax (L2 * LOG10_2_SCALED) (-320) false
  end.

(** The two gates in the words of the specification: the absolute gate
    discards the blocks at or below -70 dB; the relative gate discards, of
    the blocks that are left, those at or below their mean minus 10; the
    loudness is the mean of the blocks that pass both, minus 10, clamped,
    and the floor -70.0 when a gate leaves no block. *)
Definition absolute_gate (block_db : list float) : list float :=
  filter (fun d => negb (fle d fneg70)) block_db.

Definition relative_gate `{Summation} (block_db : list float) : list float :=
  let threshold := fsub (np_mean Flat (absolute_gate block_db)) f10 in
  filter (fun d => negb (fle d threshold)) (absolute_gate block_db).

Definition two_gate_loudness `{Summation} (block_db : list float) : float :=
  match absolute_gate block_db with
  | [] => fneg70
  | _ :: _ =>
      match relative_gate block_db with
      | [] => fneg70
      | _ :: _ =>
          clamp_lufs (fsub (np_mean Flat (relative_gate block_db)) f10)
      end
  end.


Definition fneg8 : float := Eval vm_compute in Z2F (-8).
Definition f0_5 : float := Eval vm_compute in dec_lit 5 1.

(** A buffer of fifteen samples at 25 Hz: two overlapping blocks of ten
    samples, of about -69 dB and -75 dB. *)
Definition quiet_buffer : list float :=
  repeat (dec_lit 469 6) 5 ++ repeat (dec_lit 178 6) 10.

(** The dB values of the blocks of a buffer, as [calculate_lufs] frames
    it (empty when it does not reach the framing). *)
Definition block_db_of `{Summation} (log10 : float -> float)
  (y : list float) (sr : Z)
  : list float :=
  match block_length_of sr with
  | Ok block_length =>
      match frame y block_length (block_length / 2) with
      | Ok blocks => map (to_db log10) (map (rms_of Axis0) blocks)
      | Raise _ => []
      end
  | Raise _ => []
  end.

(** ** Exact rounding

    The position of the rational [N / D] between the integers around it,
    and the integer nearest to it, ties going to the even one. *)
Definition loc_of (N D : Z) : location :=
  if N mod D =? 0 then loc_Exact else loc_Inexact (2 * (N mod D) ?= D).

Definition rne (N D : Z) : Z := round_nearest_even (N / D) (loc_of N D).

(** The float of sign [s], mantissa [m] and exponent [E], the mantissa
    [2^53] being renormalised and too large an exponent giving an
    infinity. *)
Definition pack (s : bool) (m E : Z) : float :=
  match m with
  | Z0 => S754_zero s
  | Zpos p =>
      if m =? 2 ^ 53 then
        if E + 1 <=? 971 then S754_finite s 4503599627370496 (E + 1)
        else S754_infinity s
      else if E <=? 971 then S754_finite s p E else S754_infinity s
  | Zneg _ => S754_nan
  end.

(** Every finite binary64 number is an integer multiple of [2^-1074];
    [scaled x] is that integer, the value of [x] times [2^1074]. *)
Definition scaled (x : float) : Z :=
  match x with
  | S754_finite s m e =>
      (if s then Zneg m else Zpos m) * 2 ^ (e + 1074)
  | _ => 0
  end.




(** ** What the loudness estimate needs of [np.log10]

    On a positive finite argument no smaller than [1e-8] the result is a
    finite number below [2^10] in magnitude (the logarithms of such
    binary64 numbers lie between -8.2 and 308.3); the logarithm of [+inf]
    is [+inf]; and [log10(1e-8)] evaluates to [-8.0], as it does in
    numpy. *)
Definition log10_regular (log10 : float -> float) : Prop :=
  (forall x, pos_ge (-26) x -> fin 10 (log10 x))
  /\ log10 finf = finf
  /\ log10 f1e_8 = fneg8.

(** A well-formed sample: a finite binary64 number. *)
Definition finite_sample (x : float) : Prop :=
  valid64 x = true /\ is_finite x = true.


(** ** The endpoint: [analyze_audio]

    [x / y] on Python floats: it raises when [y] is zero. *)
Definition py_float_div (x y : float) : exc float :=
  match y with
  | S754_zero _ => Raise ZeroDivisionError
  | _ => Ok (fdiv x y)
  end.

(** Lines 321 to 323: the duration [analyze_audio] reports,
    [float(len(y)) / float(sr) if sr > 0 else 0.0], reset to 0.0 when it is
    a NaN or negative. *)
Definition analyze_duration (y : list float) (sr : Z) : exc float :=
  duration <-
    (if 0 <? sr then
       n <- py_float_of_int (Z.of_nat (List.length y)) ;;
       r <- py_float_of_int sr ;;
       py_float_div n r
     else Ok f0) ;;
  Ok (if is_nan duration || flt duration f0 then f0 else duration).

(** [round(x, 1)] on a Python float: the decimal with one digit after the
    point nearest to the exact value of [x], ties going to the even digit,
    then the binary64 number nearest to that decimal; a NaN, an infinity
    or a zero is returned as it is, and the sign is kept. *)
Definition py_round1 (x : float) : float :=
  match x with
  | S754_finite s m e =>
      let tenths := rne (Zpos m * 10 * 2 ^ (e + 1074)) (2 ^ 1074) in
      match tenths with
      | Z0 => S754_zero s
      | _ => fdiv (Z2F_raw (if s then - tenths else tenths)) (Z2F_raw 10)
      end
  | _ => x
  end.

Definition f120 : float := Eval vm_compute in Z2F 120.

(** The response of the endpoint. *)
Record AnalysisResult : Type := {
  bpm : float;
  key : string;
  keyConfidence : float;
  loudness : float;
  duration : float;
  duration_formatted : string;
  artist : option string;
  title : option string
}.

(** Lines 315 to 357 of [analyze_audio], from the loaded buffer on.
    [librosa.load], [librosa.beat.beat_track], [chroma_cqt] and
    [get_audio_metadata] are external collaborators: the model takes what
    they return, the buffer [y] and its rate [sr], the tempo, the
    chromagram and the tags. The message of line 317 is built before the
    guard [sr > 0] of line 321: its [len(y)/sr] divides two ints, and raises
    at [sr = 0]; the quotient only goes to the log. The statistics of line
    318 are taken of a buffer that is not empty and raise nothing. *)
Definition analyze_loaded `{Summation} (log10 : float -> float)
  (y : list float) (sr : Z)
  (tempo : float) (chroma : list (list float))
  (tags : option string * option string) : exc AnalysisResult :=
  if (List.length y =? 0)%nat then Raise ValueError
  else
    _ <- int_truediv (Z.of_nat (List.length y)) sr ;;
    d <- analyze_duration y sr ;;
    let tempo := if is_nan tempo then f120 else tempo in
    let '(k, key_confidence) := estimate_key chroma in
    let loudness_lufs := calculate_lufs log10 y sr in
    Ok {| bpm := py_round1 tempo;
          key := k;
          keyConfidence := py_round1 key_confidence;
          loudness := py_round1 loudness_lufs;
          duration := d;
          duration_formatted := format_duration (PyFloat d);
          artist := fst tags;
          title := snd tags |}.

(** Floats for the examples of [round(x, 1)]. *)
Definition f0_25 : float := Eval vm_compute in dec_lit 25 2.
Definition f0_35 : float := Eval vm_compute in dec_lit 35 2.
Definition f125_64 : float := Eval vm_compute in dec_lit 12564 2.
Definition fneg12_34 : float := Eval vm_compute in SFopp (dec_lit 1234 2).
Definition fneg12_3 : float := Eval vm_compute in SFopp (dec_lit 123 1).

(** The left-to-right summation is one of the summations. *)
Definition fold_left_adds_up (rest : list float) :
  forall a0 acc,
  adds_up a0 acc -> adds_up (a0 ++ rest) (fold_left fadd rest acc).
Proof.
  induction rest as [| x rest IH]; intros a0 acc Hacc; cbn [fold_left].
  - rewrite List.app_nil_r. exact Hacc.
  - replace (a0 ++ x :: rest) with ((a0 ++ [x]) ++ rest)
      by (rewrite <- List.app_assoc; reflexivity).
    apply IH. apply adds_both; [exact Hacc | apply adds_one].
Qed.

Definition sequential_sum_adds_up (a : list float) :
  adds_up a (sequential_sum a).
Proof.
  destruct a as [| x rest]; [apply adds_none |].
  apply (fold_left_adds_up rest [x] x), adds_one.
Qed.

Instance sequential : Summation :=
  {| np_sum := fun _ => sequential_sum;
     np_sum_adds_up := fun _ => sequential_sum_adds_up;
     correlate_sum := sequential_sum;
     correlate_sum_adds_up := sequential_sum_adds_up |}.

(** * Properties *)

#[local] Set Warnings "-inexact-float,-abstract-large-number".

(** The literals agree with the kernel's reading of the same decimals. *)
Example literals_agree :
  Prim2SF 0.2%float = f0_2 /\ Prim2SF 0.3%float = f0_3 /\
  Prim2SF 0.4%float = f0_4 /\ Prim2SF 0.6%float = f0_6 /\
  Prim2SF 0.8%float = f0_8 /\ Prim2SF 1e-6%float = f1e_6 /\
  Prim2SF 1e-8%float = f1e_8 /\ Prim2SF 100%float = f100 /\
  Prim2SF (-70)%float = fneg70.
Proof. vm_compute. repeat split. Qed.

Example get_duration_441000 :
  get_duration (Some (repeat f0 441000)) 44100 = f10.
Proof. vm_compute. reflexivity. Qed.

Example format_duration_examples :
  format_duration (PyFloat f10) = "00:10"%string /\
  format_duration (PyFloat f125_6) = "02:06"%string /\
  format_duration (PyFloat S754_nan) = "00:00"%string /\
  format_duration (PyFloat f10_5) = "00:10"%string /\
  format_duration (PyFloat f11_5) = "00:12"%string /\
  format_duration (PyFloat (Z2F 6000)) = "100:00"%string /\
  format_duration (PyFloat finf) = "00:00"%string /\
  format_duration PyNone = "00:00"%string.
Proof. vm_compute. repeat split. Qed.

Example estimate_key_major_C :
  fst (estimate_key (one_frame major_template)) = "C"%string.
Proof. vm_compute. reflexivity. Qed.

Example estimate_key_minor_A :
  fst (estimate_key (one_frame (np_roll minor_template 9))) = "Am"%string.
Proof. vm_compute. reflexivity. Qed.

Section Part1.

Context {summation : Summation}.

(** ** Rounding to an integer *)

Lemma round_half_even_near (m k : Z) :
  0 <= m -> 0 < k ->
  2 * Z.abs (round_half_even m k * 2 ^ k - m) <= 2 ^ k.
Proof.
  intros Hm Hk. unfold round_half_even.
  assert (Hp : 0 < 2 ^ k) by (apply Z.pow_pos_nonneg; lia).
  pose proof (Z.div_mod m (2 ^ k) ltac:(lia)) as Hdm.
  pose proof (Z.mod_pos_bound m (2 ^ k) Hp) as Hb.
  set (q := m / 2 ^ k) in *. set (r := m mod 2 ^ k) in *.
  destruct (Z.compare_spec (2 * r) (2 ^ k)) as [He | Hl | Hg].
  - destruct (Z.even q); nia.
  - nia.
  - nia.
Qed.

Lemma round_half_even_nonneg (m k : Z) :
  0 <= m -> 0 < k -> 0 <= round_half_even m k.
Proof.
  intros Hm Hk. unfold round_half_even.
  assert (Hp : 0 < 2 ^ k) by (apply Z.pow_pos_nonneg; lia).
  assert (0 <= m / 2 ^ k) by (apply Z.div_pos; lia).
  destruct (2 * (m mod 2 ^ k) ?= 2 ^ k); [destruct (Z.even _) | |]; lia.
Qed.

Lemma round_mag_nonneg (m : positive) (e : Z) : 0 <= round_mag m e.
Proof.
  unfold round_mag. destruct e.
  - lia.
  - pose proof (Z.pow_pos_nonneg 2 (Zpos p)); lia.
  - apply round_half_even_nonneg; lia.
Qed.

Lemma pos_pow_Z (k : positive) : Zpos (2 ^ k) = 2 ^ Zpos k.
Proof. now rewrite Pos2Z.inj_pow. Qed.

Lemma round_mag_nearest (m : positive) (e : Z) :
  nearest_integer (S754_finite false m e) (round_mag m e).
Proof.
  unfold nearest_integer, F2Q, round_mag. destruct e as [| p | p].
  - setoid_replace (inject_Z (Zpos m * 2 ^ 0) - inject_Z (Zpos m * 2 ^ 0))%Q
      with 0%Q by ring. discriminate.
  - setoid_replace (inject_Z (Zpos m * 2 ^ Zpos p)
                    - inject_Z (Zpos m * 2 ^ Zpos p))%Q with 0%Q by ring.
    discriminate.
  - pose proof (round_half_even_near (Zpos m) (Zpos p) ltac:(lia) ltac:(lia))
      as H.
    set (t := round_half_even (Zpos m) (Zpos p)) in *.
    unfold Qle, Qabs, Qminus, Qplus, Qopp, inject_Z. cbn [Qnum Qden].
    rewrite pos_pow_Z. rewrite !Z.mul_1_l, Z.mul_1_r.
    replace (t * 2 ^ Zpos p + - Zpos m * 1) with (t * 2 ^ Zpos p - Zpos m)
      by ring.
    rewrite Pos2Z.inj_mul, pos_pow_Z.
    assert (0 < 2 ^ Zpos p) by (apply Z.pow_pos_nonneg; lia).
    nia.
Qed.

(** ** Rendering and reading two-digit fields *)

Lemma string_of_uint_length (d : uint) :
  String.length (NilEmpty.string_of_uint d) = nb_digits d.
Proof. induction d; cbn; congruence. Qed.

Lemma digits_of_nonnil (n : Z) : (1 <= nb_digits (digits_of n))%nat.
Proof.
  unfold digits_of. destruct (Z.to_N n) as [| p]; cbn; [lia |].
  pose proof (Unsigned.to_uint_nonnil p) as H.
  destruct (Pos.to_uint p); cbn; try lia. now elim H.
Qed.

Lemma fmt_02d_length (n : Z) :
  0 <= n -> (2 <= String.length (fmt_02d n))%nat.
Proof.
  intros Hn. unfold fmt_02d. destruct (Z.ltb_spec n 0); [lia |].
  rewrite string_of_uint_length. unfold pad2.
  pose proof (digits_of_nonnil n).
  destruct (Nat.ltb_spec (nb_digits (digits_of n)) 2); cbn; lia.
Qed.

Lemma read_fmt_02d (n : Z) : 0 <= n -> read_decimal (fmt_02d n) = Some n.
Proof.
  intros Hn. unfold fmt_02d, read_decimal.
  destruct (Z.ltb_spec n 0); [lia |].
  rewrite NilEmpty.usu. cbn [option_map]. f_equal.
  assert (E : N.of_uint (pad2 (digits_of n)) = N.of_uint (digits_of n)).
  { unfold pad2. now destruct (nb_digits (digits_of n) <? 2)%nat. }
  rewrite E. unfold digits_of. rewrite DecimalN.Unsigned.of_to. lia.
Qed.

(** A property checked on 0..59 holds of every residue modulo 60. *)
Lemma below_60 (P : Z -> bool) :
  forallb P (map Z.of_nat (seq 0 60)) = true ->
  forall n, 0 <= n < 60 -> P n = true.
Proof.
  intros H n Hn. rewrite forallb_forall in H. apply H.
  apply in_map_iff. exists (Z.to_nat n). split; [lia |].
  apply in_seq. lia.
Qed.

Lemma fmt_02d_seconds_length (n : Z) :
  0 <= n < 60 -> String.length (fmt_02d n) = 2%nat.
Proof.
  intros Hn.
  apply (below_60 (fun n => (String.length (fmt_02d n) =? 2)%nat)) in Hn.
  - now apply Nat.eqb_eq.
  - vm_compute. reflexivity.
Qed.

Lemma fmt_02d_no_colon (n : Z) :
  0 <= n -> forall rest,
  split_colon (fmt_02d n ++ ":" ++ rest) = Some (fmt_02d n, rest).
Proof.
  intros Hn rest. unfold fmt_02d. destruct (Z.ltb_spec n 0); [lia |].
  generalize (pad2 (digits_of n)). intros d.
  induction d; simpl; try reflexivity;
    change (?a ++ String ":" rest)%string with (a ++ ":" ++ rest)%string;
    rewrite IHd; reflexivity.
Qed.

Lemma denoted_seconds_mmss (t : Z) :
  0 <= t -> denoted_seconds (mmss (t / 60) (t mod 60)) = Some t.
Proof.
  intros Ht. unfold denoted_seconds, mmss.
  assert (0 <= t / 60) by (apply Z.div_pos; lia).
  pose proof (Z.mod_pos_bound t 60 ltac:(lia)).
  rewrite fmt_02d_no_colon by lia.
  rewrite !read_fmt_02d by lia. f_equal.
  pose proof (Z.div_mod t 60 ltac:(lia)). lia.
Qed.

(** ** DurationUtility: [format_duration] *)

Lemma flt_f0_false_finite (s : bool) (m : positive) (e : Z) :
  flt (S754_finite s m e) f0 = false -> s = false.
Proof. destruct s; [discriminate | reflexivity]. Qed.

Lemma format_duration_finite (m : positive) (e : Z) :
  format_duration (PyFloat (S754_finite false m e)) =
  mmss (round_mag m e / 60) (round_mag m e mod 60).
Proof. reflexivity. Qed.

Lemma nearest_integer_zero (s : bool) : nearest_integer (S754_zero s) 0.
Proof. unfold nearest_integer. cbn. discriminate. Qed.

(** C8: a finite non-negative number of seconds is rendered as the nearest
    whole second [t], minutes [t / 60] on at least two digits and without
    an upper bound, seconds [t mod 60] on exactly two digits; a NaN, a
    negative number or a non-numeric object gives "00:00". *)
Theorem format_duration_spec :
  (forall x, is_finite x = true -> flt x f0 = false ->
     exists t,
       nearest_integer x t /\ 0 <= t /\
       format_duration (PyFloat x) = mmss (t / 60) (t mod 60) /\
       read_decimal (fmt_02d (t / 60)) = Some (t / 60) /\
       (2 <= String.length (fmt_02d (t / 60)))%nat /\
       0 <= t mod 60 <= 59 /\
       read_decimal (fmt_02d (t mod 60)) = Some (t mod 60) /\
       String.length (fmt_02d (t mod 60)) = 2%nat) /\
  (forall x, is_nan x = true \/ flt x f0 = true ->
     format_duration (PyFloat x) = "00:00"%string) /\
  format_duration PyNone = "00:00"%string /\
  format_duration (PyFloat f10) = "00:10"%string /\
  format_duration (PyFloat f125_6) = "02:06"%string /\
  format_duration (PyFloat S754_nan) = "00:00"%string.
Proof.
  split; [| split; [| repeat split]].
  - intros x Hfin Hneg.
    assert (Hfields : forall t, 0 <= t ->
      read_decimal (fmt_02d (t / 60)) = Some (t / 60) /\
      (2 <= String.length (fmt_02d (t / 60)))%nat /\
      0 <= t mod 60 <= 59 /\
      read_decimal (fmt_02d (t mod 60)) = Some (t mod 60) /\
      String.length (fmt_02d (t mod 60)) = 2%nat).
    { intros t Ht.
      assert (0 <= t / 60) by (apply Z.div_pos; lia).
      pose proof (Z.mod_pos_bound t 60 ltac:(lia)).
      repeat split; try lia.
      - now apply read_fmt_02d.
      - now apply fmt_02d_length.
      - apply read_fmt_02d; lia.
      - apply fmt_02d_seconds_length; lia. }
    destruct x as [s | s | | s m e]; try discriminate.
    + exists 0. split; [apply nearest_integer_zero |].
      split; [lia |]. split; [reflexivity |]. apply Hfields; lia.
    + apply flt_f0_false_finite in Hneg. subst s.
      exists (round_mag m e).
      split; [apply round_mag_nearest |].
      split; [apply round_mag_nonneg |].
      split; [apply format_duration_finite |].
      apply Hfields, round_mag_nonneg.
  - intros x [Hnan | Hlt].
    + destruct x; try discriminate. reflexivity.
    + unfold format_duration, format_duration_body. cbn [py_float bind].
      rewrite Hlt, orb_true_r. reflexivity.
Qed.

Lemma format_duration_spec_witness :
  exists t,
    nearest_integer f125_6 t /\ 0 <= t /\
    format_duration (PyFloat f125_6) = mmss (t / 60) (t mod 60) /\
    read_decimal (fmt_02d (t / 60)) = Some (t / 60) /\
    (2 <= String.length (fmt_02d (t / 60)))%nat /\
    0 <= t mod 60 <= 59 /\
    read_decimal (fmt_02d (t mod 60)) = Some (t mod 60) /\
    String.length (fmt_02d (t mod 60)) = 2%nat.
Proof.
  apply (proj1 format_duration_spec f125_6); reflexivity.
Defined.

Lemma half_integer_float (k : Z) (x : float) :
  0 <= k -> (F2Q x == inject_Z k + (1 # 2))%Q ->
  exists m p, x = S754_finite false m (Zneg p)
              /\ Zpos m = k * 2 ^ Zpos p + 2 ^ (Zpos p - 1).
Proof.
  intros Hk H. destruct x as [s | s | | s m e]; cbn in H.
  1-3: unfold Qeq in H; cbn in H; lia.
  destruct e as [| p | p].
  - unfold Qeq in H; cbn in H. destruct s; lia.
  - unfold Qeq in H. cbn [Qnum Qden inject_Z Qplus] in H.
    assert (0 < 2 ^ Zpos p) by (apply Z.pow_pos_nonneg; lia).
    replace (2 ^ Zpos p) with (2 * 2 ^ (Zpos p - 1)) in H
      by (rewrite <- Z.pow_succ_r by lia; f_equal; lia).
    destruct s; lia.
  - unfold Qeq in H. cbn [Qnum Qden inject_Z Qplus] in H.
    rewrite pos_pow_Z in H.
    assert (Hp : 0 < 2 ^ (Zpos p - 1)) by (apply Z.pow_pos_nonneg; lia).
    assert (E : 2 ^ Zpos p = 2 * 2 ^ (Zpos p - 1))
      by (rewrite <- Z.pow_succ_r by lia; f_equal; lia).
    destruct s.
    + exfalso. rewrite E in H. lia.
    + exists m, p. split; [reflexivity |]. rewrite E in *. lia.
Qed.

(** C10: an exact half second goes to the even neighbour: [k + 0.5] is
    rendered as [k] seconds when [k] is even and as [k + 1] when it is
    odd; 10.5 gives "00:10" and 11.5 gives "00:12". *)
Theorem format_duration_half_even :
  (forall k x, 0 <= k -> (F2Q x == inject_Z k + (1 # 2))%Q ->
     let t := if Z.even k then k else k + 1 in
     format_duration (PyFloat x) = mmss (t / 60) (t mod 60)) /\
  format_duration (PyFloat f10_5) = "00:10"%string /\
  format_duration (PyFloat f11_5) = "00:12"%string.
Proof.
  split; [| split; reflexivity].
  intros k x Hk Hx t.
  destruct (half_integer_float k x Hk Hx) as (m & p & -> & Hm).
  rewrite format_duration_finite.
  assert (Hp : 0 < 2 ^ (Zpos p - 1)) by (apply Z.pow_pos_nonneg; lia).
  assert (E : 2 ^ Zpos p = 2 * 2 ^ (Zpos p - 1))
    by (rewrite <- Z.pow_succ_r by lia; f_equal; lia).
  assert (Ht : round_mag m (Zneg p) = t).
  { unfold round_mag, round_half_even.
    assert (Hq : Zpos m / 2 ^ Zpos p = k)
      by (symmetry; apply (Z.div_unique _ _ k (2 ^ (Zpos p - 1))); lia).
    assert (Hr : Zpos m mod 2 ^ Zpos p = 2 ^ (Zpos p - 1))
      by (symmetry; apply (Z.mod_unique _ _ k); lia).
    rewrite Hq, Hr, <- E, Z.compare_refl. reflexivity. }
  rewrite Ht. reflexivity.
Qed.

Lemma format_duration_half_even_witness :
  format_duration (PyFloat f11_5) = mmss (12 / 60) (12 mod 60).
Proof.
  apply (proj1 format_duration_half_even 11 f11_5); [lia | reflexivity].
Defined.

(** ** Binary64 rounding: shape and size of a rounded result

    [binary_round_aux] is the rounding every operation of [SpecFloat]
    ends with. The lemmas below say what it returns from the number of
    binary digits of its argument, without the exact value: a zero only
    below the subnormal range, an infinity only above the finite range,
    otherwise a canonical float of the same magnitude (one more when the
    mantissa is rounded up to a power of two). *)


Lemma fexp64_eq (e : Z) : fexp64 e = Z.max (e - 53) (-1074).
Proof. reflexivity. Qed.

Lemma digits2_size (p : positive) : digits2_pos p = Pos.size p.
Proof. induction p; cbn; congruence. Qed.

Lemma Zdigits2_nonneg (m : Z) : 0 <= Zdigits2 m.
Proof. destruct m; cbn; lia. Qed.

Lemma Zdigits2_pos_bounds (p : positive) :
  2 ^ (Zdigits2 (Zpos p) - 1) <= Zpos p < 2 ^ Zdigits2 (Zpos p).
Proof.
  cbn [Zdigits2]. rewrite digits2_size.
  pose proof (Pos.size_gt p) as Hgt. pose proof (Pos.size_le p) as Hle.
  apply Pos2Z.pos_lt_pos in Hgt. apply Pos2Z.pos_le_pos in Hle.
  rewrite Pos2Z.inj_pow in Hgt, Hle.
  split; [| exact Hgt].
  replace (Zpos (Pos.size p)) with (Z.succ (Zpos (Pos.size p) - 1)) in Hle
    by lia.
  rewrite Z.pow_succ_r in Hle by lia. lia.
Qed.

Lemma Zdigits2_bounds (m : Z) :
  0 < m -> 2 ^ (Zdigits2 m - 1) <= m < 2 ^ Zdigits2 m.
Proof. destruct m; try lia. intros _. apply Zdigits2_pos_bounds. Qed.

Lemma Zdigits2_lt_pow (m k : Z) : 0 <= m -> 0 <= k -> m < 2 ^ k -> Zdigits2 m <= k.
Proof.
  intros Hm Hk H. destruct (Z.eq_dec m 0) as [-> | Hnz]; [cbn; lia |].
  pose proof (Zdigits2_bounds m ltac:(lia)) as [Hlo _].
  destruct (Z.le_gt_cases (Zdigits2 m) k) as [| Hgt]; [assumption | exfalso].
  assert (2 ^ k <= 2 ^ (Zdigits2 m - 1)) by (apply Z.pow_le_mono_r; lia).
  lia.
Qed.

Lemma Zdigits2_ge_pow (m k : Z) : 0 <= k -> 2 ^ k <= m -> k + 1 <= Zdigits2 m.
Proof.
  intros Hk H.
  assert (0 < 2 ^ k) by (apply Z.pow_pos_nonneg; lia).
  pose proof (Zdigits2_bounds m ltac:(lia)) as [_ Hhi].
  pose proof (Zdigits2_nonneg m).
  destruct (Z.le_gt_cases (k + 1) (Zdigits2 m)) as [| Hgt]; [assumption |].
  exfalso.
  assert (2 ^ Zdigits2 m <= 2 ^ k) by (apply Z.pow_le_mono_r; lia).
  lia.
Qed.

Lemma shr_1_spec (m : Z) (r s : bool) :
  0 <= m ->
  shr_1 (Build_shr_record m r s) = Build_shr_record (m / 2) (Z.odd m) (r || s).
Proof.
  intros Hm. rewrite <- Z.div2_div.
  destruct m as [| [p | p |] |]; try lia; reflexivity.
Qed.

Lemma iter_shr_1_m (p : positive) :
  forall mrs, 0 <= shr_m mrs ->
  shr_m (SpecFloat.iter_pos shr_1 p mrs) = shr_m mrs / 2 ^ Zpos p.
Proof.
  assert (Hstep : forall mrs, 0 <= shr_m mrs ->
            shr_m (shr_1 mrs) = shr_m mrs / 2).
  { intros [m r s] Hm. cbn [shr_m] in Hm. now rewrite shr_1_spec. }
  assert (Hpos : forall q, 0 < 2 ^ Zpos q)
    by (intros; apply Z.pow_pos_nonneg; lia).
  induction p as [p IH | p IH |]; intros mrs Hm; cbn [SpecFloat.iter_pos].
  - assert (H1 : 0 <= shr_m (shr_1 mrs))
      by (rewrite Hstep by assumption; apply Z.div_pos; lia).
    assert (H2 : 0 <= shr_m (SpecFloat.iter_pos shr_1 p (shr_1 mrs)))
      by (rewrite IH by assumption; apply Z.div_pos; [lia | apply Hpos]).
    rewrite IH, IH, Hstep by assumption.
    pose proof (Hpos p).
    assert (E : 2 ^ Zpos p~1 = 2 * 2 ^ Zpos p * 2 ^ Zpos p).
    { replace (Zpos p~1) with (1 + Zpos p + Zpos p) by lia.
      rewrite !Z.pow_add_r by lia. reflexivity. }
    rewrite E, !Z.div_div by lia. f_equal; ring.
  - assert (H2 : 0 <= shr_m (SpecFloat.iter_pos shr_1 p mrs))
      by (rewrite IH by assumption; apply Z.div_pos; [lia | apply Hpos]).
    rewrite IH, IH by assumption.
    pose proof (Hpos p).
    assert (E : 2 ^ Zpos p~0 = 2 ^ Zpos p * 2 ^ Zpos p).
    { replace (Zpos p~0) with (Zpos p + Zpos p) by lia.
      rewrite !Z.pow_add_r by lia. reflexivity. }
    rewrite E, !Z.div_div by lia. f_equal; ring.
  - rewrite Hstep by assumption. reflexivity.
Qed.

Lemma shr_record_of_loc_m (m : Z) (l : location) :
  shr_m (shr_record_of_loc m l) = m.
Proof. destruct l as [| []]; reflexivity. Qed.

Lemma shr_spec (mrs : shr_record) (e n : Z) :
  0 <= shr_m mrs ->
  shr_m (fst (shr mrs e n)) = shr_m mrs / 2 ^ Z.max 0 n
  /\ snd (shr mrs e n) = e + Z.max 0 n.
Proof.
  intros Hm. destruct n as [| p | p]; cbn [shr fst snd].
  - rewrite Z.div_1_r. split; [reflexivity | cbn; lia].
  - rewrite iter_shr_1_m by assumption. split; [reflexivity | lia].
  - rewrite Z.div_1_r. split; [reflexivity | cbn; lia].
Qed.

Lemma shr_fexp_spec (m e : Z) (l : location) :
  0 <= m ->
  let n := Z.max 0 (fexp64 (Zdigits2 m + e) - e) in
  shr_m (fst (shr_fexp prec emax m e l)) = m / 2 ^ n
  /\ snd (shr_fexp prec emax m e l) = e + n.
Proof.
  intros Hm n. unfold shr_fexp.
  pose proof (shr_spec (shr_record_of_loc m l) e
                (fexp64 (Zdigits2 m + e) - e)) as H.
  rewrite shr_record_of_loc_m in H. now apply H.
Qed.

Lemma round_nearest_even_cases (m : Z) (l : location) :
  round_nearest_even m l = m \/ round_nearest_even m l = m + 1.
Proof. destruct l as [| []]; cbn; try destruct (Z.even m); auto. Qed.

Lemma div_pow2_lt (m n k : Z) :
  0 <= m -> 0 <= n -> 0 <= k -> Zdigits2 m <= n + k -> m / 2 ^ n < 2 ^ k.
Proof.
  intros Hm Hn Hk Hd.
  assert (0 < 2 ^ n) by (apply Z.pow_pos_nonneg; lia).
  apply Z.div_lt_upper_bound; [assumption |].
  rewrite <- Z.pow_add_r by lia.
  destruct (Z.eq_dec m 0) as [-> | Hnz].
  - apply Z.pow_pos_nonneg; lia.
  - pose proof (Zdigits2_bounds m ltac:(lia)) as [_ Hhi].
    assert (2 ^ Zdigits2 m <= 2 ^ (n + k)) by (apply Z.pow_le_mono_r; lia).
    lia.
Qed.

Lemma div_pow2_ge (m n k : Z) :
  0 < m -> 0 <= n -> 0 <= k -> n + k + 1 <= Zdigits2 m -> 2 ^ k <= m / 2 ^ n.
Proof.
  intros Hm Hn Hk Hd.
  assert (0 < 2 ^ n) by (apply Z.pow_pos_nonneg; lia).
  apply Z.div_le_lower_bound; [assumption |].
  rewrite <- Z.pow_add_r by lia.
  pose proof (Zdigits2_bounds m Hm) as [Hlo _].
  assert (2 ^ (n + k) <= 2 ^ (Zdigits2 m - 1)) by (apply Z.pow_le_mono_r; lia).
  lia.
Qed.

Lemma Zdigits2_eq (m k : Z) :
  0 <= k -> 2 ^ k <= m < 2 ^ (k + 1) -> Zdigits2 m = k + 1.
Proof.
  intros Hk [Hlo Hhi].
  assert (0 < 2 ^ k) by (apply Z.pow_pos_nonneg; lia).
  pose proof (Zdigits2_lt_pow m (k + 1) ltac:(lia) ltac:(lia) Hhi).
  pose proof (Zdigits2_ge_pow m k Hk Hlo). lia.
Qed.

Lemma bounded64_intro (m : positive) (e : Z) :
  fexp64 (Zdigits2 (Zpos m) + e) = e -> e <= 971 -> bounded64 m e = true.
Proof.
  intros Hc He. unfold bounded, canonical_mantissa.
  apply andb_true_intro. split.
  - apply Z.eqb_eq. exact Hc.
  - apply Z.leb_le. exact He.
Qed.

Lemma bounded64_elim (m : positive) (e : Z) :
  bounded64 m e = true ->
  fexp64 (Zdigits2 (Zpos m) + e) = e /\ e <= 971.
Proof.
  unfold bounded, canonical_mantissa. intros H.
  apply andb_prop in H as [Hc He].
  apply Z.eqb_eq in Hc. apply Z.leb_le in He. split; [exact Hc | exact He].
Qed.

Lemma round64_shape (s : bool) (mx ex : Z) (lx : location) :
  0 <= mx -> ex <= fexp64 (Zdigits2 mx + ex) ->
  rounded s (Zdigits2 mx + ex) (round64 s mx ex lx).
Proof.
  intros Hmx Hpre. unfold binary_round_aux.
  set (d := Zdigits2 mx) in *. set (E := fexp64 (d + ex)) in *.
  pose proof (Zdigits2_nonneg mx) as Hd0. fold d in Hd0.
  assert (HE : E = Z.max (d + ex - 53) (-1074)) by reflexivity.
  pose proof (shr_fexp_spec mx ex lx Hmx) as [Hm' He']. fold d E in Hm', He'.
  destruct (shr_fexp prec emax mx ex lx) as [mrs' e'].
  cbn [fst snd] in Hm', He'.
  replace (Z.max 0 (E - ex)) with (E - ex) in Hm', He' by lia.
  replace (ex + (E - ex)) with E in He' by lia. subst e'.
  set (m' := shr_m mrs') in *.
  set (m1 := round_nearest_even m' (loc_of_shr_record mrs')).
  assert (Hp : 0 < 2 ^ (E - ex)) by (apply Z.pow_pos_nonneg; lia).
  assert (Hm'0 : 0 <= m') by (rewrite Hm'; apply Z.div_pos; lia).
  assert (Hm'53 : m' < 2 ^ 53)
    by (rewrite Hm'; apply div_pow2_lt; lia).
  assert (Hm'52 : -1074 < E -> 2 ^ 52 <= m').
  { intros HEn. rewrite Hm'.
    assert (0 < mx) by (destruct (Z.eq_dec mx 0) as [E0 | ];
                        [subst mx; cbn in d; lia | lia]).
    apply div_pow2_ge; lia. }
  assert (Hm1 : m1 = m' \/ m1 = m' + 1)
    by apply round_nearest_even_cases.
  assert (Hm1_0 : 0 <= m1) by lia.
  pose proof (shr_fexp_spec m1 E loc_Exact Hm1_0) as [Hm2 He2].
  destruct (shr_fexp prec emax m1 E loc_Exact) as [mrs'' e''].
  cbn [fst snd] in Hm2, He2.
  destruct (Z.eq_dec m1 (2 ^ 53)) as [Hcarry | Hnc].
  - (* the mantissa was rounded up to 2^53 *)
    assert (Hd1 : Zdigits2 m1 = 54)
      by (rewrite Hcarry; apply (Zdigits2_eq _ 53); lia).
    rewrite Hd1 in Hm2, He2.
    assert (Hn2 : Z.max 0 (fexp64 (54 + E) - E) = 1)
      by (rewrite fexp64_eq; lia).
    rewrite Hn2 in Hm2, He2. rewrite Hcarry in Hm2.
    change (2 ^ 53 / 2 ^ 1) with (Zpos (2 ^ 52)) in Hm2.
    rewrite Hm2. subst e''.
    assert (Hmag : d + ex = 53 + E).
    { assert (Hm'v : m' = 2 ^ 53 - 1) by lia.
      assert (0 < mx) by (destruct (Z.eq_dec mx 0) as [E0 | ];
        [subst mx; rewrite Z.div_0_l in Hm' by lia; lia | lia]).
      assert (2 ^ 52 * 2 ^ (E - ex) <= mx).
      { pose proof (Z.mul_div_le mx (2 ^ (E - ex)) Hp). nia. }
      rewrite <- Z.pow_add_r in H0 by lia.
      pose proof (Zdigits2_ge_pow mx (52 + (E - ex)) ltac:(lia) H0).
      fold d in H1. lia. }
    destruct (Z.leb_spec (E + 1) (emax - prec)) as [Hle | Hgt];
      unfold emax, prec in *.
    + apply rounded_finite.
      * apply bounded64_intro; [| lia].
        change (Zdigits2 (Zpos (2 ^ 52))) with 53. rewrite fexp64_eq. lia.
      * change (Zdigits2 (Zpos (2 ^ 52))) with 53. lia.
    + apply rounded_inf. lia.
  - assert (Hm1_53 : m1 < 2 ^ 53) by lia.
    assert (Hd1 : Zdigits2 m1 <= 53) by (apply Zdigits2_lt_pow; lia).
    assert (Hn2 : Z.max 0 (fexp64 (Zdigits2 m1 + E) - E) = 0)
      by (rewrite fexp64_eq; lia).
    rewrite Hn2 in Hm2, He2. rewrite Z.div_1_r in Hm2.
    replace (E + 0) with E in He2 by lia. subst e''. rewrite Hm2.
    destruct m1 as [| p1 | p1] eqn:Em1; [| | lia].
    + (* rounded to zero *)
      apply rounded_zero.
      assert (Hm'z : m' = 0) by lia.
      assert (E = -1074).
      { destruct (Z.eq_dec E (-1074)) as [| Hne]; [assumption |].
        assert (2 ^ 52 <= m') by (apply Hm'52; lia). lia. }
      rewrite Hm'z in Hm'. symmetry in Hm'.
      apply Z.div_small_iff in Hm'; [| lia].
      destruct Hm' as [[_ Hlt] | ?]; [| lia].
      pose proof (Zdigits2_lt_pow mx (E - ex) Hmx ltac:(lia) Hlt).
      fold d in H0. lia.
    + destruct (Z.leb_spec E (emax - prec)) as [Hle | Hgt];
        unfold emax, prec in *.
      * assert (Hmag : d + ex <= Zdigits2 (Zpos p1) + E
                       <= Z.max (d + ex) (-1074) + 1
                       /\ fexp64 (Zdigits2 (Zpos p1) + E) = E).
        { rewrite fexp64_eq.
          destruct (Z.eq_dec E (-1074)) as [HEs | Hne].
          - assert (Hup : Zdigits2 (Zpos p1) <= Z.max (d - (E - ex)) 0 + 1).
            { apply Zdigits2_lt_pow; [lia | lia |].
              assert (m' < 2 ^ Z.max (d - (E - ex)) 0)
                by (rewrite Hm'; apply div_pow2_lt; lia).
              rewrite Z.pow_add_r, Z.pow_1_r by lia. lia. }
            assert (Hlow : d - (E - ex) <= Zdigits2 (Zpos p1)).
            { destruct (Z.le_gt_cases (d - (E - ex)) 0) as [| Hgt0].
              - cbn [Zdigits2]. lia.
              - assert (0 < mx) by (destruct (Z.eq_dec mx 0) as [E0 | ];
                  [subst mx; cbn in d; lia | lia]).
                assert (2 ^ (d - (E - ex) - 1) <= m')
                  by (rewrite Hm'; apply div_pow2_ge; lia).
                pose proof (Zdigits2_ge_pow (Zpos p1) (d - (E - ex) - 1)
                              ltac:(lia) ltac:(lia)). lia. }
            lia.
          - assert (2 ^ 52 <= m') by (apply Hm'52; lia).
            assert (Zdigits2 (Zpos p1) = 53)
              by (apply (Zdigits2_eq _ 52); lia).
            lia. }
        destruct Hmag as [Hmag Hcan].
        apply rounded_finite; [apply bounded64_intro; [exact Hcan | lia] |].
        exact Hmag.
      * apply rounded_inf. lia.
Qed.

Lemma pos_iter_xO (d m : positive) :
  Zpos (Pos.iter xO m d) = Zpos m * 2 ^ Zpos d.
Proof.
  revert m. induction d using Pos.peano_ind; intros m.
  - cbn [Pos.iter]. rewrite Pos2Z.inj_xO. lia.
  - rewrite Pos.iter_succ, Pos2Z.inj_xO, IHd, Pos2Z.inj_succ.
    rewrite Z.pow_succ_r by lia. ring.
Qed.

Lemma Zdigits2_mul_pow2 (m n : Z) :
  0 < m -> 0 <= n -> Zdigits2 (m * 2 ^ n) = Zdigits2 m + n.
Proof.
  intros Hm Hn.
  pose proof (Zdigits2_bounds m Hm) as [Hlo Hhi].
  pose proof (Zdigits2_nonneg m).
  assert (0 < 2 ^ n) by (apply Z.pow_pos_nonneg; lia).
  assert (Hd1 : 1 <= Zdigits2 m)
    by (pose proof (Zdigits2_ge_pow m 0 ltac:(lia) ltac:(cbn; lia)); lia).
  replace (Zdigits2 m + n) with ((Zdigits2 m - 1 + n) + 1) by lia.
  apply Zdigits2_eq; [lia |].
  replace (Zdigits2 m - 1 + n + 1) with (Zdigits2 m + n) by lia.
  rewrite !Z.pow_add_r by lia. nia.
Qed.

Lemma shl_align_spec (mx : positive) (ex ex' : Z) :
  let '(m, e) := shl_align mx ex ex' in
  Zpos m = Zpos mx * 2 ^ (ex - e) /\ e = Z.min ex ex'.
Proof.
  unfold shl_align. destruct (ex' - ex) as [| d | d] eqn:Hd.
  - rewrite Z.sub_diag. split; lia.
  - rewrite Z.sub_diag. split; lia.
  - split; [| lia]. rewrite pos_iter_xO. f_equal. f_equal. lia.
Qed.

Lemma binary_round_shape (s : bool) (m : positive) (e : Z) :
  rounded s (Zdigits2 (Zpos m) + e) (binary_round prec emax s m e).
Proof.
  unfold binary_round.
  pose proof (shl_align_spec m e (fexp64 (Zpos (digits2_pos m) + e))) as H.
  change (Zpos (digits2_pos m)) with (Zdigits2 (Zpos m)) in *.
  destruct (shl_align m e _) as [mz ez]. destruct H as [Hm He].
  assert (Hmag : Zdigits2 (Zpos mz) + ez = Zdigits2 (Zpos m) + e).
  { rewrite Hm, Zdigits2_mul_pow2 by lia. lia. }
  rewrite <- Hmag. apply round64_shape; [lia |].
  rewrite Hmag. lia.
Qed.

Lemma binary_normalize_shape (m e : Z) (szero : bool) :
  m <> 0 ->
  rounded (m <? 0) (Zdigits2 m + e) (binary_normalize prec emax m e szero).
Proof.
  intros Hm. destruct m as [| p | p]; [lia | |]; cbn [binary_normalize].
  - apply binary_round_shape.
  - apply (binary_round_shape true p e).
Qed.

(** ** Size of the results of the arithmetic operations *)

Lemma Zdigits2_mono (a b : Z) : 0 <= a <= b -> Zdigits2 a <= Zdigits2 b.
Proof.
  intros [Ha Hab]. destruct (Z.eq_dec a 0) as [-> | Hnz].
  - apply Zdigits2_nonneg.
  - pose proof (Zdigits2_bounds a ltac:(lia)) as [Hlo _].
    pose proof (Zdigits2_nonneg a).
    assert (1 <= Zdigits2 a).
    { destruct a; try lia. cbn. lia. }
    pose proof (Zdigits2_ge_pow b (Zdigits2 a - 1) ltac:(lia) ltac:(lia)).
    lia.
Qed.

Lemma Zdigits2_opp (a : Z) : Zdigits2 (- a) = Zdigits2 a.
Proof. destruct a; reflexivity. Qed.

Lemma Zdigits2_abs (a : Z) : Zdigits2 (Z.abs a) = Zdigits2 a.
Proof. destruct a; reflexivity. Qed.

Lemma rounded_fin (s : bool) (k : Z) (x : float) :
  rounded s k x -> k <= 1023 -> fin (Z.max k (-1074) + 1) x.
Proof.
  intros [Hz | Hi | m e Hb Hm] Hk; cbn [fin];
    [exact I | lia | split; [exact Hb | lia]].
Qed.

Lemma rounded_nonneg (k : Z) (x : float) :
  rounded false k x -> k <= 1023 -> nonneg x.
Proof.
  intros [Hz | Hi | m e Hb Hm] Hk; cbn [nonneg]; [exact I | lia | exact I].
Qed.

Lemma rounded_pos_ge (k : Z) (x : float) :
  rounded false k x -> -1074 < k <= 1023 -> pos_ge k x.
Proof.
  intros [Hz | Hi | m e Hb Hm] Hk; cbn [pos_ge];
    [lia | lia | split; [exact Hb | lia]].
Qed.

Lemma fin_weaken (k k' : Z) (x : float) : fin k x -> k <= k' -> fin k' x.
Proof.
  destruct x; cbn [fin]; try tauto. intros [Hb Hm] Hk. split; [exact Hb | lia].
Qed.

Lemma pos_ge_nonneg (j : Z) (x : float) : pos_ge j x -> nonneg x.
Proof. destruct x as [| | | [] m e]; cbn; tauto. Qed.

Lemma shl_align_fst (mx : positive) (ex ez : Z) :
  ez <= ex -> Zpos (fst (shl_align mx ex ez)) = Zpos mx * 2 ^ (ex - ez).
Proof.
  intros H. pose proof (shl_align_spec mx ex ez) as Hs.
  destruct (shl_align mx ex ez) as [m e]. destruct Hs as [Hm He].
  cbn [fst]. rewrite Hm. f_equal. f_equal. lia.
Qed.

Lemma aligned_lt (mx : positive) (ex ez k : Z) :
  ez <= ex -> Zdigits2 (Zpos mx) + ex <= k ->
  0 < Zpos mx * 2 ^ (ex - ez) < 2 ^ (k - ez).
Proof.
  intros He Hk.
  assert (0 < 2 ^ (ex - ez)) by (apply Z.pow_pos_nonneg; lia).
  pose proof (Zdigits2_pos_bounds mx) as [_ Hhi].
  pose proof (Zdigits2_nonneg (Zpos mx)).
  split; [lia |].
  assert (2 ^ Zdigits2 (Zpos mx) * 2 ^ (ex - ez) <= 2 ^ (k - ez)).
  { rewrite <- Z.pow_add_r by lia. apply Z.pow_le_mono_r; lia. }
  nia.
Qed.

(** The sum or difference of two aligned mantissas, rounded. *)
Lemma normalize_sum_fin (a b ez k : Z) :
  -1075 <= k <= 1022 -> 0 <= k - ez ->
  Z.abs a < 2 ^ (k - ez) -> Z.abs b < 2 ^ (k - ez) ->
  fin (k + 2) (binary_normalize prec emax (a + b) ez false).
Proof.
  intros Hk Hkz Ha Hb.
  destruct (Z.eq_dec (a + b) 0) as [E | Hnz]; [rewrite E; exact I |].
  pose proof (binary_normalize_shape (a + b) ez false Hnz) as Hr.
  assert (Hd : Zdigits2 (a + b) <= k - ez + 1).
  { rewrite <- Zdigits2_abs. apply Zdigits2_lt_pow; [lia | lia |].
    rewrite Z.pow_add_r, Z.pow_1_r by lia. lia. }
  apply rounded_fin in Hr; [| lia].
  eapply fin_weaken; [exact Hr | lia].
Qed.

Lemma fadd_fin (k : Z) (x y : float) :
  -1075 <= k <= 1022 -> fin k x -> fin k y -> fin (k + 2) (fadd x y).
Proof.
  intros Hk Hx Hy.
  destruct x as [sx | sx | | sx mx ex]; try contradiction;
    destruct y as [sy | sy | | sy my ey]; try contradiction.
  - destruct sx, sy; exact I.
  - change (fadd (S754_zero sx) (S754_finite sy my ey))
      with (S754_finite sy my ey).
    eapply fin_weaken; [exact Hy | lia].
  - change (fadd (S754_finite sx mx ex) (S754_zero sy))
      with (S754_finite sx mx ex).
    eapply fin_weaken; [exact Hx | lia].
  - destruct Hx as [_ Hx], Hy as [_ Hy]. unfold fadd, SFadd.
    set (ez := Z.min ex ey).
    rewrite !shl_align_fst by lia.
    pose proof (aligned_lt mx ex ez k ltac:(lia) Hx).
    pose proof (aligned_lt my ey ez k ltac:(lia) Hy).
    pose proof (Zdigits2_pos_bounds mx). pose proof (Zdigits2_nonneg (Zpos mx)).
    assert (1 <= Zdigits2 (Zpos mx)) by (cbn; lia).
    apply normalize_sum_fin; [lia | lia | |];
      [destruct sx | destruct sy]; cbn [cond_Zopp]; lia.
Qed.

Lemma fsub_fin (k : Z) (x y : float) :
  -1075 <= k <= 1022 -> fin k x -> fin k y -> fin (k + 2) (fsub x y).
Proof.
  intros Hk Hx Hy.
  destruct x as [sx | sx | | sx mx ex]; try contradiction;
    destruct y as [sy | sy | | sy my ey]; try contradiction.
  - destruct sx, sy; exact I.
  - change (fsub (S754_zero sx) (S754_finite sy my ey))
      with (S754_finite (negb sy) my ey).
    destruct Hy as [Hb Hy]. split; [exact Hb | lia].
  - change (fsub (S754_finite sx mx ex) (S754_zero sy))
      with (S754_finite sx mx ex).
    eapply fin_weaken; [exact Hx | lia].
  - destruct Hx as [_ Hx], Hy as [_ Hy]. unfold fsub, SFsub.
    set (ez := Z.min ex ey).
    rewrite !shl_align_fst by lia.
    pose proof (aligned_lt mx ex ez k ltac:(lia) Hx).
    pose proof (aligned_lt my ey ez k ltac:(lia) Hy).
    assert (1 <= Zdigits2 (Zpos mx)) by (cbn; lia).
    rewrite <- Z.add_opp_r.
    apply normalize_sum_fin; [lia | lia | |];
      [destruct sx | destruct sy]; cbn [cond_Zopp]; lia.
Qed.

Lemma fadd_nonneg (k : Z) (x y : float) :
  -1075 <= k <= 1022 -> fin k x -> fin k y -> nonneg x -> nonneg y ->
  nonneg (fadd x y).
Proof.
  intros Hk Hx Hy Nx Ny.
  destruct x as [sx | sx | | sx mx ex]; try contradiction;
    destruct y as [sy | sy | | sy my ey]; try contradiction.
  - destruct sx, sy; exact I.
  - exact Ny.
  - exact Nx.
  - destruct sx; [contradiction |]. destruct sy; [contradiction |].
    destruct Hx as [_ Hx], Hy as [_ Hy]. unfold fadd, SFadd.
    set (ez := Z.min ex ey).
    rewrite !shl_align_fst by lia. cbn [cond_Zopp].
    pose proof (aligned_lt mx ex ez k ltac:(lia) Hx) as Ha.
    pose proof (aligned_lt my ey ez k ltac:(lia) Hy) as Hb.
    set (a := Zpos mx * 2 ^ (ex - ez)) in *.
    set (b := Zpos my * 2 ^ (ey - ez)) in *.
    assert (1 <= Zdigits2 (Zpos mx)) by (cbn; lia).
    pose proof (binary_normalize_shape (a + b) ez false ltac:(lia)) as Hr.
    replace (a + b <? 0) with false in Hr by (symmetry; apply Z.ltb_ge; lia).
    apply rounded_nonneg in Hr; [exact Hr |].
    assert (Zdigits2 (a + b) <= k - ez + 1).
    { apply Zdigits2_lt_pow; [lia | lia |].
      rewrite Z.pow_add_r, Z.pow_1_r by lia. lia. }
    lia.
Qed.

Lemma fadd_pos_ge (k j : Z) (x y : float) :
  -1074 < j -> k <= 1022 -> fin k x -> fin k y -> nonneg x -> pos_ge j y ->
  pos_ge j (fadd x y).
Proof.
  intros Hj Hk Hx Hy Nx Py.
  destruct y as [sy | sy | | sy my ey]; try contradiction.
  destruct sy; [contradiction |].
  destruct x as [sx | sx | | sx mx ex]; try contradiction.
  - exact Py.
  - destruct sx; [contradiction |].
    destruct Hx as [_ Hx], Hy as [_ Hy], Py as [_ Py]. unfold fadd, SFadd.
    set (ez := Z.min ex ey).
    rewrite !shl_align_fst by lia. cbn [cond_Zopp].
    pose proof (aligned_lt mx ex ez k ltac:(lia) Hx) as Ha.
    pose proof (aligned_lt my ey ez k ltac:(lia) Hy) as Hb.
    assert (Hdb : Zdigits2 (Zpos my * 2 ^ (ey - ez))
                  = Zdigits2 (Zpos my) + (ey - ez))
      by (apply Zdigits2_mul_pow2; lia).
    set (a := Zpos mx * 2 ^ (ex - ez)) in *.
    set (b := Zpos my * 2 ^ (ey - ez)) in *.
    assert (1 <= Zdigits2 (Zpos mx)) by (cbn; lia).
    pose proof (binary_normalize_shape (a + b) ez false ltac:(lia)) as Hr.
    replace (a + b <? 0) with false in Hr by (symmetry; apply Z.ltb_ge; lia).
    assert (Zdigits2 (a + b) <= k - ez + 1).
    { apply Zdigits2_lt_pow; [lia | lia |].
      rewrite Z.pow_add_r, Z.pow_1_r by lia. lia. }
    pose proof (Zdigits2_mono b (a + b) ltac:(lia)).
    apply rounded_pos_ge in Hr; [| lia].
    destruct (binary_normalize prec emax (a + b) ez false)
      as [| | | [] m e]; try contradiction.
    destruct Hr as [Hb' Hm]. split; [exact Hb' | lia].
Qed.

(** The mantissa and the exponent a product starts from meet the
    precondition of the rounding. *)
Lemma Zdigits2_mul (a b : positive) :
  Zdigits2 (Zpos a) + Zdigits2 (Zpos b) - 1 <= Zdigits2 (Zpos (a * b))
  <= Zdigits2 (Zpos a) + Zdigits2 (Zpos b).
Proof.
  pose proof (Zdigits2_pos_bounds a) as [Hal Hah].
  pose proof (Zdigits2_pos_bounds b) as [Hbl Hbh].
  assert (1 <= Zdigits2 (Zpos a)) by (cbn; lia).
  assert (1 <= Zdigits2 (Zpos b)) by (cbn; lia).
  set (da := Zdigits2 (Zpos a)) in *. set (db := Zdigits2 (Zpos b)) in *.
  assert (0 < 2 ^ (da - 1)) by (apply Z.pow_pos_nonneg; lia).
  assert (0 < 2 ^ (db - 1)) by (apply Z.pow_pos_nonneg; lia).
  rewrite Pos2Z.inj_mul. split.
  - assert (2 ^ (da + db - 2) <= Zpos a * Zpos b).
    { replace (da + db - 2) with ((da - 1) + (db - 1)) by lia.
      rewrite Z.pow_add_r by lia. nia. }
    pose proof (Zdigits2_ge_pow (Zpos a * Zpos b) (da + db - 2)
                  ltac:(lia) ltac:(lia)). lia.
  - apply Zdigits2_lt_pow; [lia | lia |].
    rewrite Z.pow_add_r by lia. nia.
Qed.

Lemma fmul_shape (sx sy : bool) (mx my : positive) (ex ey : Z) :
  bounded64 mx ex = true -> bounded64 my ey = true ->
  exists k,
    Zdigits2 (Zpos mx) + ex + (Zdigits2 (Zpos my) + ey) - 1 <= k
    <= Zdigits2 (Zpos mx) + ex + (Zdigits2 (Zpos my) + ey)
    /\ rounded (xorb sx sy) k
         (fmul (S754_finite sx mx ex) (S754_finite sy my ey)).
Proof.
  intros Hx Hy.
  apply bounded64_elim in Hx as [Hcx _]. apply bounded64_elim in Hy as [Hcy _].
  rewrite fexp64_eq in Hcx, Hcy.
  pose proof (Zdigits2_mul mx my) as Hd.
  assert (1 <= Zdigits2 (Zpos mx)) by (cbn; lia).
  assert (1 <= Zdigits2 (Zpos my)) by (cbn; lia).
  exists (Zdigits2 (Zpos (mx * my)) + (ex + ey)). split; [lia |].
  unfold fmul, SFmul. apply round64_shape; [lia |].
  rewrite fexp64_eq. lia.
Qed.

Lemma fmul_fin (kx ky : Z) (x y : float) :
  kx + ky <= 1023 -> fin kx x -> fin ky y ->
  fin (Z.max (kx + ky) (-1074) + 1) (fmul x y).
Proof.
  intros Hk Hx Hy.
  destruct x as [sx | sx | | sx mx ex]; try contradiction;
    destruct y as [sy | sy | | sy my ey]; try contradiction;
    try exact I.
  destruct Hx as [Hbx Hx], Hy as [Hby Hy].
  destruct (fmul_shape sx sy mx my ex ey Hbx Hby) as (k & Hk' & Hr).
  apply rounded_fin in Hr; [| lia].
  eapply fin_weaken; [exact Hr | lia].
Qed.

Lemma fmul_nonneg (kx ky : Z) (x y : float) :
  kx + ky <= 1023 -> fin kx x -> fin ky y -> nonneg x -> nonneg y ->
  nonneg (fmul x y).
Proof.
  intros Hk Hx Hy Nx Ny.
  destruct x as [sx | sx | | sx mx ex]; try contradiction;
    destruct y as [sy | sy | | sy my ey]; try contradiction;
    try exact I.
  destruct sx; [contradiction |]. destruct sy; [contradiction |].
  destruct Hx as [Hbx Hx], Hy as [Hby Hy].
  destruct (fmul_shape false false mx my ex ey Hbx Hby) as (k & Hk' & Hr).
  apply rounded_nonneg in Hr; [exact Hr | lia].
Qed.

(** The quotient a division starts from: its size, and the precondition
    of the rounding. *)
Lemma div_core_spec (mx my : positive) (ex ey : Z) :
  let '(q, e', _) := SFdiv_core_binary prec emax (Zpos mx) ex (Zpos my) ey in
  let K := Zdigits2 (Zpos mx) + ex - (Zdigits2 (Zpos my) + ey) in
  0 <= q /\ e' <= fexp64 (Zdigits2 q + e')
  /\ (q = 0 \/ K <= Zdigits2 q + e' <= K + 1).
Proof.
  unfold SFdiv_core_binary.
  set (dx := Zdigits2 (Zpos mx)). set (dy := Zdigits2 (Zpos my)).
  set (e' := Z.min (fexp64 (dx + ex - (dy + ey))) (ex - ey)).
  set (s := ex - ey - e').
  assert (Hs : 0 <= s) by (unfold s, e'; lia).
  set (m' := match s with
             | 0 => Zpos mx
             | Zpos _ => Z.shiftl (Zpos mx) s
             | Zneg _ => 0
             end).
  assert (Hm' : m' = Zpos mx * 2 ^ s).
  { unfold m'. destruct s as [| p | p] eqn:Es; [lia | | lia].
    now rewrite Z.shiftl_mul_pow2. }
  clearbody m'.
  pose proof (Z_div_mod m' (Zpos my) ltac:(lia)) as Hdm.
  assert (Hq : fst (Z.div_eucl m' (Zpos my)) = m' / Zpos my) by reflexivity.
  destruct (Z.div_eucl m' (Zpos my)) as [q r]. cbn [fst] in Hq.
  cbv zeta.
  pose proof (Zdigits2_pos_bounds mx) as [Hxl Hxh].
  pose proof (Zdigits2_pos_bounds my) as [Hyl Hyh].
  fold dx in Hxl, Hxh. fold dy in Hyl, Hyh.
  assert (Hdx : 1 <= dx) by (unfold dx; cbn; lia).
  assert (Hdy : 1 <= dy) by (unfold dy; cbn; lia).
  assert (H2s : 0 < 2 ^ s) by (apply Z.pow_pos_nonneg; lia).
  assert (Hq0 : 0 <= q) by (rewrite Hq; apply Z.div_pos; nia).
  (* upper bound on the quotient *)
  assert (Hup : q = 0 \/ (0 <= dx + s - dy + 1 /\ q < 2 ^ (dx + s - dy + 1))).
  { destruct (Z.le_gt_cases 0 (dx + s - dy + 1)) as [Hu | Hu].
    - right. split; [exact Hu |]. rewrite Hq.
      apply Z.div_lt_upper_bound; [lia |].
      assert (2 ^ (dx + s) = 2 ^ (dy - 1) * 2 ^ (dx + s - dy + 1))
        by (rewrite <- Z.pow_add_r by lia; f_equal; lia).
      assert (m' < 2 ^ (dx + s)) by (rewrite Hm', Z.pow_add_r by lia; nia).
      assert (0 < 2 ^ (dx + s - dy + 1)) by (apply Z.pow_pos_nonneg; lia).
      nia.
    - left. rewrite Hq. apply Z.div_small. split; [nia |].
      assert (m' < 2 ^ (dx + s)) by (rewrite Hm', Z.pow_add_r by lia; nia).
      assert (2 ^ (dx + s) <= 2 ^ (dy - 1))
        by (apply Z.pow_le_mono_r; lia).
      lia. }
  (* lower bound on the number of its digits *)
  assert (Hlow : dx + s - dy <= Zdigits2 q).
  { pose proof (Zdigits2_nonneg q).
    destruct (Z.le_gt_cases (dx + s - dy) 0) as [| Hpos]; [lia |].
    assert (2 ^ (dx + s - dy - 1) <= q).
    { rewrite Hq. apply Z.div_le_lower_bound; [lia |].
      assert (2 ^ (dx - 1 + s) <= m')
        by (rewrite Hm', Z.pow_add_r by lia; nia).
      assert (2 ^ dy * 2 ^ (dx + s - dy - 1) = 2 ^ (dx - 1 + s))
        by (rewrite <- Z.pow_add_r by lia; f_equal; lia).
      assert (0 < 2 ^ (dx + s - dy - 1)) by (apply Z.pow_pos_nonneg; lia).
      nia. }
    pose proof (Zdigits2_ge_pow q (dx + s - dy - 1) ltac:(lia) ltac:(lia)).
    lia. }
  split; [exact Hq0 |]. split.
  - assert (fexp64 (dx + ex - (dy + ey)) <= fexp64 (Zdigits2 q + e')).
    { rewrite !fexp64_eq. unfold s in Hlow. lia. }
    unfold e' at 1. lia.
  - destruct Hup as [Hz | [Hu Hlt]]; [left; exact Hz | right].
    pose proof (Zdigits2_lt_pow q _ Hq0 Hu Hlt). unfold s in *. lia.
Qed.

Lemma fdiv_shape (sx sy : bool) (mx my : positive) (ex ey : Z) :
  exists k,
    k <= Z.max (Zdigits2 (Zpos mx) + ex - (Zdigits2 (Zpos my) + ey) + 1)
               (- 1074)
    /\ rounded (xorb sx sy) k
         (fdiv (S754_finite sx mx ex) (S754_finite sy my ey)).
Proof.
  unfold fdiv, SFdiv.
  pose proof (div_core_spec mx my ex ey) as H.
  destruct (SFdiv_core_binary prec emax (Zpos mx) ex (Zpos my) ey)
    as [[q e'] l].
  cbv zeta in H. destruct H as (Hq0 & Hpre & Hmag).
  exists (Zdigits2 q + e'). split.
  - destruct Hmag as [-> | Hmag]; [| lia].
    cbn [Zdigits2] in *. rewrite fexp64_eq in Hpre. lia.
  - apply round64_shape; assumption.
Qed.

Lemma fdiv_fin (k j : Z) (x y : float) :
  k - j <= 1022 -> fin k x -> pos_ge j y ->
  fin (Z.max (k - j + 1) (-1074) + 1) (fdiv x y).
Proof.
  intros Hk Hx Hy.
  destruct y as [sy | sy | | sy my ey]; try contradiction.
  destruct sy; [contradiction |]. destruct Hy as [_ Hy].
  destruct x as [sx | sx | | sx mx ex]; try contradiction; [exact I |].
  destruct Hx as [_ Hx].
  destruct (fdiv_shape sx false mx my ex ey) as (k' & Hk' & Hr).
  apply rounded_fin in Hr; [| lia].
  eapply fin_weaken; [exact Hr | lia].
Qed.

Lemma fdiv_nonneg (k j : Z) (x y : float) :
  k - j <= 1022 -> fin k x -> pos_ge j y -> nonneg x -> nonneg (fdiv x y).
Proof.
  intros Hk Hx Hy Nx.
  destruct y as [sy | sy | | sy my ey]; try contradiction.
  destruct sy; [contradiction |]. destruct Hy as [_ Hy].
  destruct x as [sx | sx | | sx mx ex]; try contradiction; [exact I |].
  destruct sx; [contradiction |]. destruct Hx as [_ Hx].
  destruct (fdiv_shape false false mx my ex ey) as (k' & Hk' & Hr).
  apply rounded_nonneg in Hr; [exact Hr | lia].
Qed.

(** ** Chromagram energies through [np.mean] *)

Lemma bounded64_mag (m : positive) (e : Z) :
  bounded64 m e = true ->
  -1074 <= e <= 971 /\ Zdigits2 (Zpos m) <= 53
  /\ (Zdigits2 (Zpos m) = 53 \/ e = -1074).
Proof.
  intros H. apply bounded64_elim in H as [Hc He]. rewrite fexp64_eq in Hc.
  lia.
Qed.

Lemma energy_fin (x : float) : energy x <-> fin 1024 x /\ nonneg x.
Proof.
  destruct x as [s | s | | [] m e]; cbn [energy fin nonneg]; try tauto.
  split.
  - intros H. pose proof (bounded64_mag m e H). repeat split; [exact H | lia].
  - intros [[H _] _]. exact H.
Qed.

Lemma fin_energy (k : Z) (x : float) : fin k x -> nonneg x -> energy x.
Proof.
  destruct x as [s | s | | [] m e]; cbn [energy fin nonneg]; tauto.
Qed.

Lemma rounded_energy (k : Z) (x : float) :
  rounded false k x -> energy x \/ x = S754_infinity false.
Proof.
  intros [Hz | Hi | m e Hb Hm]; [left; exact I | right; reflexivity |].
  left. exact Hb.
Qed.

Lemma fadd_energy (x y : float) :
  energy x \/ x = S754_infinity false -> energy y ->
  energy (fadd x y) \/ fadd x y = S754_infinity false.
Proof.
  intros [Hx | ->] Hy.
  - destruct x as [sx | sx | | [] mx ex]; try contradiction;
      destruct y as [sy | sy | | [] my ey]; try contradiction.
    + left. destruct sx, sy; exact I.
    + left. exact Hy.
    + left. exact Hx.
    + unfold fadd, SFadd. set (ez := Z.min ex ey).
      rewrite !shl_align_fst by lia. cbn [cond_Zopp].
      assert (0 < 2 ^ (ex - ez)) by (apply Z.pow_pos_nonneg; lia).
      assert (0 < 2 ^ (ey - ez)) by (apply Z.pow_pos_nonneg; lia).
      set (a := Zpos mx * 2 ^ (ex - ez)). set (b := Zpos my * 2 ^ (ey - ez)).
      assert (0 < a + b) by (unfold a, b; nia).
      pose proof (binary_normalize_shape (a + b) ez false ltac:(lia)) as Hr.
      replace (a + b <? 0) with false in Hr
        by (symmetry; apply Z.ltb_ge; lia).
      eapply rounded_energy. exact Hr.
  - right. destruct y as [sy | sy | | [] my ey]; try contradiction;
      reflexivity.
Qed.

Lemma fadd_energy_inf (x y : float) :
  energy x \/ x = finf -> energy y \/ y = finf ->
  energy (fadd x y) \/ fadd x y = finf.
Proof.
  intros Hx [Hy | ->]; [now apply fadd_energy |].
  right. destruct Hx as [Hx | ->]; [| reflexivity].
  destruct x as [s | s | | s m e]; cbn in Hx; try tauto; reflexivity.
Qed.

(** ** Sums in any order

    What holds of every way of adding up the elements of an array. *)
Lemma adds_up_closed (P : float -> Prop) :
  (forall s, P (S754_zero s)) ->
  (forall x y, P x -> P y -> P (fadd x y)) ->
  forall a s, adds_up a s -> Forall P a -> P s.
Proof.
  intros Hz Hadd a s Hs.
  induction Hs as [s | x | a1 a2 s1 s2 _ IH1 _ IH2 | a a' s Hp _ IH];
    intros Ha.
  - apply Hz.
  - now inversion Ha.
  - apply Forall_app in Ha as [H1 H2]. apply Hadd; auto.
  - apply IH. apply (Permutation_Forall (Permutation_sym Hp)). exact Ha.
Qed.

Lemma adds_up_absorbing (Q : float -> Prop) :
  (forall x y, Q x \/ Q y -> Q (fadd x y)) ->
  forall a s, adds_up a s -> Exists Q a -> Q s.
Proof.
  intros Hadd a s Hs.
  induction Hs as [s | x | a1 a2 s1 s2 _ IH1 _ IH2 | a a' s Hp _ IH];
    intros Ha.
  - inversion Ha.
  - inversion Ha as [? ? Hx | ? ? Hx]; [exact Hx | inversion Hx].
  - apply Exists_app in Ha as [H1 | H2]; apply Hadd; auto.
  - apply IH. apply Exists_exists in Ha as (x & Hin & Hx).
    apply Exists_exists. exists x. split; [| exact Hx].
    apply (Permutation_in x (Permutation_sym Hp)). exact Hin.
Qed.

Lemma adds_up_nil (a : list float) (s : float) :
  adds_up a s -> a = [] -> exists z, s = S754_zero z.
Proof.
  induction 1 as [z | x | a1 a2 s1 s2 _ IH1 _ IH2 | a a' s Hp _ IH];
    intros Ha.
  - now exists z.
  - discriminate Ha.
  - apply app_eq_nil in Ha as [-> ->].
    destruct (IH1 eq_refl) as [z1 ->], (IH2 eq_refl) as [z2 ->].
    destruct z1, z2; eexists; reflexivity.
  - subst a'. apply IH. apply Permutation_nil. now symmetry.
Qed.

Lemma np_mean_nil (r : reduction) : np_mean r [] = S754_nan.
Proof.
  unfold np_mean.
  destruct (adds_up_nil [] _ (np_sum_adds_up r []) eq_refl) as [z ->].
  reflexivity.
Qed.

Lemma adds_up_energy (a : list float) (s : float) :
  adds_up a s -> Forall (fun x => energy x \/ x = finf) a ->
  energy s \/ s = finf.
Proof.
  apply (adds_up_closed (fun x => energy x \/ x = finf)).
  - intros z. left. exact I.
  - intros x y. apply fadd_energy_inf.
Qed.

Lemma np_sum_energy (r : reduction) (row : list float) :
  Forall energy row ->
  energy (np_sum r row) \/ np_sum r row = S754_infinity false.
Proof.
  intros Hrow. apply (adds_up_energy row); [apply np_sum_adds_up |].
  revert Hrow. apply Forall_impl. intros x Hx. now left.
Qed.

Lemma Z2F_pos (p : positive) :
  exists m e, Z2F (Zpos p) = S754_finite false m e
  \/ Z2F (Zpos p) = S754_infinity false.
Proof.
  pose proof (binary_normalize_shape (Zpos p) 0 false ltac:(lia)) as Hr.
  change (binary_normalize prec emax (Zpos p) 0 false) with (Z2F (Zpos p))
    in Hr.
  change (Zpos p <? 0) with false in Hr.
  assert (1 <= Zdigits2 (Zpos p)) by (cbn; lia).
  destruct Hr as [Hz | Hi | m e Hb Hm]; [lia | |].
  - exists 1%positive, 0. right. reflexivity.
  - exists m, e. left. reflexivity.
Qed.

Lemma np_mean_energy (r : reduction) (row : list float) :
  Forall energy row -> is_finite (np_mean r row) = true ->
  energy (np_mean r row).
Proof.
  intros Hrow Hfin.
  destruct row as [| x row'] eqn:Erow.
  - rewrite np_mean_nil in Hfin. discriminate Hfin.
  - unfold np_mean in *. rewrite <- Erow in *.
    assert (Hn : exists p, Z.of_nat (List.length row) = Zpos p).
    { rewrite Erow. cbn [List.length]. rewrite Nat2Z.inj_succ.
      destruct (Z.of_nat (List.length row')) eqn:E; try lia.
      - exists 1%positive. reflexivity.
      - exists (Pos.succ p). lia. }
    destruct Hn as [p Hp]. rewrite Hp in *.
    destruct (Z2F_pos p) as (m & e & [Hd | Hd]); rewrite Hd in *.
    + destruct (np_sum_energy r row Hrow) as [Hs | Hs].
      * destruct (np_sum r row) as [s | s | | [] ms es]; try contradiction.
        -- exact I.
        -- destruct (fdiv_shape false false ms m es e) as (k & _ & Hr).
           apply rounded_energy in Hr. destruct Hr as [Hr | Hr]; [exact Hr |].
           rewrite Hr in Hfin. discriminate Hfin.
      * rewrite Hs in Hfin. discriminate Hfin.
    + destruct (np_sum_energy r row Hrow) as [Hs | Hs].
      * destruct (np_sum r row) as [s | s | | [] ms es]; try contradiction;
          exact I.
      * rewrite Hs in Hfin. discriminate Hfin.
Qed.

(** ** Comparisons and magnitudes *)

Lemma compare_cont_Eq (m n : positive) :
  Pos.compare_cont Eq m n = Pos.compare m n.
Proof. reflexivity. Qed.

Lemma flt_energy_mag (a b : float) :
  energy a -> energy b ->
  if flt a b then magf a <= magf b else magf b <= magf a.
Proof.
  intros Ha Hb.
  destruct a as [sa | sa | | [] ma ea]; try contradiction;
    destruct b as [sb | sb | | [] mb eb]; try contradiction;
    cbn [energy] in Ha, Hb;
    repeat match goal with
      | H : bounded64 ?m ?e = true |- _ =>
          let H' := fresh in
          pose proof (bounded64_mag m e H) as H'; clear H
      end.
  - cbn. lia.
  - cbn [flt SFltb SFcompare magf].
    assert (1 <= Zdigits2 (Zpos mb)) by (cbn; lia). lia.
  - cbn [flt SFltb SFcompare magf].
    assert (1 <= Zdigits2 (Zpos ma)) by (cbn; lia). lia.
  - assert (1 <= Zdigits2 (Zpos ma)) by (cbn; lia).
    assert (1 <= Zdigits2 (Zpos mb)) by (cbn; lia).
    unfold flt, SFltb, SFcompare. cbn [magf].
    destruct (Z.compare_spec ea eb) as [He | He | He]; [| lia | lia].
    subst eb. rewrite compare_cont_Eq.
    destruct (Pos.compare_spec ma mb) as [Hm | Hm | Hm].
    + subst mb. lia.
    + pose proof (Zdigits2_mono (Zpos ma) (Zpos mb) ltac:(lia)). lia.
    + pose proof (Zdigits2_mono (Zpos mb) (Zpos ma) ltac:(lia)). lia.
Qed.

Lemma energy_not_nan (x : float) : energy x -> is_nan x = false.
Proof. destruct x as [| | | [] m e]; cbn; tauto || reflexivity. Qed.

Lemma np_maximum_energy (a b : float) :
  energy a -> energy b ->
  energy (np_maximum a b)
  /\ magf a <= magf (np_maximum a b) /\ magf b <= magf (np_maximum a b).
Proof.
  intros Ha Hb. unfold np_maximum.
  rewrite (energy_not_nan a Ha), (energy_not_nan b Hb).
  pose proof (flt_energy_mag a b Ha Hb) as H.
  destruct (flt a b); repeat split; assumption || lia.
Qed.

Lemma fold_np_maximum_energy (l : list float) :
  Forall energy l -> forall acc, energy acc ->
  energy (fold_left np_maximum l acc)
  /\ magf acc <= magf (fold_left np_maximum l acc)
  /\ Forall (fun x => magf x <= magf (fold_left np_maximum l acc)) l.
Proof.
  induction 1 as [| x l Hx _ IH]; intros acc Hacc; cbn [fold_left].
  - repeat split; [exact Hacc | lia | constructor].
  - destruct (np_maximum_energy acc x Hacc Hx) as (He & H1 & H2).
    destruct (IH _ He) as (He' & H3 & H4).
    repeat split; [exact He' | lia |].
    constructor; [lia | exact H4].
Qed.

Lemma fin_magf (x : float) : energy x -> forall k, magf x <= k -> fin k x.
Proof.
  destruct x as [| | | [] m e]; cbn [energy fin magf]; try tauto.
Qed.

Lemma fabs_energy (x : float) : energy x -> energy (fabs x) /\ magf (fabs x) = magf x.
Proof. destruct x as [| | | [] m e]; cbn; tauto. Qed.

Lemma flt_tiny (L : float) :
  energy L ->
  if flt L tiny then magf L <= -1022 else pos_ge (-1021) L.
Proof.
  intros HL. destruct L as [s | s | | [] m e]; try contradiction.
  - cbn. lia.
  - cbn [energy] in HL. pose proof (bounded64_mag m e HL) as Hb.
    assert (1 <= Zdigits2 (Zpos m)) by (cbn; lia).
    unfold flt, tiny, SFltb, SFcompare. cbn [magf pos_ge].
    destruct (Z.compare_spec e (-1074)) as [He | He | He]; [| lia |].
    + subst e.
      rewrite compare_cont_Eq.
      assert (E52 : Zpos 4503599627370496 = 2 ^ 52) by reflexivity.
      destruct (Pos.compare_spec m 4503599627370496) as [Hm | Hm | Hm].
      * subst m. split; [exact HL |].
        assert (Zdigits2 (Zpos 4503599627370496) = 53) by reflexivity. lia.
      * apply Pos2Z.pos_lt_pos in Hm. rewrite E52 in Hm.
        pose proof (Zdigits2_lt_pow (Zpos m) 52 ltac:(lia) ltac:(lia) Hm).
        lia.
      * apply Pos2Z.pos_lt_pos in Hm. rewrite E52 in Hm.
        split; [exact HL |].
        pose proof (Zdigits2_ge_pow (Zpos m) 52 ltac:(lia) ltac:(lia)).
        lia.
    + split; [exact HL | lia].
Qed.

(** ** The normalised pitch-class vector *)

Lemma energy_is_finite (x : float) : energy x -> is_finite x = true.
Proof. destruct x as [| | | [] m e]; cbn; tauto || reflexivity. Qed.

Lemma forallb_is_finite_energy (S : list float) :
  Forall energy S -> forallb is_finite S = true.
Proof.
  intros H. apply forallb_forall. intros x Hx.
  rewrite Forall_forall in H. apply energy_is_finite. now apply H.
Qed.

Lemma pos_ge_f1 : pos_ge 1 f1.
Proof. split; [reflexivity | cbn; lia]. Qed.

Lemma normalize_energy (S : list float) :
  Forall energy S -> S <> [] ->
  exists v, normalize S = Ok v
            /\ Forall (bounded_energy 2) v.
Proof.
  intros HS Hne. unfold normalize.
  rewrite (forallb_is_finite_energy S HS). cbn [negb].
  destruct S as [| x rest]; [congruence |]. clear Hne.
  cbn [map np_max bind].
  set (L := fold_left np_maximum (map fabs rest) (fabs x)).
  exists (map (fun a => fdiv a (if flt L tiny then f1 else L)) (x :: rest)).
  split; [reflexivity |].
  inversion HS as [| ? ? Hx Hrest]; subst.
  assert (Habs : Forall energy (map fabs rest)).
  { rewrite Forall_map. eapply Forall_impl; [| exact Hrest].
    intros a Ha. apply (fabs_energy a Ha). }
  destruct (fold_np_maximum_energy (map fabs rest) Habs (fabs x)
              (proj1 (fabs_energy x Hx))) as (HL & HxL & HrL).
  fold L in HL, HxL, HrL.
  assert (Hall : Forall (fun a => energy a /\ magf a <= magf L) (x :: rest)).
  { constructor.
    - split; [exact Hx |]. rewrite <- (proj2 (fabs_energy x Hx)). exact HxL.
    - rewrite Forall_map in HrL. rewrite Forall_forall in *.
      intros a Ha. split; [now apply Hrest |].
      rewrite <- (proj2 (fabs_energy a (Hrest a Ha))). now apply HrL. }
  rewrite Forall_map. eapply Forall_impl; [| exact Hall].
  intros a [Ha Hmag]. cbv beta.
  pose proof (flt_tiny L HL) as Ht.
  apply energy_fin in Ha as Ha'. destruct Ha' as [_ Hnn].
  destruct (flt L tiny).
  - assert (Hf : fin (-1022) a) by (apply fin_magf; [exact Ha | lia]).
    split.
    + eapply fin_weaken;
        [apply (fdiv_fin (-1022) 1 a f1); [lia | exact Hf | exact pos_ge_f1]
        | lia].
    + apply (fdiv_nonneg (-1022) 1); [lia | exact Hf | exact pos_ge_f1 | exact Hnn].
  - destruct L as [| | | [] m e]; try contradiction.
    cbn [magf] in Hmag. destruct Ht as [Hb Hlo].
    set (k := Zdigits2 (Zpos m) + e) in *.
    assert (Hp : pos_ge k (S754_finite false m e)) by (split; [exact Hb | unfold k; lia]).
    assert (Hf : fin k a) by (apply fin_magf; [exact Ha | lia]).
    split.
    + eapply fin_weaken; [apply (fdiv_fin k k); [lia | exact Hf | exact Hp] | lia].
    + apply (fdiv_nonneg k k); [lia | exact Hf | exact Hp | exact Hnn].
Qed.

(** ** Correlations with the templates *)

Lemma adds_up_bounded (k : Z) (a : list float) (s : float) :
  adds_up a s -> Forall (bounded_energy k) a -> -1075 <= k ->
  k + 2 * Z.of_nat (List.length a) <= 1024 ->
  bounded_energy (k + 2 * Z.of_nat (List.length a)) s.
Proof.
  induction 1 as [z | x | a1 a2 s1 s2 H1 IH1 H2 IH2 | a a' s Hp _ IH];
    intros Ha Hk Hlen.
  - split; exact I.
  - inversion Ha as [| ? ? [Hx Nx] _]; subst. split; [| exact Nx].
    eapply fin_weaken; [exact Hx | cbn [List.length]; lia].
  - apply Forall_app in Ha as [Ha1 Ha2].
    rewrite length_app, Nat2Z.inj_add in *.
    set (n1 := Z.of_nat (List.length a1)) in *.
    set (n2 := Z.of_nat (List.length a2)) in *.
    assert (0 <= n1 /\ 0 <= n2) as [Hn1 Hn2] by (unfold n1, n2; lia).
    destruct (IH1 Ha1 Hk ltac:(lia)) as [F1 N1].
    destruct (IH2 Ha2 Hk ltac:(lia)) as [F2 N2].
    destruct (Z.eq_dec n1 0) as [E1 | E1].
    { assert (a1 = []) by (destruct a1; [reflexivity | cbn in n1; lia]).
      destruct (adds_up_nil _ _ H1 ltac:(assumption)) as [z ->].
      replace (k + 2 * (n1 + n2)) with (k + 2 * n2) by lia.
      destruct s2 as [z2 | | | [] m e]; try contradiction.
      - destruct z, z2; split; exact I.
      - split; [exact F2 | exact I]. }
    destruct (Z.eq_dec n2 0) as [E2 | E2].
    { assert (a2 = []) by (destruct a2; [reflexivity | cbn in n2; lia]).
      destruct (adds_up_nil _ _ H2 ltac:(assumption)) as [z ->].
      replace (k + 2 * (n1 + n2)) with (k + 2 * n1) by lia.
      destruct s1 as [z1 | | | [] m e]; try contradiction.
      - destruct z, z1; split; exact I.
      - split; [exact F1 | exact I]. }
    set (K := k + 2 * (n1 + n2) - 2).
    assert (F1' : fin K s1) by (eapply fin_weaken; [exact F1 | unfold K; lia]).
    assert (F2' : fin K s2) by (eapply fin_weaken; [exact F2 | unfold K; lia]).
    replace (k + 2 * (n1 + n2)) with (K + 2) by (unfold K; lia).
    split.
    + apply fadd_fin; [unfold K; lia | exact F1' | exact F2'].
    + apply (fadd_nonneg K); [unfold K; lia | assumption ..].
  - rewrite <- (Permutation_length Hp) in *.
    apply IH; [| assumption | assumption].
    apply (Permutation_Forall (Permutation_sym Hp)). exact Ha.
Qed.

Lemma np_roll_length (a : list float) (i : nat) :
  List.length (np_roll a i) = List.length a.
Proof.
  unfold np_roll. destruct (List.length a) as [| n] eqn:E; [exact E |].
  rewrite length_app, length_skipn, length_firstn. lia.
Qed.

Lemma np_roll_In (a : list float) (i : nat) (x : float) :
  In x (np_roll a i) -> In x a.
Proof.
  unfold np_roll. destruct (List.length a) as [| n]; [tauto |].
  intros H. rewrite <- (firstn_skipn (S n - i mod S n) a).
  apply in_or_app. apply in_app_or in H. tauto.
Qed.

Lemma templates_bounded :
  Forall (bounded_energy 1) major_template
  /\ Forall (bounded_energy 1) minor_template.
Proof.
  split; repeat constructor; vm_compute; congruence.
Qed.

Lemma dot_bounded (v t : list float) :
  Forall (bounded_energy 2) v -> Forall (bounded_energy 1) t ->
  List.length t = 12%nat ->
  bounded_energy 28 (dot v t).
Proof.
  intros Hv Ht Hlen. unfold dot.
  set (ps := map (fun p => fmul (fst p) (snd p)) (combine v t)).
  assert (Hps : Forall (bounded_energy 4) ps).
  { unfold ps. rewrite Forall_map. apply Forall_forall.
    intros [a b] Hin. cbn [fst snd].
    rewrite Forall_forall in Hv, Ht.
    destruct (Hv a (in_combine_l _ _ _ _ Hin)) as [Ha Na].
    destruct (Ht b (in_combine_r _ _ _ _ Hin)) as [Hb Nb].
    split.
    - eapply fin_weaken; [apply (fmul_fin 2 1); [lia | exact Ha | exact Hb] | lia].
    - apply (fmul_nonneg 2 1); [lia | exact Ha | exact Hb | exact Na | exact Nb]. }
  assert (Hn : (List.length ps <= 12)%nat).
  { unfold ps. rewrite length_map, length_combine. lia. }
  destruct (adds_up_bounded 4 ps _ (correlate_sum_adds_up ps) Hps
              ltac:(lia) ltac:(lia)) as [Hf Hnn].
  split; [| exact Hnn]. eapply fin_weaken; [exact Hf | lia].
Qed.

Lemma correlations_bounded (template v : list float) :
  Forall (bounded_energy 2) v -> Forall (bounded_energy 1) template ->
  List.length template = 12%nat ->
  Forall (bounded_energy 28) (correlations template v)
  /\ List.length (correlations template v) = 12%nat.
Proof.
  intros Hv Ht Hlen. unfold correlations. split.
  - rewrite Forall_map. apply Forall_forall. intros i _.
    apply dot_bounded; [exact Hv | | now rewrite np_roll_length].
    apply Forall_forall. intros x Hx. apply np_roll_In in Hx.
    rewrite Forall_forall in Ht. now apply Ht.
  - now rewrite length_map, length_seq.
Qed.

(** ** Order on floats *)

Lemma SFcompare_antisym (x y : float) :
  SFcompare y x = option_map CompOpp (SFcompare x y).
Proof.
  destruct x as [sx | sx | | sx mx ex], y as [sy | sy | | sy my ey];
    try reflexivity;
    try (destruct sx; reflexivity); try (destruct sy; reflexivity);
    try (destruct sx, sy; reflexivity).
  unfold SFcompare.
  rewrite (Z.compare_antisym ex ey), !compare_cont_Eq,
    (Pos.compare_antisym mx my).
  destruct sx, sy; try reflexivity;
    destruct (ex ?= ey); cbn; try reflexivity;
    destruct (mx ?= my)%positive; reflexivity.
Qed.

Lemma flt_false_fle (x y : float) :
  is_nan x = false -> is_nan y = false -> flt x y = false -> fle y x = true.
Proof.
  unfold flt, fle, SFltb, SFleb. intros Hx Hy.
  rewrite (SFcompare_antisym x y).
  destruct x, y; try discriminate; cbn;
    repeat match goal with |- context [match ?c with _ => _ end] =>
      destruct c; cbn end; congruence.
Qed.

Lemma clamp_confidence_range (c : float) :
  is_nan c = false ->
  fle f0 (clamp_confidence c) = true /\ fle (clamp_confidence c) f100 = true.
Proof.
  intros Hc. unfold clamp_confidence, py_max.
  change (fgt f0 c) with (flt c f0).
  destruct (flt c f0) eqn:E0.
  - split; reflexivity.
  - assert (H0 : fle f0 c = true) by (apply flt_false_fle; auto).
    unfold py_min. destruct (flt f100 c) eqn:E1.
    + split; reflexivity.
    + split; [exact H0 |]. apply flt_false_fle; auto.
Qed.

(** ** Best and second-best correlations *)

Lemma argmax_from_bound (a : list float) :
  forall i ibest best, (ibest < i)%nat ->
  (argmax_from a i ibest best < i + List.length a)%nat.
Proof.
  induction a as [| x a IH]; intros i ibest best Hi; cbn [argmax_from List.length].
  - lia.
  - destruct (is_nan best); [lia |].
    destruct (is_nan x || flt best x).
    + specialize (IH (S i) i x ltac:(lia)). lia.
    + specialize (IH (S i) ibest best ltac:(lia)). lia.
Qed.

Lemma np_argmax_bound (a : list float) :
  a <> [] ->
  exists idx, np_argmax a = Ok idx /\ (idx < List.length a)%nat.
Proof.
  destruct a as [| x a]; [congruence | intros _].
  eexists. split; [reflexivity |].
  pose proof (argmax_from_bound a 1 0 x ltac:(lia)). cbn [List.length]. lia.
Qed.

Lemma np_maximum_neginf (k : Z) (a b : float) :
  bounded_energy k a \/ a = fneginf ->
  bounded_energy k b \/ b = fneginf ->
  (bounded_energy k (np_maximum a b) \/ np_maximum a b = fneginf)
  /\ (bounded_energy k a \/ bounded_energy k b ->
      bounded_energy k (np_maximum a b)).
Proof.
  intros Ha Hb.
  assert (Hcases : np_maximum a b = a \/ np_maximum a b = b).
  { unfold np_maximum. destruct (is_nan a); [auto |].
    destruct (is_nan b); [auto |]. destruct (flt a b); auto. }
  split; [destruct Hcases as [-> | ->]; assumption |].
  intros Hab.
  destruct Ha as [Ha | ->], Hb as [Hb | ->].
  - destruct Hcases as [-> | ->]; assumption.
  - replace (np_maximum a fneginf) with a; [exact Ha |].
    destruct Ha as [Hf Hn].
    destruct a as [| | | [] m e]; try contradiction; reflexivity.
  - replace (np_maximum fneginf b) with b; [exact Hb |].
    destruct Hb as [Hf Hn].
    destruct b as [| | | [] m e]; try contradiction; reflexivity.
  - destruct Hab as [[[] _] | [[] _]].
Qed.

Lemma fold_np_maximum_neginf (k : Z) (l : list float) :
  Forall (fun x => bounded_energy k x \/ x = fneginf) l ->
  forall acc, bounded_energy k acc \/ acc = fneginf ->
  (bounded_energy k (fold_left np_maximum l acc)
   \/ fold_left np_maximum l acc = fneginf)
  /\ (bounded_energy k acc \/ Exists (bounded_energy k) l ->
      bounded_energy k (fold_left np_maximum l acc)).
Proof.
  induction 1 as [| x l Hx _ IH]; intros acc Hacc; cbn [fold_left].
  - split; [exact Hacc |]. intros [H | H]; [exact H | inversion H].
  - destruct (np_maximum_neginf k acc x Hacc Hx) as [H1 H2].
    destruct (IH _ H1) as [H3 H4].
    split; [exact H3 |]. intros [H | H].
    + apply H4. left. apply H2. left. exact H.
    + inversion H; subst.
      * apply H4. left. apply H2. right. assumption.
      * apply H4. right. assumption.
Qed.

Lemma second_best_bounded (k : Z) (l : list float) (idx : nat) :
  Forall (bounded_energy k) l -> (2 <= List.length l)%nat ->
  exists v, np_max (set_nth l idx fneginf) = Ok v /\ bounded_energy k v.
Proof.
  intros Hl Hlen.
  destruct l as [| c0 [| c1 rest]]; cbn [List.length] in Hlen; try lia.
  inversion Hl as [| ? ? H0 Hl']; subst.
  inversion Hl' as [| ? ? H1 Hrest]; subst.
  assert (Hweak : forall l', Forall (bounded_energy k) l' ->
            forall i, Forall (fun x => bounded_energy k x \/ x = fneginf)
                        (set_nth l' i fneginf)).
  { induction 1 as [| y l' Hy Hl'' IH]; intros i; cbn [set_nth].
    - destruct i; constructor.
    - destruct i; constructor.
      + right. reflexivity.
      + eapply Forall_impl; [| exact Hl'']. auto.
      + left. exact Hy.
      + apply IH. }
  destruct idx as [| j]; cbn [set_nth np_max].
  - eexists. split; [reflexivity |].
    apply (fold_np_maximum_neginf k (c1 :: rest)).
    + eapply Forall_impl; [| exact Hl']. auto.
    + right. reflexivity.
    + right. apply Exists_cons_hd. exact H1.
  - eexists. split; [reflexivity |].
    apply (fold_np_maximum_neginf k (set_nth (c1 :: rest) j fneginf)).
    + apply Hweak. exact Hl'.
    + left. exact H0.
    + left. exact H0.
Qed.

(** ** The confidence blend *)

Lemma constants_fin :
  fin 1 f1 /\ pos_ge 2 f2 /\ fin (-19) f1e_6 /\ pos_ge (-19) f1e_6
  /\ fin (-1) f0_4 /\ fin (-2) f0_2 /\ fin 7 f100.
Proof. vm_compute. intuition congruence. Qed.

Lemma py_max_cases (a b : float) : py_max a b = a \/ py_max a b = b.
Proof. unfold py_max. destruct (fgt b a); auto. Qed.

Lemma blend_fin (best second other : float) :
  bounded_energy 28 best -> bounded_energy 28 second ->
  bounded_energy 28 other ->
  fin 63 (blend best second other).
Proof.
  intros [Hb Nb] [Hs Ns] [Ho No].
  destruct constants_fin as (H1 & H2 & He & Hep & H04 & H02 & H100).
  assert (He28 : fin 28 f1e_6) by (eapply fin_weaken; [exact He | lia]).
  unfold blend.
  (* the absolute term *)
  assert (Habs : fin 30 (fdiv (fadd best f1) f2)).
  { eapply fin_weaken;
      [apply (fdiv_fin 30 2); [lia | | exact H2] | lia].
    apply (fadd_fin 28); [lia | exact Hb |].
    eapply fin_weaken; [exact H1 | lia]. }
  (* the relative term *)
  assert (Hden : forall b, bounded_energy 28 b -> pos_ge (-19) (fadd b f1e_6)).
  { intros b [Hfb Nnb].
    apply (fadd_pos_ge 28); [lia | lia | exact Hfb | exact He28 | exact Nnb
                            | exact Hep]. }
  assert (Hratio : forall a b c, fin 28 a -> fin 28 b -> bounded_energy 28 c ->
            fin 51 (fdiv (fsub a b) (fadd c f1e_6))).
  { intros a b c Ha Hb' Hc.
    eapply fin_weaken;
      [apply (fdiv_fin 30 (-19)); [lia | | apply Hden; exact Hc] | lia].
    apply (fsub_fin 28); [lia | exact Ha | exact Hb']. }
  assert (Hrel := Hratio best second best Hb Hs (conj Hb Nb)).
  assert (Hmode : fin 51 (fdiv (fsub best other)
                            (fadd (py_max best other) f1e_6))).
  { apply Hratio; [exact Hb | exact Ho |].
    destruct (py_max_cases best other) as [-> | ->]; split; assumption. }
  (* the weighted sum *)
  assert (Ht1 : fin 51 (fmul (fdiv (fadd best f1) f2) f0_4)).
  { eapply fin_weaken; [apply (fmul_fin 30 (-1)); [lia | exact Habs | exact H04]
                       | lia]. }
  assert (Ht2 : fin 51 (fmul (fdiv (fsub best second) (fadd best f1e_6)) f0_4)).
  { eapply fin_weaken; [apply (fmul_fin 51 (-1)); [lia | exact Hrel | exact H04]
                       | lia]. }
  assert (Ht3 : fin 53 (fmul (fdiv (fsub best other)
                                (fadd (py_max best other) f1e_6)) f0_2)).
  { eapply fin_weaken; [apply (fmul_fin 51 (-2)); [lia | exact Hmode | exact H02]
                       | lia]. }
  eapply fin_weaken; [apply (fmul_fin 55 7); [lia | | exact H100] | lia].
  apply (fadd_fin 53); [lia | | exact Ht3].
  apply (fadd_fin 51); [lia | exact Ht1 | exact Ht2].
Qed.

Lemma fin_not_nan (k : Z) (x : float) : fin k x -> is_nan x = false.
Proof. destruct x; cbn; tauto || reflexivity. Qed.

(** ** KeyEstimator: labels and range of the confidence *)

Lemma key_label_major (idx : nat) :
  (idx < 12)%nat -> In (nth idx key_names ""%string) code_labels.
Proof.
  intros H. unfold code_labels. apply in_or_app. left.
  apply nth_In. exact H.
Qed.

Lemma key_label_minor (idx : nat) :
  (idx < 12)%nat ->
  In (nth idx key_names "" ++ "m")%string code_labels.
Proof.
  intros H. unfold code_labels. apply in_or_app. right.
  apply in_or_app. left. unfold minor_names.
  apply (in_map (fun name => (name ++ "m")%string)).
  apply nth_In. exact H.
Qed.

Lemma nth_Forall (P : float -> Prop) (l : list float) (i : nat) :
  Forall P l -> (i < List.length l)%nat -> P (nth i l f0).
Proof.
  intros H Hi. rewrite Forall_forall in H. apply H. now apply nth_In.
Qed.

Lemma estimate_key_in_range (chroma : list (list float)) :
  Forall (Forall energy) chroma ->
  In (fst (estimate_key chroma)) code_labels
  /\ fle f0 (snd (estimate_key chroma)) = true
  /\ fle (snd (estimate_key chroma)) f100 = true.
Proof.
  intros Hch.
  assert (Hdefault : In "Unknown"%string code_labels
                     /\ fle f0 f0 = true /\ fle f0 f100 = true).
  { split; [| split; reflexivity].
    unfold code_labels. apply in_or_app. right. apply in_or_app. right.
    left. reflexivity. }
  unfold estimate_key, estimate_key_body.
  destruct (normalize (map (np_mean Axis1) chroma)) as [v | e] eqn:En;
    [| exact Hdefault].
  cbn [bind].
  (* the normalised vector is bounded *)
  assert (Hv : Forall (bounded_energy 2) v).
  { unfold normalize in En.
    destruct (forallb is_finite (map (np_mean Axis1) chroma)) eqn:Efin;
      [| discriminate En].
    assert (Havg : Forall energy (map (np_mean Axis1) chroma)).
    { rewrite forallb_forall in Efin. rewrite Forall_map.
      rewrite Forall_forall in *. intros row Hrow.
      apply np_mean_energy; [now apply Hch |].
      apply Efin. now apply in_map. }
    destruct (map (np_mean Axis1) chroma) as [| a rest] eqn:Eavg;
      [discriminate En |].
    destruct (normalize_energy (a :: rest) Havg ltac:(discriminate))
      as (v' & Hn & Hv').
    unfold normalize in Hn. rewrite Efin in Hn. cbn [negb] in Hn, En.
    rewrite En in Hn. injection Hn as ->. exact Hv'. }
  destruct templates_bounded as [Hmaj Hmin].
  destruct (correlations_bounded major_template v Hv Hmaj eq_refl)
    as [HM HMlen].
  destruct (correlations_bounded minor_template v Hv Hmin eq_refl)
    as [Hm Hmlen].
  set (major_corr := correlations major_template v) in *.
  set (minor_corr := correlations minor_template v) in *.
  destruct (np_argmax_bound major_corr) as (iM & EiM & HiM).
  { intros E. rewrite E in HMlen. discriminate HMlen. }
  destruct (np_argmax_bound minor_corr) as (im & Eim & Him).
  { intros E. rewrite E in Hmlen. discriminate Hmlen. }
  rewrite EiM, Eim. cbn [bind].
  destruct (second_best_bounded 28 major_corr iM HM ltac:(lia))
    as (sM & EsM & HsM).
  destruct (second_best_bounded 28 minor_corr im Hm ltac:(lia))
    as (sm & Esm & Hsm).
  rewrite EsM, Esm. cbn [bind].
  pose proof (nth_Forall _ major_corr iM HM HiM) as HbM.
  pose proof (nth_Forall _ minor_corr im Hm Him) as Hbm.
  destruct (fge (nth iM major_corr f0) (nth im minor_corr f0));
    cbn [catch fst snd].
  - split; [apply key_label_major; lia |].
    apply clamp_confidence_range.
    apply (fin_not_nan 63). apply blend_fin; assumption.
  - split; [apply key_label_minor; lia |].
    apply clamp_confidence_range.
    apply (fin_not_nan 63). apply blend_fin; assumption.
Qed.

(** C4 (as the code has it): for every chromagram, of finite non-negative
    binary64 energies and of any number of frames, the label is one of
    the twelve pitch-class names, one of them followed by "m", or the
    sentinel "Unknown" (capitalised, not "unknown"), and the confidence
    lies in the closed interval from 0 to 100. *)
Theorem estimate_key_label_and_range (chroma : list (list float)) :
  Forall (Forall energy) chroma ->
  In (fst (estimate_key chroma)) code_labels
  /\ fle f0 (snd (estimate_key chroma)) = true
  /\ fle (snd (estimate_key chroma)) f100 = true.
Proof. exact (estimate_key_in_range chroma). Qed.

Lemma one_frame_major_energy : Forall (Forall energy) (one_frame major_template).
Proof. repeat constructor; vm_compute; congruence. Qed.

End Part1.

Lemma estimate_key_label_and_range_witness :
  In (fst (estimate_key (one_frame major_template))) code_labels
  /\ fle f0 (snd (estimate_key (one_frame major_template))) = true
  /\ fle (snd (estimate_key (one_frame major_template))) f100 = true.
Proof.
  apply (estimate_key_label_and_range (one_frame major_template)).
  exact one_frame_major_energy.
Defined.

(** C4 as stated fails on a chromagram with no frame: its label is
    "Unknown", which is not among the twenty-four keys nor "unknown". *)
Lemma estimate_key_label_not_in_spec_labels :
  Forall (Forall energy) (const_chroma f0 0)
  /\ ~ In (fst (estimate_key (const_chroma f0 0))) spec_labels.
Proof.
  split; [repeat constructor |].
  vm_compute. intuition discriminate.
Qed.

Section Part2.

Context {summation : Summation}.

(** ** KeyEstimator: numerical failures *)

Lemma fadd_nan_l (y : float) : fadd S754_nan y = S754_nan.
Proof. reflexivity. Qed.

Lemma fadd_nan_r (x : float) : fadd x S754_nan = S754_nan.
Proof. destruct x; reflexivity. Qed.

Lemma adds_up_nan (a : list float) (s : float) :
  adds_up a s -> In S754_nan a -> s = S754_nan.
Proof.
  intros Hs Hin.
  apply (adds_up_absorbing (fun x => x = S754_nan)) with (a := a);
    [| exact Hs |].
  - intros x y [-> | ->]; [apply fadd_nan_l | apply fadd_nan_r].
  - apply Exists_exists. exists S754_nan. split; [exact Hin | reflexivity].
Qed.

Lemma np_mean_nan (r : reduction) (row : list float) :
  row = [] \/ In S754_nan row -> np_mean r row = S754_nan.
Proof.
  intros [-> | Hin]; [apply np_mean_nil |]. unfold np_mean.
  rewrite (adds_up_nan row _ (np_sum_adds_up r row) Hin). reflexivity.
Qed.

(** C1 (as the code has it): whenever the body of [estimate_key] raises,
    and in particular on a chromagram with a NaN entry, with a row
    without frames or without rows, the result is the sentinel label
    "Unknown" (capitalised) with confidence 0.0; no exception escapes,
    [estimate_key] being total. *)
Theorem estimate_key_numerical_failure :
  (forall chroma e,
     estimate_key_body chroma = Raise e ->
     estimate_key chroma = ("Unknown"%string, f0))
  /\ (forall chroma,
        chroma = [] \/ Exists (fun row => row = [] \/ In S754_nan row) chroma ->
        estimate_key chroma = ("Unknown"%string, f0)).
Proof.
  split.
  - intros chroma e H. unfold estimate_key. rewrite H. reflexivity.
  - intros chroma [-> | Hex]; [reflexivity |].
    unfold estimate_key, estimate_key_body, normalize.
    assert (Hf : forallb is_finite (map (np_mean Axis1) chroma) = false).
    { apply Exists_exists in Hex as (row & Hin & Hrow).
      destruct (forallb is_finite (map (np_mean Axis1) chroma)) eqn:E; [| reflexivity].
      rewrite forallb_forall in E.
      specialize (E (np_mean Axis1 row) (in_map (np_mean Axis1) _ _ Hin)).
      rewrite (np_mean_nan _ row Hrow) in E. discriminate E. }
    rewrite Hf. reflexivity.
Qed.

End Part2.

Lemma estimate_key_numerical_failure_witness :
  estimate_key (const_chroma S754_nan 3) = ("Unknown"%string, f0).
Proof.
  apply (proj2 estimate_key_numerical_failure (const_chroma S754_nan 3)).
  right. apply Exists_cons_hd. right. left. reflexivity.
Defined.

(** C1 as stated fails: on a chromagram holding NaNs the label returned
    is not "unknown". *)
Lemma estimate_key_nan_not_lowercase_unknown :
  estimate_key (const_chroma S754_nan 3) <> ("unknown"%string, f0).
Proof. vm_compute. discriminate. Qed.

Section Part3.

Context {summation : Summation}.

(** ** KeyEstimator: silence *)

Lemma adds_up_zeros (a : list float) (s : float) :
  adds_up a s -> Forall (fun x => x = f0) a ->
  (a = [] /\ exists z, s = S754_zero z) \/ (a <> [] /\ s = f0).
Proof.
  induction 1 as [z | x | a1 a2 s1 s2 _ IH1 _ IH2 | a a' s Hp _ IH];
    intros Ha.
  - left. split; [reflexivity | now exists z].
  - right. inversion Ha; subst. split; [discriminate | reflexivity].
  - apply Forall_app in Ha as [Ha1 Ha2].
    destruct (IH1 Ha1) as [[-> [z1 ->]] | [N1 ->]],
             (IH2 Ha2) as [[-> [z2 ->]] | [N2 ->]].
    + left. split; [reflexivity |]. destruct z1, z2; eexists; reflexivity.
    + right. split; [exact N2 | destruct z1; reflexivity].
    + right. split; [| destruct z2; reflexivity].
      rewrite List.app_nil_r. exact N1.
    + right. split; [| reflexivity].
      intros E. apply app_eq_nil in E as [E _]. contradiction.
  - destruct (IH (Permutation_Forall (Permutation_sym Hp) Ha))
      as [[-> Hz] | [N ->]].
    + left. split; [| exact Hz]. now apply Permutation_nil.
    + right. split; [| reflexivity].
      intros ->. apply N. apply Permutation_nil. now symmetry.
Qed.

Lemma adds_up_all_zero (a : list float) (s : float) :
  adds_up a s -> a <> [] -> Forall (fun x => x = f0) a -> s = f0.
Proof.
  intros Hs Hne Ha.
  destruct (adds_up_zeros a s Hs Ha) as [[E _] | [_ E]]; [contradiction |].
  exact E.
Qed.

Lemma np_mean_zeros (r : reduction) (T : nat) : (1 <= T)%nat -> np_mean r (repeat f0 T) = f0.
Proof.
  intros HT. unfold np_mean. rewrite repeat_length.
  assert (Hs : np_sum r (repeat f0 T) = f0).
  { apply (adds_up_all_zero (repeat f0 T)); [apply np_sum_adds_up | |].
    - destruct T; [lia | discriminate].
    - apply Forall_forall. intros x Hx. now apply repeat_spec in Hx. }
  rewrite Hs.
  destruct (Z.of_nat T) as [| p | p] eqn:E; try lia.
  destruct (Z2F_pos p) as (m & e & [-> | ->]); reflexivity.
Qed.

Lemma normalize_zeros : normalize (repeat f0 12) = Ok (repeat f0 12).
Proof. vm_compute. reflexivity. Qed.

Lemma dot_zeros (template : list float) :
  Forall (fun t => fmul f0 t = f0) template ->
  List.length template = 12%nat ->
  dot (repeat f0 12) template = f0.
Proof.
  intros Ht Hlen. unfold dot.
  apply adds_up_all_zero with
    (a := map (fun p => fmul (fst p) (snd p)) (combine (repeat f0 12) template));
    [apply correlate_sum_adds_up | |].
  - intros E. apply (f_equal (@List.length float)) in E.
    rewrite length_map, length_combine, repeat_length, Hlen in E.
    discriminate E.
  - rewrite Forall_map. apply Forall_forall. intros [a b] Hin. cbn [fst snd].
    pose proof (in_combine_l _ _ _ _ Hin) as Ha. apply repeat_spec in Ha.
    subst a. rewrite Forall_forall in Ht.
    exact (Ht b (in_combine_r _ _ _ _ Hin)).
Qed.

Lemma correlations_zeros (template : list float) :
  Forall (fun t => fmul f0 t = f0) template ->
  List.length template = 12%nat ->
  correlations template (repeat f0 12) = repeat f0 12.
Proof.
  intros Ht Hlen. unfold correlations.
  change (repeat f0 12) with (map (fun _ : nat => f0) (seq 0 12)) at 2.
  apply map_ext_in. intros i _. apply dot_zeros.
  - apply Forall_forall. intros x Hx. apply np_roll_In in Hx.
    rewrite Forall_forall in Ht. now apply Ht.
  - now rewrite np_roll_length.
Qed.

Lemma templates_times_zero :
  Forall (fun t => fmul f0 t = f0) major_template
  /\ Forall (fun t => fmul f0 t = f0) minor_template.
Proof. split; repeat constructor. Qed.

(** C2 (as the code has it): a chromagram of [T >= 1] frames whose
    entries are all zero gives the label "C", the first of the tied
    candidates, and the confidence 20.0 exactly: the absolute term maps
    a correlation of 0 to one half, weighted 0.4; in particular the
    confidence is not a NaN. *)
Theorem estimate_key_all_zero (T : nat) :
  (1 <= T)%nat ->
  estimate_key (const_chroma f0 T) = ("C"%string, f20)
  /\ is_nan (snd (estimate_key (const_chroma f0 T))) = false.
Proof.
  intros HT.
  assert (H : estimate_key (const_chroma f0 T) = ("C"%string, f20)).
  { destruct templates_times_zero as [HM Hm].
    unfold estimate_key, estimate_key_body, const_chroma.
    rewrite map_repeat, (np_mean_zeros _ T HT), normalize_zeros. cbn [bind].
    rewrite (correlations_zeros _ HM eq_refl), (correlations_zeros _ Hm eq_refl).
    vm_compute. reflexivity. }
  rewrite H. split; reflexivity.
Qed.

End Part3.

Lemma estimate_key_all_zero_witness :
  estimate_key (const_chroma f0 4) = ("C"%string, f20)
  /\ is_nan (snd (estimate_key (const_chroma f0 4))) = false.
Proof. apply (estimate_key_all_zero 4). lia. Defined.

(** C2 as stated fails: the confidence of an all-zero chromagram is not
    0.0. *)
Lemma estimate_key_all_zero_confidence_not_zero :
  snd (estimate_key (const_chroma f0 4)) <> f0.
Proof. vm_compute. discriminate. Qed.

Section Part4.

Context {summation : Summation}.


(** ** LoudnessEstimator: the whole-signal fallback *)

Example block_length_examples :
  block_length_of 44100 = Ok 17640 /\ block_length_of 48000 = Ok 19200
  /\ block_length_of 22050 = Ok 8820 /\ block_length_of 8000 = Ok 3200.
Proof. vm_compute. repeat split. Qed.

(** ** LoudnessEstimator: the two gates *)



(** ** The nearest integer to a rational *)

Lemma loc_of_cases (N D : Z) :
  0 < D ->
  let r := N mod D in
  (r = 0 /\ loc_of N D = loc_Exact)
  \/ (0 < r /\ 2 * r < D /\ loc_of N D = loc_Inexact Lt)
  \/ (2 * r = D /\ loc_of N D = loc_Inexact Eq)
  \/ (D < 2 * r /\ r < D /\ loc_of N D = loc_Inexact Gt).
Proof.
  intros HD r. unfold loc_of. fold r.
  pose proof (Z.mod_pos_bound N D HD) as Hr. fold r in Hr.
  destruct (Z.eqb_spec r 0) as [E | E]; [left; auto |].
  right. destruct (Z.compare_spec (2 * r) D); [right; left | left | right; right];
    repeat split; lia.
Qed.

Lemma rne_spec (N D : Z) :
  0 < D ->
  let q := N / D in let r := N mod D in
  (2 * r < D /\ rne N D = q)
  \/ (2 * r = D /\ rne N D = if Z.even q then q else q + 1)
  \/ (D < 2 * r /\ rne N D = q + 1).
Proof.
  intros HD q r. unfold rne. fold q.
  destruct (loc_of_cases N D HD) as [[Hr ->] | [(H0 & Hr & ->) | [[Hr ->] | (Hr & _ & ->)]]];
    fold r in Hr; cbn [round_nearest_even].
  - left. split; [lia | reflexivity].
  - left. split; [lia | reflexivity].
  - right. left. split; [lia | reflexivity].
  - right. right. split; [lia | reflexivity].
Qed.

Lemma rne_near (N D j : Z) :
  0 < D -> Z.abs (rne N D * D - N) <= Z.abs (j * D - N).
Proof.
  intros HD.
  pose proof (Z.div_mod N D ltac:(lia)) as Hdm.
  pose proof (Z.mod_pos_bound N D HD) as Hr.
  destruct (rne_spec N D HD) as [[H ->] | [[H ->] | [H ->]]];
    try destruct (Z.even (N / D));
    destruct (Z_le_gt_dec j (N / D)); nia.
Qed.


Lemma rne_mono (N1 N2 D : Z) :
  0 < D -> N1 <= N2 -> rne N1 D <= rne N2 D.
Proof.
  intros HD HN.
  pose proof (Z.div_mod N1 D ltac:(lia)) as Hdm1.
  pose proof (Z.div_mod N2 D ltac:(lia)) as Hdm2.
  pose proof (Z.mod_pos_bound N1 D HD) as Hr1.
  pose proof (Z.mod_pos_bound N2 D HD) as Hr2.
  pose proof (Z.div_le_mono N1 N2 D HD HN) as Hq.
  destruct (Z.eq_dec (N1 / D) (N2 / D)) as [Eq | Hne].
  - destruct (rne_spec N1 D HD) as [[H1 ->] | [[H1 ->] | [H1 ->]]],
      (rne_spec N2 D HD) as [[H2 ->] | [[H2 ->] | [H2 ->]]];
      rewrite <- ?Eq; try destruct (Z.even (N1 / D)); try lia; nia.
  - destruct (rne_spec N1 D HD) as [[H1 ->] | [[H1 ->] | [H1 ->]]],
      (rne_spec N2 D HD) as [[H2 ->] | [[H2 ->] | [H2 ->]]];
      try destruct (Z.even (N1 / D)); try destruct (Z.even (N2 / D)); lia.
Qed.

Lemma rne_exact (k D : Z) : 0 < D -> rne (k * D) D = k.
Proof.
  intros HD. unfold rne, loc_of.
  rewrite Z.mod_mul, Z.div_mul by lia. reflexivity.
Qed.

Lemma rne_scale (c N D : Z) :
  0 < c -> 0 < D -> rne (c * N) (c * D) = rne N D.
Proof.
  intros Hc HD. unfold rne, loc_of.
  rewrite Z.div_mul_cancel_l, Zmult_mod_distr_l by lia.
  assert (E1 : (c * (N mod D) =? 0) = (N mod D =? 0)).
  { destruct (Z.eqb_spec (N mod D) 0) as [-> | Hne].
    - rewrite Z.mul_0_r. reflexivity.
    - apply Z.eqb_neq. nia. }
  rewrite E1.
  assert (E2 : (2 * (c * (N mod D)) ?= c * D) = (2 * (N mod D) ?= D)).
  { replace (2 * (c * (N mod D))) with (c * (2 * (N mod D))) by ring.
    symmetry. apply Zmult_compare_compat_l. lia. }
  rewrite E2. reflexivity.
Qed.

Lemma rne_bounds (N D a b : Z) :
  0 < D -> a * D <= N -> N <= b * D -> a <= rne N D <= b.
Proof.
  intros HD Ha Hb. split.
  - rewrite <- (rne_exact a D HD). now apply rne_mono.
  - rewrite <- (rne_exact b D HD). now apply rne_mono.
Qed.

(** ** Exact form of the rounding *)

Lemma shr_1_loc (N D : Z) :
  0 <= N -> 0 < D ->
  shr_1 (shr_record_of_loc (N / D) (loc_of N D))
  = shr_record_of_loc (N / (2 * D)) (loc_of N (2 * D)).
Proof.
  intros HN HD.
  pose proof (Z.div_mod N D ltac:(lia)) as Hdm.
  pose proof (Z.mod_pos_bound N D HD) as Hr.
  assert (Hq0 : 0 <= N / D) by (apply Z.div_pos; lia).
  set (q := N / D) in *. set (r := N mod D) in *.
  pose proof (Z.div2_odd q) as Hodd. rewrite Z.div2_div in Hodd.
  assert (Hb : 0 <= Z.b2z (Z.odd q) <= 1) by (destruct (Z.odd q); cbn; lia).
  assert (Hq2 : N / (2 * D) = q / 2).
  { symmetry. apply (Z.div_unique N (2 * D) (q / 2) (Z.b2z (Z.odd q) * D + r));
      [nia | nia]. }
  assert (Hr2 : N mod (2 * D) = Z.b2z (Z.odd q) * D + r).
  { symmetry. apply (Z.mod_unique N (2 * D) (q / 2)); [nia | nia]. }
  assert (Hl : exists rb sb,
             shr_record_of_loc q (loc_of N D) = Build_shr_record q rb sb
             /\ (rb || sb = negb (r =? 0))).
  { unfold loc_of. fold r.
    destruct (Z.eqb_spec r 0) as [E | E].
    - exists false, false. split; reflexivity.
    - destruct (2 * r ?= D); eexists _, _; split; reflexivity. }
  destruct Hl as (rb & sb & -> & Hrs).
  rewrite shr_1_spec by lia. rewrite Hrs, Hq2.
  unfold loc_of. rewrite Hr2.
  destruct (Z.odd q) eqn:Eo; cbn [Z.b2z] in *.
  - destruct (Z.eqb_spec (1 * D + r) 0) as [E | E]; [lia |].
    destruct (Z.eqb_spec r 0) as [E0 | E0]; cbn [negb].
    + replace (2 * (1 * D + r) ?= 2 * D) with Eq
        by (symmetry; apply Z.compare_eq_iff; lia).
      reflexivity.
    + replace (2 * (1 * D + r) ?= 2 * D) with Gt
        by (symmetry; apply Z.compare_gt_iff; lia).
      reflexivity.
  - replace (0 * D + r) with r by lia.
    destruct (Z.eqb_spec r 0) as [E0 | E0]; cbn [negb].
    + reflexivity.
    + replace (2 * r ?= 2 * D) with Lt
        by (symmetry; apply Z.compare_lt_iff; lia).
      reflexivity.
Qed.

Lemma iter_shr_1_loc (p : positive) :
  forall N D, 0 <= N -> 0 < D ->
  SpecFloat.iter_pos shr_1 p (shr_record_of_loc (N / D) (loc_of N D))
  = shr_record_of_loc (N / (D * 2 ^ Zpos p)) (loc_of N (D * 2 ^ Zpos p)).
Proof.
  assert (Hpos : forall q, 0 < 2 ^ Zpos q)
    by (intros; apply Z.pow_pos_nonneg; lia).
  induction p as [p IH | p IH |]; intros N D HN HD;
    cbn [SpecFloat.iter_pos].
  - pose proof (Hpos p). rewrite shr_1_loc, IH, IH by nia.
    replace (2 * D * 2 ^ Zpos p * 2 ^ Zpos p) with (D * 2 ^ Zpos p~1);
      [reflexivity |].
    replace (Zpos p~1) with (1 + Zpos p + Zpos p) by lia.
    rewrite !Z.pow_add_r by lia. ring.
  - pose proof (Hpos p). rewrite IH, IH by nia.
    replace (D * 2 ^ Zpos p * 2 ^ Zpos p) with (D * 2 ^ Zpos p~0);
      [reflexivity |].
    replace (Zpos p~0) with (Zpos p + Zpos p) by lia.
    rewrite !Z.pow_add_r by lia. ring.
  - rewrite shr_1_loc by lia. rewrite (Z.mul_comm 2 D). reflexivity.
Qed.

Lemma shr_fexp_loc (N D e : Z) :
  0 <= N -> 0 < D ->
  let n := Z.max 0 (fexp64 (Zdigits2 (N / D) + e) - e) in
  shr_fexp prec emax (N / D) e (loc_of N D)
  = (shr_record_of_loc (N / (D * 2 ^ n)) (loc_of N (D * 2 ^ n)), e + n).
Proof.
  intros HN HD n. unfold shr_fexp, shr. subst n.
  destruct (fexp64 (Zdigits2 (N / D) + e) - e) as [| p | p] eqn:En.
  - cbn [Z.max]. rewrite Z.mul_1_r, Z.add_0_r. reflexivity.
  - rewrite iter_shr_1_loc by assumption.
    replace (Z.max 0 (Zpos p)) with (Zpos p) by lia. reflexivity.
  - replace (Z.max 0 (Zneg p)) with 0 by lia.
    rewrite Z.mul_1_r, Z.add_0_r. reflexivity.
Qed.

Lemma loc_of_shr_record_of_loc (m : Z) (l : location) :
  loc_of_shr_record (shr_record_of_loc m l) = l.
Proof. destruct l as [| []]; reflexivity. Qed.

Lemma round64_exact (s : bool) (N D ex : Z) :
  0 <= N -> 0 < D -> ex <= fexp64 (Zdigits2 (N / D) + ex) ->
  let E := fexp64 (Zdigits2 (N / D) + ex) in
  round64 s (N / D) ex (loc_of N D) = pack s (rne N (D * 2 ^ (E - ex))) E.
Proof.
  intros HN HD Hpre E. unfold binary_round_aux.
  rewrite shr_fexp_loc by assumption. fold E.
  replace (Z.max 0 (E - ex)) with (E - ex) by lia.
  replace (ex + (E - ex)) with E by lia.
  rewrite shr_record_of_loc_m, loc_of_shr_record_of_loc.
  assert (Hp : 0 < 2 ^ (E - ex)) by (apply Z.pow_pos_nonneg; lia).
  assert (HD' : 0 < D * 2 ^ (E - ex)) by nia.
  fold (rne N (D * 2 ^ (E - ex))).
  set (m1 := rne N (D * 2 ^ (E - ex))).
  (* the rounded mantissa is at most 2^53 *)
  assert (Hq0 : 0 <= N / D) by (apply Z.div_pos; lia).
  assert (Hm' : N / (D * 2 ^ (E - ex)) < 2 ^ 53).
  { rewrite <- Z.div_div by lia. apply div_pow2_lt; try lia.
    unfold E. rewrite fexp64_eq. lia. }
  assert (Hm'0 : 0 <= N / (D * 2 ^ (E - ex))) by (apply Z.div_pos; lia).
  assert (Hm1 : 0 <= m1 <= 2 ^ 53).
  { unfold m1, rne.
    destruct (round_nearest_even_cases (N / (D * 2 ^ (E - ex)))
                (loc_of N (D * 2 ^ (E - ex)))) as [-> | ->]; lia. }
  pose proof (shr_fexp_spec m1 E loc_Exact ltac:(lia)) as [Hm2 He2].
  destruct (shr_fexp prec emax m1 E loc_Exact) as [mrs'' e''].
  cbn [fst snd] in Hm2, He2.
  assert (HEge : -1074 <= E) by (unfold E; rewrite fexp64_eq; lia).
  change (emax - prec) with 971.
  destruct (Z.eq_dec m1 (2 ^ 53)) as [Hcarry | Hnc].
  - assert (Hd1 : Zdigits2 m1 = 54)
      by (rewrite Hcarry; apply (Zdigits2_eq _ 53); lia).
    rewrite Hd1 in Hm2, He2.
    assert (Hn2 : Z.max 0 (fexp64 (54 + E) - E) = 1)
      by (rewrite fexp64_eq; lia).
    rewrite Hn2 in Hm2, He2. rewrite Hcarry in Hm2.
    change (2 ^ 53 / 2 ^ 1) with 4503599627370496 in Hm2.
    rewrite Hm2, He2, Hcarry. reflexivity.
  - assert (Hd1 : Zdigits2 m1 <= 53) by (apply Zdigits2_lt_pow; lia).
    assert (Hn2 : Z.max 0 (fexp64 (Zdigits2 m1 + E) - E) = 0)
      by (rewrite fexp64_eq; lia).
    rewrite Hn2 in Hm2, He2. rewrite Z.div_1_r in Hm2.
    rewrite Z.add_0_r in He2. rewrite Hm2, He2.
    unfold pack. destruct m1 as [| p1 | p1]; [reflexivity | | lia].
    apply Z.eqb_neq in Hnc. rewrite Hnc. reflexivity.
Qed.

(** ** The quotient of two integers, rounded once *)

Lemma new_location_loc (N D : Z) :
  0 < D -> new_location D (N mod D) = loc_of N D.
Proof.
  intros HD. pose proof (Z.mod_pos_bound N D HD) as Hr.
  unfold new_location, new_location_even, new_location_odd, loc_of.
  set (r := N mod D) in *.
  destruct (Z.even D) eqn:Ev; [reflexivity |].
  destruct (Z.eqb_spec r 0); [reflexivity |].
  assert (Hodd : Z.odd D = true) by (rewrite <- Z.negb_even, Ev; reflexivity).
  apply Z.odd_spec in Hodd. destruct Hodd as [k Hk].
  destruct (Z.compare_spec (2 * r + 1) D), (Z.compare_spec (2 * r) D);
    try reflexivity; lia.
Qed.

Lemma pow2_pos (k : Z) : 0 <= k -> 0 < 2 ^ k.
Proof. intros. apply Z.pow_pos_nonneg; lia. Qed.

Lemma pow2_split (a b : Z) : 0 <= a -> 0 <= b -> 2 ^ (a + b) = 2 ^ a * 2 ^ b.
Proof. intros. apply Z.pow_add_r; assumption. Qed.

Lemma int_div_float (n d : positive) :
  exists E m,
    -1074 <= E
    /\ m = rne (Zpos n * 2 ^ 1074) (Zpos d * 2 ^ (E + 1074))
    /\ fdiv (Z2F_raw (Zpos n)) (Z2F_raw (Zpos d)) = pack false m E
    /\ Zpos n * 2 ^ 1074 < 2 ^ 53 * 2 ^ (E + 1074) * Zpos d
    /\ (-1074 < E -> 2 ^ 52 * 2 ^ (E + 1074) * Zpos d <= Zpos n * 2 ^ 1074).
Proof.
  cbn [Z2F_raw]. unfold fdiv, SFdiv.
  pose proof (div_core_spec n d 0 0) as Hcore.
  unfold SFdiv_core_binary in *.
  set (dn := Zdigits2 (Zpos n)) in *. set (dd := Zdigits2 (Zpos d)) in *.
  set (e' := Z.min (fexp64 (dn + 0 - (dd + 0))) (0 - 0)) in *.
  set (s := 0 - 0 - e') in *.
  assert (He' : -1074 <= e' <= 0) by (unfold e'; rewrite fexp64_eq; lia).
  assert (Hs : s = - e') by (unfold s; lia).
  set (m' := match s with
             | 0 => Zpos n
             | Zpos _ => Z.shiftl (Zpos n) s
             | Zneg _ => 0
             end) in *.
  assert (Hm' : m' = Zpos n * 2 ^ s).
  { unfold m'. destruct s as [| p | p] eqn:Es; [lia | | lia].
    now rewrite Z.shiftl_mul_pow2. }
  clearbody m'.
  assert (Hq : fst (Z.div_eucl m' (Zpos d)) = m' / Zpos d) by reflexivity.
  assert (Hr : snd (Z.div_eucl m' (Zpos d)) = m' mod Zpos d) by reflexivity.
  destruct (Z.div_eucl m' (Zpos d)) as [q r]. cbn [fst snd] in Hq, Hr.
  cbv zeta in Hcore. destruct Hcore as (Hq0 & Hpre & _).
  subst q r. cbv beta iota zeta. cbn [xorb].
  rewrite new_location_loc by lia.
  assert (H2s : 0 < 2 ^ s) by (apply pow2_pos; lia).
  rewrite (round64_exact false m' (Zpos d) e') by (try assumption; nia).
  set (q := m' / Zpos d) in *.
  set (E := fexp64 (Zdigits2 q + e')) in *.
  assert (HE : E = Z.max (Zdigits2 q + e' - 53) (-1074)) by reflexivity.
  exists E, (rne m' (Zpos d * 2 ^ (E - e'))).
  assert (HU : 0 < 2 ^ (E + 1074)) by (apply pow2_pos; lia).
  assert (Hc : 0 < 2 ^ (1074 - s)) by (apply pow2_pos; lia).
  assert (HX : Zpos n * 2 ^ 1074 = 2 ^ (1074 - s) * m').
  { rewrite Hm'. replace 1074 with (s + (1074 - s)) at 1 by lia.
    rewrite pow2_split by lia. ring. }
  assert (HDU : Zpos d * 2 ^ (E + 1074)
                = 2 ^ (1074 - s) * (Zpos d * 2 ^ (E - e'))).
  { replace (E + 1074) with ((1074 - s) + (E - e')) by lia.
    rewrite pow2_split by lia. ring. }
  pose proof (Z.div_mod m' (Zpos d) ltac:(lia)) as Hdm. fold q in Hdm.
  pose proof (Z.mod_pos_bound m' (Zpos d) ltac:(lia)) as Hmod.
  pose proof (Zdigits2_nonneg q) as Hdq.
  split; [lia |]. split; [| split; [reflexivity | split]].
  - rewrite HX, HDU. symmetry. apply rne_scale; [lia | nia].
  - (* the quotient is below 2^53 ulps *)
    assert (Hlt : m' < 2 ^ Zdigits2 q * Zpos d).
    { destruct (Z.eq_dec q 0) as [Hz | Hnz].
      - rewrite Hz in *. cbn [Zdigits2]. lia.
      - pose proof (Zdigits2_bounds q ltac:(lia)) as [_ Hhi]. nia. }
    assert (Hle : 2 ^ Zdigits2 q <= 2 ^ (E + 53 - e'))
      by (apply Z.pow_le_mono_r; lia).
    rewrite HX.
    replace (2 ^ 53 * 2 ^ (E + 1074)) with (2 ^ (1074 - s) * 2 ^ (E + 53 - e')).
    + assert (H1 : m' < 2 ^ (E + 53 - e') * Zpos d) by nia.
      rewrite <- Z.mul_assoc. apply Z.mul_lt_mono_pos_l; assumption.
    + rewrite <- !pow2_split by lia. f_equal. lia.
  - intros HEn.
    assert (Hdq' : Zdigits2 q = E + 53 - e') by lia.
    assert (Hqpos : 0 < q).
    { destruct (Z.eq_dec q 0) as [Hz | Hnz]; [| lia].
      rewrite Hz in Hdq'. cbn [Zdigits2] in Hdq'. lia. }
    pose proof (Zdigits2_bounds q Hqpos) as [Hlo _].
    rewrite Hdq' in Hlo. rewrite HX.
    replace (2 ^ 52 * 2 ^ (E + 1074))
      with (2 ^ (1074 - s) * 2 ^ (E + 53 - e' - 1)).
    + assert (H1 : 2 ^ (E + 53 - e' - 1) * Zpos d <= m') by nia.
      rewrite <- Z.mul_assoc. apply Z.mul_le_mono_nonneg_l; [lia | exact H1].
    + rewrite <- !pow2_split by lia. f_equal. lia.
Qed.

Lemma pack_mantissa (n d : positive) (E : Z) :
  -1074 <= E ->
  Zpos n * 2 ^ 1074 < 2 ^ 53 * 2 ^ (E + 1074) * Zpos d ->
  (-1074 < E -> 2 ^ 52 * 2 ^ (E + 1074) * Zpos d <= Zpos n * 2 ^ 1074) ->
  let m := rne (Zpos n * 2 ^ 1074) (Zpos d * 2 ^ (E + 1074)) in
  0 <= m <= 2 ^ 53 /\ (-1074 < E -> 2 ^ 52 <= m).
Proof.
  intros HE Hhi Hlo m.
  assert (HU : 0 < 2 ^ (E + 1074)) by (apply pow2_pos; lia).
  assert (HD : 0 < Zpos d * 2 ^ (E + 1074)) by nia.
  assert (HX : 0 <= Zpos n * 2 ^ 1074) by (pose proof (pow2_pos 1074); lia).
  split.
  - apply rne_bounds; [exact HD | lia | ].
    replace (2 ^ 53 * (Zpos d * 2 ^ (E + 1074)))
      with (2 ^ 53 * 2 ^ (E + 1074) * Zpos d) by ring. lia.
  - intros HEn. specialize (Hlo HEn).
    apply (rne_bounds _ _ (2 ^ 52) (2 ^ 53) HD).
    + replace (2 ^ 52 * (Zpos d * 2 ^ (E + 1074)))
        with (2 ^ 52 * 2 ^ (E + 1074) * Zpos d) by ring. exact Hlo.
    + replace (2 ^ 53 * (Zpos d * 2 ^ (E + 1074)))
        with (2 ^ 53 * 2 ^ (E + 1074) * Zpos d) by ring. lia.
Qed.

Lemma pack_value (m E : Z) :
  0 <= m <= 2 ^ 53 -> -1074 <= E <= 970 -> (-1074 < E -> 2 ^ 52 <= m) ->
  energy (pack false m E) /\ scaled (pack false m E) = m * 2 ^ (E + 1074).
Proof.
  intros Hm HE Hnorm. unfold pack.
  assert (HU : 0 < 2 ^ (E + 1074)) by (apply pow2_pos; lia).
  destruct m as [| p | p]; [split; [exact I | reflexivity] | | lia].
  destruct (Z.eqb_spec (Zpos p) (2 ^ 53)) as [Hc | Hnc].
  - destruct (Z.leb_spec (E + 1) 971); [| lia]. split.
    + apply bounded64_intro; [| lia].
      change (Zdigits2 (Zpos 4503599627370496)) with 53.
      rewrite fexp64_eq. lia.
    + cbn [scaled]. rewrite Hc.
      replace (E + 1 + 1074) with (1 + (E + 1074)) by lia.
      rewrite pow2_split by lia.
      change (Zpos 4503599627370496) with (2 ^ 52).
      change (2 ^ 53) with (2 ^ 52 * 2 ^ 1). ring.
  - destruct (Z.leb_spec E 971); [| lia]. split; [| reflexivity].
    apply bounded64_intro; [| lia].
    assert (Hd : Zdigits2 (Zpos p) <= 53)
      by (apply Zdigits2_lt_pow; lia).
    rewrite fexp64_eq.
    destruct (Z.eq_dec E (-1074)) as [-> | Hne]; [lia |].
    pose proof (Zdigits2_ge_pow (Zpos p) 52 ltac:(lia) ltac:(lia)). lia.
Qed.

Lemma int_div_exponent (n d : positive) (E : Z) :
  Zpos n < 2 ^ 63 -> -1074 <= E ->
  (-1074 < E -> 2 ^ 52 * 2 ^ (E + 1074) * Zpos d <= Zpos n * 2 ^ 1074) ->
  E <= 970.
Proof.
  intros Hn HE Hlo.
  destruct (Z.le_gt_cases E 970) as [| Hgt]; [assumption | exfalso].
  specialize (Hlo ltac:(lia)).
  assert (H1 : 2 ^ 63 * 2 ^ 1074 <= 2 ^ 52 * 2 ^ (E + 1074))
    by (rewrite <- !pow2_split by lia; apply Z.pow_le_mono_r; lia).
  pose proof (pow2_pos 1074 ltac:(lia)).
  pose proof (pow2_pos (E + 1074) ltac:(lia)).
  assert (2 ^ 52 * 2 ^ (E + 1074) <= 2 ^ 52 * 2 ^ (E + 1074) * Zpos d) by nia.
  assert (Zpos n * 2 ^ 1074 < 2 ^ 63 * 2 ^ 1074) by nia.
  lia.
Qed.

(** The float Python's [n / d] evaluates to, for positive integers below
    [2^63]: a non-negative binary64 number whose value is a nearest
    multiple of its unit in the last place. *)
Lemma int_div_float_value (n d : positive) :
  Zpos n < 2 ^ 63 ->
  let q := fdiv (Z2F_raw (Zpos n)) (Z2F_raw (Zpos d)) in
  exists E,
    -1074 <= E <= 970
    /\ energy q
    /\ scaled q = rne (Zpos n * 2 ^ 1074) (Zpos d * 2 ^ (E + 1074))
                  * 2 ^ (E + 1074)
    /\ Zpos n * 2 ^ 1074 < 2 ^ 53 * 2 ^ (E + 1074) * Zpos d
    /\ (-1074 < E -> 2 ^ 52 * 2 ^ (E + 1074) * Zpos d <= Zpos n * 2 ^ 1074).
Proof.
  intros Hn q.
  destruct (int_div_float n d) as (E & m & HE & Hm & Hq & Hhi & Hlo).
  pose proof (int_div_exponent n d E Hn HE Hlo) as HE'.
  destruct (pack_mantissa n d E HE Hhi Hlo) as [Hm1 Hm2]. rewrite <- Hm in *.
  destruct (pack_value m E Hm1 ltac:(lia) Hm2) as [Hen Hsc].
  exists E. unfold q. rewrite Hq.
  repeat split; try assumption; lia.
Qed.

Lemma int_div_float_mono (n1 n2 d : positive) :
  (n1 <= n2)%positive -> Zpos n2 < 2 ^ 63 ->
  scaled (fdiv (Z2F_raw (Zpos n1)) (Z2F_raw (Zpos d)))
  <= scaled (fdiv (Z2F_raw (Zpos n2)) (Z2F_raw (Zpos d))).
Proof.
  intros Hle Hn2. apply Pos2Z.pos_le_pos in Hle.
  destruct (int_div_float_value n1 d ltac:(lia))
    as (E1 & HE1 & _ & -> & Hhi1 & Hlo1).
  destruct (int_div_float_value n2 d Hn2)
    as (E2 & HE2 & _ & -> & Hhi2 & Hlo2).
  destruct (pack_mantissa n1 d E1 ltac:(lia) Hhi1 Hlo1) as [Hm1 Hn1].
  destruct (pack_mantissa n2 d E2 ltac:(lia) Hhi2 Hlo2) as [Hm2 Hn2'].
  cbv zeta in *.
  set (m1 := rne (Zpos n1 * 2 ^ 1074) (Zpos d * 2 ^ (E1 + 1074))) in *.
  set (m2 := rne (Zpos n2 * 2 ^ 1074) (Zpos d * 2 ^ (E2 + 1074))) in *.
  pose proof (pow2_pos 1074 ltac:(lia)) as H1074.
  pose proof (pow2_pos (E1 + 1074) ltac:(lia)) as HU1.
  pose proof (pow2_pos (E2 + 1074) ltac:(lia)) as HU2.
  assert (HX : Zpos n1 * 2 ^ 1074 <= Zpos n2 * 2 ^ 1074) by nia.
  destruct (Z.lt_trichotomy E1 E2) as [Hlt | [Heq | Hgt]].
  - (* a smaller exponent: the results are separated by a power of two *)
    specialize (Hn2' ltac:(lia)).
    assert (Hp : 2 ^ 53 * 2 ^ (E1 + 1074) <= 2 ^ 52 * 2 ^ (E2 + 1074)).
    { rewrite <- !pow2_split by lia. apply Z.pow_le_mono_r; lia. }
    assert (m1 * 2 ^ (E1 + 1074) <= 2 ^ 53 * 2 ^ (E1 + 1074)) by nia.
    assert (2 ^ 52 * 2 ^ (E2 + 1074) <= m2 * 2 ^ (E2 + 1074)) by nia.
    lia.
  - subst E2.
    assert (m1 <= m2) by (apply rne_mono; [nia | exact HX]).
    nia.
  - exfalso. specialize (Hlo1 ltac:(lia)).
    assert (Hp : 2 ^ 53 * 2 ^ (E2 + 1074) <= 2 ^ 52 * 2 ^ (E1 + 1074)).
    { rewrite <- !pow2_split by lia. apply Z.pow_le_mono_r; lia. }
    assert (2 ^ 53 * 2 ^ (E2 + 1074) * Zpos d
            <= 2 ^ 52 * 2 ^ (E1 + 1074) * Zpos d) by nia.
    lia.
Qed.

(** ** Rounding a float to an integer, through its scaled value *)

Lemma round_half_even_rne (m k : Z) :
  0 < k -> round_half_even m k = rne m (2 ^ k).
Proof.
  intros Hk. unfold round_half_even.
  destruct (rne_spec m (2 ^ k) (pow2_pos k ltac:(lia)))
    as [[H ->] | [[H ->] | [H ->]]].
  - apply Z.compare_lt_iff in H. rewrite H. reflexivity.
  - apply Z.compare_eq_iff in H. rewrite H. reflexivity.
  - apply Z.compare_gt_iff in H. rewrite H. reflexivity.
Qed.

Lemma round_mag_scaled (m : positive) (e : Z) :
  -1074 <= e ->
  round_mag m e = rne (scaled (S754_finite false m e)) (2 ^ 1074).
Proof.
  intros He. cbn [scaled]. unfold round_mag.
  pose proof (pow2_pos 1074 ltac:(lia)) as H1074.
  destruct e as [| p | p].
  - replace (Zpos m * 2 ^ (0 + 1074)) with (Zpos m * 2 ^ 0 * 2 ^ 1074)
      by (cbn [Z.add]; ring).
    now rewrite rne_exact.
  - rewrite pow2_split by lia. rewrite Z.mul_assoc. now rewrite rne_exact.
  - rewrite round_half_even_rne by lia.
    pose proof (pow2_pos (Zneg p + 1074) ltac:(lia)).
    rewrite <- (rne_scale (2 ^ (Zneg p + 1074))) by (try lia; apply pow2_pos; lia).
    f_equal; [ring |].
    rewrite <- pow2_split by lia. f_equal. lia.
Qed.

Lemma format_duration_energy (x : float) :
  energy x ->
  let t := rne (scaled x) (2 ^ 1074) in
  0 <= t
  /\ format_duration (PyFloat x) = mmss (t / 60) (t mod 60)
  /\ denoted_seconds (format_duration (PyFloat x)) = Some t.
Proof.
  intros Hx t.
  assert (Ht : 0 <= t /\ format_duration (PyFloat x) = mmss (t / 60) (t mod 60)).
  { destruct x as [s | s | | [] m e]; try contradiction.
    - split; [| reflexivity].
      unfold t. cbn [scaled].
      rewrite (rne_exact 0 (2 ^ 1074) (pow2_pos 1074 ltac:(lia)) : rne 0 _ = 0).
      lia.
    - cbn [energy] in Hx. pose proof (bounded64_mag m e Hx) as [He _].
      unfold t. rewrite <- round_mag_scaled by lia.
      split; [apply round_mag_nonneg | apply format_duration_finite]. }
  destruct Ht as [Ht0 Hf]. split; [exact Ht0 |]. split; [exact Hf |].
  rewrite Hf. now apply denoted_seconds_mmss.
Qed.

(** ** DurationUtility: [get_duration] *)

Lemma energy_flt_f0 (x : float) : energy x -> flt x f0 = false.
Proof. destruct x as [| | | [] m e]; cbn; tauto || reflexivity. Qed.

Lemma int_truediv_energy (a b : Z) :
  b <> 0 -> energy (fdiv (Z2F_raw a) (Z2F_raw b)) ->
  int_truediv a b = Ok (fdiv (Z2F_raw a) (Z2F_raw b)).
Proof.
  intros Hb Hq. unfold int_truediv.
  destruct (Z.eqb_spec b 0); [lia |].
  destruct (fdiv (Z2F_raw a) (Z2F_raw b)) as [| | | [] m e];
    try contradiction; reflexivity.
Qed.

Lemma get_duration_value (y : list float) (sr : Z) :
  0 < sr -> Z.of_nat (List.length y) < 2 ^ 63 ->
  get_duration (Some y) sr
  = fdiv (Z2F_raw (Z.of_nat (List.length y))) (Z2F_raw sr)
  /\ energy (get_duration (Some y) sr).
Proof.
  intros Hsr Hn. unfold get_duration, get_duration_body.
  destruct (Z.leb_spec sr 0) as [| _]; [lia |].
  set (n := Z.of_nat (List.length y)) in *.
  assert (Hq : energy (fdiv (Z2F_raw n) (Z2F_raw sr))).
  { destruct sr as [| d | d]; try lia.
    destruct n as [| p | p] eqn:En; [exact I | | lia].
    destruct (int_div_float_value p d Hn) as (E & _ & Hen & _). exact Hen. }
  rewrite (int_truediv_energy n sr ltac:(lia) Hq). cbn [bind].
  rewrite (energy_not_nan _ Hq), (energy_flt_f0 _ Hq). cbn [orb catch].
  split; [reflexivity | exact Hq].
Qed.

Lemma energy_valid (x : float) : energy x -> valid64 x = true.
Proof. destruct x as [| | | [] m e]; cbn; tauto || reflexivity. Qed.

Lemma int_div_float_nearest (n d : positive) (z : float) :
  Zpos n < 2 ^ 63 -> valid64 z = true -> is_finite z = true ->
  let q := fdiv (Z2F_raw (Zpos n)) (Z2F_raw (Zpos d)) in
  Z.abs (scaled q * Zpos d - Zpos n * 2 ^ 1074)
  <= Z.abs (scaled z * Zpos d - Zpos n * 2 ^ 1074).
Proof.
  intros Hn Hv Hf q.
  destruct (int_div_float_value n d Hn) as (E & HE & _ & Hsc & Hhi & Hlo).
  fold q in Hsc. rewrite Hsc.
  pose proof (pow2_pos 1074 ltac:(lia)) as H1074.
  pose proof (pow2_pos (E + 1074) ltac:(lia)) as HU.
  set (X := Zpos n * 2 ^ 1074) in *. set (U := 2 ^ (E + 1074)) in *.
  assert (HD : 0 < Zpos d * U) by nia.
  assert (HX : 0 < X) by (unfold X; nia).
  assert (Hnear : forall j, Z.abs (rne X (Zpos d * U) * U * Zpos d - X)
                            <= Z.abs (j * (Zpos d * U) - X)).
  { intros j. replace (rne X (Zpos d * U) * U * Zpos d)
      with (rne X (Zpos d * U) * (Zpos d * U)) by ring.
    apply rne_near. exact HD. }
  assert (Hneg : forall v, v <= 0 ->
            Z.abs (rne X (Zpos d * U) * U * Zpos d - X)
            <= Z.abs (v * Zpos d - X)).
  { intros v Hv0. specialize (Hnear 0). rewrite Z.mul_0_l in Hnear. nia. }
  destruct z as [sz | sz | | sz mz ez]; try discriminate Hf.
  - apply (Hneg 0). lia.
  - cbn [valid_binary] in Hv. pose proof (bounded64_mag mz ez Hv) as (Hez & Hdz & _).
    pose proof (pow2_pos (ez + 1074) ltac:(lia)) as HUz.
    destruct sz.
    + apply Hneg. cbn [scaled]. nia.
    + cbn [scaled]. destruct (Z.le_gt_cases E ez) as [Hge | Hlt].
      * specialize (Hnear (Zpos mz * 2 ^ (ez - E))).
        replace (Zpos mz * 2 ^ (ez - E) * (Zpos d * U))
          with (Zpos mz * 2 ^ (ez + 1074) * Zpos d) in Hnear; [exact Hnear |].
        replace (ez + 1074) with ((ez - E) + (E + 1074)) by lia.
        rewrite pow2_split by lia. fold U. ring.
      * specialize (Hlo ltac:(lia)). specialize (Hnear (2 ^ 52)).
        pose proof (Zdigits2_pos_bounds mz) as [_ Hmz].
        assert (Hmz' : Zpos mz < 2 ^ 53).
        { assert (2 ^ Zdigits2 (Zpos mz) <= 2 ^ 53)
            by (apply Z.pow_le_mono_r; lia). lia. }
        assert (Hp : 2 ^ 53 * 2 ^ (ez + 1074) <= 2 ^ 52 * U).
        { unfold U. rewrite <- !pow2_split by lia.
          apply Z.pow_le_mono_r; lia. }
        assert (Hz : Zpos mz * 2 ^ (ez + 1074) * Zpos d <= 2 ^ 52 * U * Zpos d).
        { apply Z.mul_le_mono_nonneg_r; [lia |].
          apply Z.le_trans with (2 ^ 53 * 2 ^ (ez + 1074)); [| exact Hp].
          apply Z.mul_le_mono_nonneg_r; lia. }
        replace (2 ^ 52 * (Zpos d * U)) with (2 ^ 52 * U * Zpos d) in Hnear
          by ring.
        lia.
Qed.

(** C7: for a sample rate [sr > 0] the duration of a buffer of [n]
    samples is the float Python's [n / sr] evaluates to: a finite,
    non-negative binary64 number that no other binary64 number is closer
    to the rational [n / sr] than (so 441000 samples at 44100 Hz last
    10.0 seconds); the duration is 0.0 whenever [sr <= 0], the buffer is
    missing, or the quotient computed is a NaN or negative. *)
Theorem get_duration_spec :
  (forall y sr,
     0 < sr -> Z.of_nat (List.length y) < 2 ^ 63 ->
     let n := Z.of_nat (List.length y) in
     let q := get_duration (Some y) sr in
     int_truediv n sr = Ok q
     /\ valid64 q = true /\ is_finite q = true /\ flt q f0 = false
     /\ forall z, valid64 z = true -> is_finite z = true ->
                  Z.abs (scaled q * sr - n * 2 ^ 1074)
                  <= Z.abs (scaled z * sr - n * 2 ^ 1074))
  /\ (forall y sr, sr <= 0 -> get_duration y sr = f0)
  /\ (forall sr, get_duration None sr = f0)
  /\ (forall y sr q,
        int_truediv (Z.of_nat (List.length y)) sr = Ok q ->
        is_nan q = true \/ flt q f0 = true ->
        get_duration (Some y) sr = f0)
  /\ get_duration (Some (repeat f0 441000)) 44100 = f10.
Proof.
  split; [| split; [| split; [| split]]].
  - intros y sr Hsr Hn n q.
    destruct (get_duration_value y sr Hsr Hn) as [Hq Hen]. fold q n in Hq, Hen.
    assert (Hn' : n < 2 ^ 63) by exact Hn.
    assert (Hn0 : 0 <= n) by (unfold n; lia).
    clearbody n q. clear Hn.
    split; [| split; [| split; [| split]]].
    + rewrite Hq. apply int_truediv_energy; [lia |]. rewrite <- Hq. exact Hen.
    + now apply energy_valid.
    + now apply energy_is_finite.
    + now apply energy_flt_f0.
    + intros z Hv Hf. rewrite Hq.
      destruct sr as [| d | d]; try lia.
      destruct n as [| p | p]; [| | lia].
      * cbn [Z2F_raw]. change (fdiv (S754_zero false) (S754_finite false d 0))
          with (S754_zero false). cbn [scaled].
        rewrite !Z.mul_0_l. lia.
      * apply int_div_float_nearest; assumption.
  - intros y sr Hsr. unfold get_duration, get_duration_body.
    destruct y; [| reflexivity].
    destruct (Z.leb_spec sr 0); [reflexivity | lia].
  - reflexivity.
  - intros y sr q Hq Hbad. unfold get_duration, get_duration_body.
    destruct (sr <=? 0); [reflexivity |].
    rewrite Hq. cbn [bind].
    destruct Hbad as [-> | ->]; [reflexivity | now rewrite orb_true_r].
  - vm_compute. reflexivity.
Qed.

Lemma get_duration_spec_witness :
  int_truediv 3 8 = Ok (get_duration (Some [f0; f1; f0]) 8)
  /\ valid64 (get_duration (Some [f0; f1; f0]) 8) = true
  /\ is_finite (get_duration (Some [f0; f1; f0]) 8) = true
  /\ flt (get_duration (Some [f0; f1; f0]) 8) f0 = false
  /\ forall z, valid64 z = true -> is_finite z = true ->
       Z.abs (scaled (get_duration (Some [f0; f1; f0]) 8) * 8 - 3 * 2 ^ 1074)
       <= Z.abs (scaled z * 8 - 3 * 2 ^ 1074).
Proof.
  apply (proj1 get_duration_spec [f0; f1; f0] 8); [lia | cbn; lia].
Defined.

(** C9: for a fixed sample rate [sr > 0], the time the formatted
    duration denotes does not decrease when the number of samples
    grows. *)
Theorem format_duration_monotone (sr : Z) (y1 y2 : list float) :
  0 < sr ->
  (List.length y1 <= List.length y2)%nat ->
  Z.of_nat (List.length y2) < 2 ^ 63 ->
  exists t1 t2,
    denoted_seconds (format_duration (PyFloat (get_duration (Some y1) sr)))
    = Some t1
    /\ denoted_seconds (format_duration (PyFloat (get_duration (Some y2) sr)))
       = Some t2
    /\ t1 <= t2.
Proof.
  intros Hsr Hlen Hn2.
  assert (Hn1 : Z.of_nat (List.length y1) < 2 ^ 63) by lia.
  destruct (get_duration_value y1 sr Hsr Hn1) as [Hq1 He1].
  destruct (get_duration_value y2 sr Hsr Hn2) as [Hq2 He2].
  destruct (format_duration_energy _ He1) as (_ & _ & Hd1).
  destruct (format_duration_energy _ He2) as (_ & _ & Hd2).
  eexists _, _. split; [exact Hd1 |]. split; [exact Hd2 |].
  apply rne_mono; [apply pow2_pos; lia |].
  rewrite Hq1, Hq2.
  destruct sr as [| d | d]; try lia.
  destruct (Z.of_nat (List.length y1)) as [| p1 | p1] eqn:E1; try lia;
    destruct (Z.of_nat (List.length y2)) as [| p2 | p2] eqn:E2; try lia.
  - change (fdiv (Z2F_raw 0) (Z2F_raw (Zpos d))) with (S754_zero false).
    cbn [scaled].
    destruct (int_div_float_value p2 d Hn2) as (E & HE & _ & -> & Hhi & Hlo).
    destruct (pack_mantissa p2 d E ltac:(lia) Hhi Hlo) as [Hm _].
    pose proof (pow2_pos (E + 1074) ltac:(lia)). cbv zeta in Hm. nia.
  - apply int_div_float_mono; [lia | exact Hn2].
Qed.

Lemma format_duration_monotone_witness :
  exists t1 t2,
    denoted_seconds
      (format_duration (PyFloat (get_duration (Some [f0; f0; f0]) 2)))
    = Some t1
    /\ denoted_seconds
         (format_duration (PyFloat (get_duration (Some [f0; f0; f0; f0; f0]) 2)))
       = Some t2
    /\ t1 <= t2.
Proof.
  apply (format_duration_monotone 2 [f0; f0; f0] [f0; f0; f0; f0; f0]);
    [lia | cbn; lia | cbn; lia].
Defined.

(** ** The loudness estimate stays in range *)

Lemma sqrt_digits (n q r : Z) :
  0 < n -> n = q * q + r -> 0 <= r <= 2 * q -> 0 <= q ->
  Zdigits2 q = (Zdigits2 n + 1) / 2.
Proof.
  intros Hn Heq Hr Hq.
  pose proof (Zdigits2_bounds n Hn) as [Hlo Hhi].
  pose proof (Zdigits2_nonneg n) as Hd0.
  assert (Hd1 : 1 <= Zdigits2 n).
  { destruct n; try lia. cbn. lia. }
  set (h := (Zdigits2 n + 1) / 2).
  assert (Hh : 2 * h - 1 <= Zdigits2 n <= 2 * h).
  { unfold h. pose proof (Z.div_mod (Zdigits2 n + 1) 2 ltac:(lia)).
    pose proof (Z.mod_pos_bound (Zdigits2 n + 1) 2 ltac:(lia)). lia. }
  assert (Hh1 : 1 <= h) by lia.
  assert (Hq0 : 0 < q) by nia.
  replace h with (h - 1 + 1) by lia.
  apply Zdigits2_eq; [lia |].
  replace (h - 1 + 1) with h by lia.
  assert (Hsq : forall a, 0 <= a -> 2 ^ a * 2 ^ a = 2 ^ (2 * a)).
  { intros a Ha. rewrite <- Z.pow_add_r by lia. f_equal. lia. }
  split.
  - (* 2^(h-1) <= q, from 2^(2h-2) <= n < (q+1)^2 *)
    destruct (Z.le_gt_cases (2 ^ (h - 1)) q) as [| Hlt]; [assumption |].
    exfalso.
    assert (q + 1 <= 2 ^ (h - 1)) by lia.
    assert ((q + 1) * (q + 1) <= 2 ^ (h - 1) * 2 ^ (h - 1)).
    { apply Z.mul_le_mono_nonneg; lia. }
    rewrite Hsq in * by lia.
    assert (2 ^ (2 * (h - 1)) <= 2 ^ (Zdigits2 n - 1)).
    { apply Z.pow_le_mono_r; lia. }
    nia.
  - (* q < 2^h, from q^2 <= n < 2^(2h) *)
    destruct (Z.lt_ge_cases q (2 ^ h)) as [| Hge]; [assumption |].
    exfalso.
    assert (2 ^ h * 2 ^ h <= q * q).
    { apply Z.mul_le_mono_nonneg; try lia;
        apply Z.lt_le_incl, pow2_pos; lia. }
    rewrite Hsq in * by lia.
    assert (2 ^ Zdigits2 n <= 2 ^ (2 * h)).
    { apply Z.pow_le_mono_r; lia. }
    nia.
Qed.

Lemma div2_div (a : Z) : Z.div2 a = a / 2.
Proof. rewrite Z.div2_div. reflexivity. Qed.

Lemma fsqrt_bounded (x : float) : energy x -> bounded_energy 513 (fsqrt x).
Proof.
  unfold bounded_energy.
  destruct x as [s | s | | s mx ex]; cbn [energy]; try tauto.
  destruct s; [tauto |]. intros Hb.
  pose proof (bounded64_elim _ _ Hb) as [Hcan He].
  pose proof (bounded64_mag _ _ Hb) as [Hex [Hd53 _]].
  rewrite fexp64_eq in Hcan.
  unfold fsqrt, SFsqrt, SFsqrt_core_binary.
  set (d := Zdigits2 (Zpos mx)) in *.
  rewrite !div2_div.
  set (e' := Z.min (fexp64 ((d + ex + 1) / 2)) (ex / 2)).
  set (s := ex - 2 * e').
  assert (Hd1 : 1 <= d) by (unfold d; cbn; lia).
  assert (He2 : 2 * (ex / 2) <= ex).
  { pose proof (Z.div_mod ex 2 ltac:(lia)).
    pose proof (Z.mod_pos_bound ex 2 ltac:(lia)). lia. }
  assert (Hs : 0 <= s) by (unfold s, e'; lia).
  set (m' := match s with
             | Zpos _ => Z.shiftl (Zpos mx) s
             | Z0 => Zpos mx
             | Zneg _ => 0
             end).
  assert (Hm' : m' = Zpos mx * 2 ^ s).
  { unfold m'. destruct s as [| p | p]; [| | lia].
    - rewrite Z.mul_1_r. reflexivity.
    - rewrite Z.shiftl_mul_pow2 by lia. reflexivity. }
  assert (Hm'0 : 0 < m').
  { rewrite Hm'. apply Z.mul_pos_pos; [lia | apply pow2_pos; lia]. }
  assert (Hdm : Zdigits2 m' = d + s).
  { rewrite Hm'. apply Zdigits2_mul_pow2; lia. }
  pose proof (Z.sqrtrem_spec m' ltac:(lia)) as Hsq.
  destruct (Z.sqrtrem m') as [q r]. destruct Hsq as [Hqr Hr].
  assert (Hq0 : 0 <= q) by nia.
  pose proof (sqrt_digits m' q r Hm'0 Hqr Hr Hq0) as Hdq.
  rewrite Hdm in Hdq.
  assert (Hmag : Zdigits2 q + e' = (d + ex + 1) / 2).
  { rewrite Hdq. unfold s.
    replace (d + (ex - 2 * e') + 1) with (d + ex + 1 + (- e') * 2) by lia.
    rewrite Z.div_add by lia. lia. }
  assert (Hpre : e' <= fexp64 (Zdigits2 q + e')).
  { rewrite Hmag. unfold e'. lia. }
  pose proof (round64_shape false q e'
                (if r =? 0 then loc_Exact
                 else loc_Inexact (if r <=? q then Lt else Gt)) Hq0 Hpre) as Hsh.
  rewrite Hmag in Hsh.
  assert (Hk : (d + ex + 1) / 2 <= 512).
  { enough ((d + ex + 1) / 2 < 513) by lia.
    apply Z.div_lt_upper_bound; lia. }
  split.
  - apply (fin_weaken (Z.max ((d + ex + 1) / 2) (-1074) + 1)); [| lia].
    apply (rounded_fin _ _ _ Hsh). lia.
  - apply (rounded_nonneg _ _ Hsh). lia.
Qed.

(** A finite sample squared, a sum of squares, their mean and its square
    root: each is a finite non-negative number or, on overflow, [+inf]. *)
Lemma square_energy (x : float) :
  fin 1024 x -> energy (fmul x x) \/ fmul x x = finf.
Proof.
  destruct x as [s | s | | s m e]; cbn [fin]; try tauto.
  intros [Hb _].
  destruct (fmul_shape s s m m e e Hb Hb) as [k [_ Hr]].
  rewrite xorb_nilpotent in Hr.
  exact (rounded_energy _ _ Hr).
Qed.

Lemma finite_sample_fin (x : float) : finite_sample x -> fin 1024 x.
Proof.
  intros [Hv Hf]. destruct x as [s | s | | s m e]; try discriminate.
  - exact I.
  - cbn [fin]. cbn in Hv. split; [exact Hv |].
    pose proof (bounded64_mag _ _ Hv). lia.
Qed.

Lemma Z2F_count (n : Z) :
  0 < n < 2 ^ 53 -> pos_ge 1 (Z2F n) /\ fin 54 (Z2F n).
Proof.
  intros [Hn0 Hn].
  pose proof (binary_normalize_shape n 0 false ltac:(lia)) as Hr.
  change (binary_normalize prec emax n 0 false) with (Z2F n) in Hr.
  replace (n <? 0) with false in Hr by (symmetry; apply Z.ltb_ge; lia).
  assert (Hd : 1 <= Zdigits2 n <= 53).
  { split; [destruct n; try lia; cbn; lia |].
    apply Zdigits2_lt_pow; lia. }
  rewrite Z.add_0_r in Hr. split.
  - pose proof (rounded_pos_ge _ _ Hr ltac:(lia)) as Hp.
    destruct (Z2F n) as [s | s | | [] m e]; cbn in Hp |- *; try tauto.
    destruct Hp. split; [assumption | lia].
  - apply (fin_weaken (Z.max (Zdigits2 n) (-1074) + 1)); [| lia].
    apply (rounded_fin _ _ _ Hr). lia.
Qed.

Lemma fdiv_energy_inf (x d : float) :
  energy x \/ x = finf -> pos_ge 1 d ->
  energy (fdiv x d) \/ fdiv x d = finf.
Proof.
  intros Hx Hd.
  destruct d as [s | s | | [] md ed]; cbn in Hd; try tauto.
  destruct Hx as [Hx | ->]; [| right; reflexivity].
  destruct x as [s | s | | [] mx ex]; cbn in Hx; try tauto.
  destruct (fdiv_shape false false mx md ex ed) as [k [_ Hr]].
  exact (rounded_energy _ _ Hr).
Qed.

Lemma rms_of_bounded (r : reduction) (a : list float) :
  a <> [] -> Z.of_nat (List.length a) < 2 ^ 53 -> Forall (fin 1024) a ->
  bounded_energy 513 (rms_of r a) \/ rms_of r a = finf.
Proof.
  intros Hne Hlen Ha. unfold rms_of, np_mean. rewrite length_map.
  set (sq := map (fun x => fmul x x) a).
  assert (Hsq : Forall (fun x => energy x \/ x = finf) sq).
  { unfold sq. rewrite Forall_map. revert Ha. apply Forall_impl.
    intros x. apply square_energy. }
  assert (Hsum : energy (np_sum r sq) \/ np_sum r sq = finf).
  { exact (adds_up_energy sq _ (np_sum_adds_up r sq) Hsq). }
  assert (Hn : 0 < Z.of_nat (List.length a) < 2 ^ 53).
  { destruct a; [congruence | cbn [List.length] in *; lia]. }
  destruct (Z2F_count _ Hn) as [Hcnt _].
  destruct (fdiv_energy_inf _ _ Hsum Hcnt) as [Hm | ->].
  - left. now apply fsqrt_bounded.
  - right. reflexivity.
Qed.

Lemma clamp_lufs_range (v : float) :
  is_nan v = false ->
  fle fneg70 (clamp_lufs v) = true /\ fle (clamp_lufs v) f0 = true.
Proof.
  intros Hv. unfold clamp_lufs, py_min.
  destruct (flt f0 v) eqn:E0; [split; reflexivity |].
  assert (H0 : fle v f0 = true) by (apply flt_false_fle; auto).
  unfold py_max. change (fgt fneg70 v) with (flt v fneg70).
  destruct (flt v fneg70) eqn:E1; [split; reflexivity |].
  split; [| exact H0]. apply flt_false_fle; auto.
Qed.

Section LoudnessRange.

Variable log10 : float -> float.
Hypothesis Hlog : log10_regular log10.

Lemma to_db_bounded (r : float) :
  bounded_energy 513 r \/ r = finf ->
  fin 16 (to_db log10 r) \/ to_db log10 r = finf.
Proof.
  destruct Hlog as [Hfin [Hinf _]].
  intros [[Hr Hr0] | ->]; unfold to_db.
  - left.
    assert (Hx : pos_ge (-26) (fadd r f1e_8)).
    { apply (fadd_pos_ge 513); try lia; try assumption.
      - cbn. split; [reflexivity | lia].
      - cbn. split; [reflexivity | lia]. }
    apply (fin_weaken (Z.max (5 + 10) (-1074) + 1)); [| lia].
    apply fmul_fin; [lia | | now apply Hfin].
    cbn. split; [reflexivity | lia].
  - right. change (fadd finf f1e_8) with finf. rewrite Hinf. reflexivity.
Qed.

Lemma fallback_not_nan (r : reduction) (a : list float) :
  a <> [] -> Z.of_nat (List.length a) < 2 ^ 53 -> Forall (fin 1024) a ->
  is_nan (fsub (to_db log10 (rms_of r a)) f10) = false.
Proof.
  intros Hne Hlen Ha.
  destruct (to_db_bounded _ (rms_of_bounded r a Hne Hlen Ha)) as [Hd | ->];
    [| reflexivity].
  apply (fin_not_nan 18). apply (fsub_fin 16); [lia | assumption |].
  cbn. split; [reflexivity | lia].
Qed.

End LoudnessRange.

(** ** Rounding does not cross a representable bound *)

Lemma pack_scaled (s : bool) (m E : Z) :
  0 <= m <= 2 ^ 53 -> -1074 <= E <= 971 -> (E = 971 -> m < 2 ^ 53) ->
  (-1074 < E -> 2 ^ 52 <= m) ->
  fin 1024 (pack s m E)
  /\ Z.abs (scaled (pack s m E)) = m * 2 ^ (E + 1074).
Proof.
  intros Hm HE Htop Hnorm. unfold pack.
  assert (HU : 0 < 2 ^ (E + 1074)) by (apply pow2_pos; lia).
  destruct m as [| p | p]; [split; [exact I | reflexivity] | | lia].
  assert (Habs : forall (q : positive) (e : Z), -1074 <= e ->
            Z.abs (scaled (S754_finite s q e)) = Zpos q * 2 ^ (e + 1074)).
  { intros q e He. cbn [scaled].
    assert (0 < 2 ^ (e + 1074)) by (apply pow2_pos; lia).
    destruct s; rewrite Z.abs_mul, (Z.abs_eq (2 ^ _)) by lia; reflexivity. }
  assert (Hfin : forall (q : positive) (e : Z),
            bounded64 q e = true -> fin 1024 (S754_finite s q e)).
  { intros q e Hb. cbn [fin]. split; [exact Hb |].
    pose proof (bounded64_mag _ _ Hb). lia. }
  destruct (Z.eqb_spec (Zpos p) (2 ^ 53)) as [Hc | Hnc].
  - destruct (Z.leb_spec (E + 1) 971); [| lia]. split.
    + apply Hfin, bounded64_intro; [| lia].
      change (Zdigits2 (Zpos 4503599627370496)) with 53.
      rewrite fexp64_eq. lia.
    + rewrite Habs by lia. rewrite Hc.
      replace (E + 1 + 1074) with (1 + (E + 1074)) by lia.
      rewrite pow2_split by lia.
      change (Zpos 4503599627370496) with (2 ^ 52).
      change (2 ^ 53) with (2 ^ 52 * 2 ^ 1). ring.
  - destruct (Z.leb_spec E 971); [| lia]. split; [| apply Habs; lia].
    apply Hfin, bounded64_intro; [| lia].
    assert (Hd : Zdigits2 (Zpos p) <= 53)
      by (apply Zdigits2_lt_pow; lia).
    rewrite fexp64_eq.
    destruct (Z.eq_dec E (-1074)) as [-> | Hne]; [lia |].
    pose proof (Zdigits2_ge_pow (Zpos p) 52 ltac:(lia) ltac:(lia)). lia.
Qed.

Lemma binary_round_bound (s : bool) (m mB : positive) (e eB : Z) :
  -1074 <= e -> bounded64 mB eB = true ->
  Zpos m * 2 ^ (e + 1074) <= Zpos mB * 2 ^ (eB + 1074) ->
  fin 1024 (binary_round prec emax s m e)
  /\ Z.abs (scaled (binary_round prec emax s m e))
     <= Zpos mB * 2 ^ (eB + 1074).
Proof.
  intros He HB Hle.
  pose proof (bounded64_elim _ _ HB) as [HcanB HeB].
  pose proof (bounded64_mag _ _ HB) as [HeB' [HdB _]].
  unfold binary_round.
  pose proof (shl_align_spec m e (fexp64 (Zpos (digits2_pos m) + e))) as H.
  change (Zpos (digits2_pos m)) with (Zdigits2 (Zpos m)) in *.
  destruct (shl_align m e _) as [mz ez]. destruct H as [Hmz Hez].
  set (d := Zdigits2 (Zpos m)) in *.
  set (E := fexp64 (d + e)) in *.
  assert (HE : E = Z.max (d + e - 53) (-1074)) by apply fexp64_eq.
  assert (Hd1 : 1 <= d) by (unfold d; cbn; lia).
  assert (Hmag : Zdigits2 (Zpos mz) + ez = d + e).
  { rewrite Hmz, Zdigits2_mul_pow2 by lia. fold d. lia. }
  (* the bound has at least the magnitude of the number *)
  assert (HdB' : d + e <= Zdigits2 (Zpos mB) + eB).
  { pose proof (Zdigits2_mono (Zpos m * 2 ^ (e + 1074))
                  (Zpos mB * 2 ^ (eB + 1074))) as Hmono.
    rewrite !Zdigits2_mul_pow2 in Hmono by lia. fold d in Hmono.
    assert (0 < 2 ^ (e + 1074)) by (apply pow2_pos; lia).
    assert (0 <= Zpos m * 2 ^ (e + 1074)) by nia.
    lia. }
  assert (HEB : E <= eB).
  { rewrite fexp64_eq in HcanB. lia. }
  set (U := 2 ^ (E - ez)). set (J := Zpos mB * 2 ^ (eB - E)).
  assert (HU : 0 < U) by (apply pow2_pos; lia).
  assert (HW : 0 < 2 ^ (ez + 1074)) by (apply pow2_pos; lia).
  assert (HJ : Zpos mB * 2 ^ (eB + 1074) = J * 2 ^ (E + 1074)).
  { unfold J. rewrite <- Z.mul_assoc, <- pow2_split by lia.
    f_equal. f_equal. lia. }
  assert (HmzJ : Zpos mz <= J * U).
  { apply (Z.mul_le_mono_pos_r _ _ (2 ^ (ez + 1074)) HW).
    replace (J * U * 2 ^ (ez + 1074)) with (J * 2 ^ (E + 1074)).
    2:{ unfold U. rewrite <- Z.mul_assoc, <- pow2_split by lia.
        f_equal. f_equal. lia. }
    rewrite <- HJ, Hmz, <- Z.mul_assoc, <- pow2_split by lia.
    replace (e - ez + (ez + 1074)) with (e + 1074) by lia. exact Hle. }
  (* the exact form of the rounding *)
  pose proof (round64_exact s (Zpos mz) 1 ez ltac:(lia) ltac:(lia)) as Hex.
  rewrite Z.div_1_r in Hex. rewrite Hmag in Hex. fold E in Hex.
  specialize (Hex ltac:(lia)). cbv zeta in Hex.
  replace (loc_of (Zpos mz) 1) with loc_Exact in Hex
    by (unfold loc_of; rewrite Z.mod_1_r; reflexivity).
  rewrite Z.mul_1_l in Hex. fold U in Hex. rewrite Hex.
  set (M := rne (Zpos mz) U).
  pose proof (Zdigits2_pos_bounds mz) as [Hlo Hhi].
  assert (HM : 0 <= M <= J).
  { apply rne_bounds; [assumption | lia | assumption]. }
  assert (HM53 : M <= 2 ^ 53 /\ (-1074 < E -> 2 ^ 52 <= M)).
  { destruct (Z.eq_dec E (-1074)) as [HE' | HE'].
    - assert (ez = E) by lia.
      assert (HU1 : U = 1) by (unfold U; replace (E - ez) with 0 by lia;
                               reflexivity).
      unfold M. rewrite HU1.
      rewrite <- (Z.mul_1_r (Zpos mz)) at 1.
      rewrite rne_exact by lia.
      split; [| lia].
      assert (Zdigits2 (Zpos mz) <= 53) by lia.
      assert (2 ^ Zdigits2 (Zpos mz) <= 2 ^ 53)
        by (apply Z.pow_le_mono_r; lia).
      lia.
    - assert (HEz : E - ez = Zdigits2 (Zpos mz) - 53) by lia.
      assert (Hsplit : 2 ^ Zdigits2 (Zpos mz) = 2 ^ 53 * U).
      { unfold U. rewrite HEz, <- pow2_split by lia. f_equal. lia. }
      assert (Hsplit' : 2 ^ (Zdigits2 (Zpos mz) - 1) = 2 ^ 52 * U).
      { unfold U. rewrite HEz, <- pow2_split by lia. f_equal. lia. }
      assert (2 ^ 52 <= M <= 2 ^ 53); [| lia].
      apply rne_bounds; [assumption | lia | lia]. }
  destruct HM53 as [HM53 HMn].
  assert (Htop : E = 971 -> M < 2 ^ 53).
  { intros HE971. assert (eB = 971) by lia.
    assert (J = Zpos mB).
    { unfold J. replace (eB - E) with 0 by lia. lia. }
    assert (Zpos mB < 2 ^ 53).
    { pose proof (Zdigits2_pos_bounds mB) as [_ Hb].
      assert (2 ^ Zdigits2 (Zpos mB) <= 2 ^ 53)
        by (apply Z.pow_le_mono_r; lia).
      lia. }
    lia. }
  destruct (pack_scaled s M E ltac:(lia) ltac:(lia) Htop HMn) as [Hf Hv].
  split; [exact Hf |]. rewrite Hv, HJ.
  apply Z.mul_le_mono_nonneg_r; [| lia].
  apply Z.lt_le_incl, pow2_pos. lia.
Qed.

Lemma binary_normalize_bound (S ez : Z) (mB : positive) (eB : Z) :
  -1074 <= ez -> bounded64 mB eB = true ->
  Z.abs S * 2 ^ (ez + 1074) <= Zpos mB * 2 ^ (eB + 1074) ->
  fin 1024 (binary_normalize prec emax S ez false)
  /\ Z.abs (scaled (binary_normalize prec emax S ez false))
     <= Zpos mB * 2 ^ (eB + 1074).
Proof.
  intros Hez HB Hle.
  destruct S as [| p | p]; cbn [binary_normalize].
  - split; [exact I |]. cbn [scaled Z.abs].
    pose proof (bounded64_mag _ _ HB).
    assert (0 < 2 ^ (eB + 1074)) by (apply pow2_pos; lia). nia.
  - now apply binary_round_bound.
  - now apply binary_round_bound.
Qed.

Lemma scaled_finite (s : bool) (m : positive) (e : Z) :
  scaled (S754_finite s m e) = cond_Zopp s (Zpos m) * 2 ^ (e + 1074).
Proof. destruct s; reflexivity. Qed.

Lemma fadd_bound (x y : float) (mB : positive) (eB : Z) :
  fin 1024 x -> fin 1024 y -> bounded64 mB eB = true ->
  Z.abs (scaled x + scaled y) <= Zpos mB * 2 ^ (eB + 1074) ->
  fin 1024 (fadd x y)
  /\ Z.abs (scaled (fadd x y)) <= Zpos mB * 2 ^ (eB + 1074).
Proof.
  intros Hx Hy HB Hle.
  assert (HB0 : 0 <= Zpos mB * 2 ^ (eB + 1074)).
  { pose proof (bounded64_mag _ _ HB).
    assert (0 < 2 ^ (eB + 1074)) by (apply pow2_pos; lia). nia. }
  destruct x as [sx | sx | | sx mx ex]; try contradiction;
    destruct y as [sy | sy | | sy my ey]; try contradiction.
  - split; [destruct sx, sy; exact I |]. destruct sx, sy; exact HB0.
  - split; [exact Hy |]. exact Hle.
  - split; [exact Hx |]. rewrite Z.add_0_r in Hle. exact Hle.
  - destruct Hx as [Hbx _], Hy as [Hby _].
    pose proof (bounded64_mag _ _ Hbx) as [Hex _].
    pose proof (bounded64_mag _ _ Hby) as [Hey _].
    unfold fadd, SFadd. set (ez := Z.min ex ey).
    apply binary_normalize_bound; [lia | assumption |].
    rewrite !shl_align_fst by lia.
    rewrite !scaled_finite in Hle.
    assert (HW : 0 < 2 ^ (ez + 1074)) by (apply pow2_pos; lia).
    rewrite <- (Z.abs_eq (2 ^ (ez + 1074))) at 1 by lia.
    rewrite <- Z.abs_mul.
    replace ((cond_Zopp sx (Zpos mx * 2 ^ (ex - ez))
              + cond_Zopp sy (Zpos my * 2 ^ (ey - ez))) * 2 ^ (ez + 1074))
      with (cond_Zopp sx (Zpos mx) * 2 ^ (ex + 1074)
            + cond_Zopp sy (Zpos my) * 2 ^ (ey + 1074)); [exact Hle |].
    replace (ex + 1074) with (ex - ez + (ez + 1074)) by lia.
    replace (ey + 1074) with (ey - ez + (ez + 1074)) by lia.
    rewrite (pow2_split (ex - ez)), (pow2_split (ey - ez)) by lia.
    destruct sx, sy; cbn [cond_Zopp]; ring.
Qed.

Lemma fin_scaled (k : Z) (x : float) :
  -1074 <= k -> fin k x -> Z.abs (scaled x) < 2 ^ (k + 1074).
Proof.
  intros Hk. destruct x as [s | s | | s m e]; cbn [fin]; try tauto.
  - intros _. cbn [scaled Z.abs]. apply pow2_pos. lia.
  - intros [Hb Hm]. pose proof (bounded64_mag _ _ Hb) as [He _].
    rewrite scaled_finite.
    assert (HW : 0 < 2 ^ (e + 1074)) by (apply pow2_pos; lia).
    rewrite Z.abs_mul, (Z.abs_eq (2 ^ _)) by lia.
    replace (Z.abs (cond_Zopp s (Zpos m))) with (Zpos m)
      by (destruct s; reflexivity).
    pose proof (Zdigits2_pos_bounds m) as [_ Hhi].
    pose proof (Zdigits2_nonneg (Zpos m)).
    assert (2 ^ Zdigits2 (Zpos m) * 2 ^ (e + 1074) <= 2 ^ (k + 1074)).
    { rewrite <- pow2_split by lia. apply Z.pow_le_mono_r; lia. }
    nia.
Qed.

Lemma scaled_fin (k : Z) (x : float) :
  fin 1024 x -> Z.abs (scaled x) < 2 ^ (k + 1074) -> fin k x.
Proof.
  destruct x as [s | s | | s m e]; cbn [fin]; try tauto.
  intros [Hb _] Hlt. split; [exact Hb |].
  pose proof (bounded64_mag _ _ Hb) as [He _].
  rewrite scaled_finite in Hlt.
  assert (HW : 0 < 2 ^ (e + 1074)) by (apply pow2_pos; lia).
  rewrite Z.abs_mul, (Z.abs_eq (2 ^ _)) in Hlt by lia.
  replace (Z.abs (cond_Zopp s (Zpos m))) with (Zpos m) in Hlt
    by (destruct s; reflexivity).
  pose proof (Zdigits2_pos_bounds m) as [Hlo _].
  assert (Hd1 : 1 <= Zdigits2 (Zpos m)) by (cbn; lia).
  destruct (Z.le_gt_cases (Zdigits2 (Zpos m) + e) k) as [| Hgt];
    [assumption | exfalso].
  assert (2 ^ (k + 1074) <= 2 ^ (Zdigits2 (Zpos m) - 1) * 2 ^ (e + 1074)).
  { rewrite <- pow2_split by lia. apply Z.pow_le_mono_r; lia. }
  nia.
Qed.

(** The multiples [c * 2^k] of a power of two by a count below [2^53] are
    binary64 numbers. *)
Lemma count_bound_float (c k : Z) :
  0 < c < 2 ^ 53 -> -1021 <= k <= 971 ->
  exists (mB : positive) (eB : Z),
    bounded64 mB eB = true
    /\ Zpos mB * 2 ^ (eB + 1074) = c * 2 ^ (k + 1074).
Proof.
  intros [Hc0 Hc] Hk.
  set (d := Zdigits2 c).
  assert (Hd : 1 <= d <= 53).
  { unfold d. split; [destruct c; try lia; cbn; lia |].
    apply Zdigits2_lt_pow; lia. }
  assert (HP : 0 < 2 ^ (53 - d)) by (apply pow2_pos; lia).
  assert (Hm : 0 < c * 2 ^ (53 - d)) by nia.
  exists (Z.to_pos (c * 2 ^ (53 - d))), (k - (53 - d)).
  rewrite Z2Pos.id by assumption. split.
  - apply bounded64_intro; [| lia].
    rewrite Z2Pos.id by assumption.
    rewrite Zdigits2_mul_pow2 by lia. fold d.
    rewrite fexp64_eq. lia.
  - rewrite <- Z.mul_assoc, <- pow2_split by lia. f_equal. f_equal. lia.
Qed.

(** However the entries are added up: when each is below [2^k] in
    magnitude or [+inf], the sum of [c] of them is [+inf], and then one of
    them is, or it is at most [c * 2^k] in magnitude. *)
Lemma adds_up_count (k : Z) (a : list float) (s : float) :
  -1021 <= k <= 971 -> adds_up a s ->
  Z.of_nat (List.length a) < 2 ^ 53 ->
  Forall (fun d => fin k d \/ d = finf) a ->
  (s = finf /\ Exists (eq finf) a)
  \/ (fin 1024 s
      /\ Z.abs (scaled s) <= Z.of_nat (List.length a) * 2 ^ (k + 1074)).
Proof.
  intros Hk Hs.
  induction Hs as [z | x | a1 a2 s1 s2 Hs1 IH1 Hs2 IH2 | a a' s Hp _ IH];
    intros Hlen Ha.
  - right. split; [exact I |]. cbn. lia.
  - inversion Ha as [| ? ? Hx _]; subst. destruct Hx as [Hx | ->].
    + right. split; [apply (fin_weaken k); [assumption | lia] |].
      pose proof (fin_scaled k x ltac:(lia) Hx).
      cbn [List.length]. lia.
    + left. split; [reflexivity | now constructor].
  - rewrite length_app, Nat2Z.inj_add in Hlen |- *.
    apply Forall_app in Ha as [Ha1 Ha2].
    destruct (IH1 ltac:(lia) Ha1) as [[-> He1] | [Hf1 Hb1]].
    { left. split; [| apply Exists_app; now left].
      destruct (IH2 ltac:(lia) Ha2) as [[-> _] | [Hf2 _]]; [reflexivity |].
      destruct s2; cbn in Hf2; try tauto; reflexivity. }
    destruct (IH2 ltac:(lia) Ha2) as [[-> He2] | [Hf2 Hb2]].
    { left. split; [| apply Exists_app; now right].
      destruct s1; cbn in Hf1; try tauto; reflexivity. }
    right.
    destruct (Z.eq_dec (Z.of_nat (List.length a1)
                        + Z.of_nat (List.length a2)) 0) as [E0 | Hpos].
    + assert (E1 : a1 = []) by (destruct a1; [reflexivity | cbn [List.length] in E0; lia]).
      assert (E2 : a2 = []) by (destruct a2; [reflexivity | cbn [List.length] in E0; lia]).
      destruct (adds_up_nil _ _ Hs1 E1) as [z1 ->].
      destruct (adds_up_nil _ _ Hs2 E2) as [z2 ->].
      subst. destruct z1, z2; cbn; split; solve [exact I | lia].
    + destruct (count_bound_float
                  (Z.of_nat (List.length a1) + Z.of_nat (List.length a2)) k
                  ltac:(lia) Hk) as [mB [eB [HB HvB]]].
      rewrite <- HvB. apply fadd_bound; try assumption.
      rewrite HvB. lia.
  - rewrite <- (Permutation_length Hp) in *.
    apply (Permutation_Forall (Permutation_sym Hp)) in Ha.
    destruct (IH Hlen Ha) as [[-> He] | H]; [left | right; exact H].
    split; [reflexivity |].
    apply Exists_exists in He as (x & Hin & Hx).
    apply Exists_exists. exists x. split; [| exact Hx].
    exact (Permutation_in x Hp Hin).
Qed.

Lemma np_mean_db (r : reduction) (l : list float) :
  l <> [] -> Z.of_nat (List.length l) < 2 ^ 53 ->
  Forall (fun d => fin 16 d \/ d = finf) l ->
  fin 70 (np_mean r l) \/ np_mean r l = finf.
Proof.
  intros Hne Hlen Hl. unfold np_mean.
  assert (Hn : 0 < Z.of_nat (List.length l) < 2 ^ 53).
  { destruct l; [congruence | cbn [List.length] in *; lia]. }
  destruct (Z2F_count _ Hn) as [Hcnt _].
  assert (Hsum : np_sum r l = finf \/ fin 69 (np_sum r l)).
  { destruct (adds_up_count 16 l _ ltac:(lia) (np_sum_adds_up r l)
                ltac:(lia) Hl) as [[Hi _] | [Hf Hs]].
    - left. exact Hi.
    - right. apply scaled_fin; [assumption |].
      change (16 + 1074) with 1090 in Hs.
      change (69 + 1074) with (53 + 1090). rewrite (pow2_split 53 1090) by lia.
      assert (0 < 2 ^ 1090) by (apply pow2_pos; lia).
      nia. }
  destruct Hsum as [-> | Hs].
  - right. destruct (Z2F _) as [s | s | | [] m e]; cbn in Hcnt; tauto.
  - left. apply (fin_weaken (Z.max (69 - 1 + 1) (-1074) + 1)); [| lia].
    apply fdiv_fin; [lia | assumption | assumption].
Qed.

(** ** The frames of a buffer *)

Lemma Forall_firstn_skipn (A : Type) (P : A -> Prop) (n : nat) (l : list A) :
  Forall P l -> Forall P (firstn n l) /\ Forall P (skipn n l).
Proof.
  intros Hl. rewrite <- (firstn_skipn n l) in Hl.
  now apply Forall_app in Hl.
Qed.

Lemma frames_from_spec (P : float -> Prop) (bl hop : nat) :
  forall (k : nat) (y : list float),
  Forall P y ->
  (k = 0 \/ bl + (k - 1) * hop <= List.length y)%nat ->
  List.length (frames_from y bl hop k) = k
  /\ Forall (fun b => List.length b = bl /\ Forall P b)
       (frames_from y bl hop k).
Proof.
  induction k as [| k IH]; intros y Hy Hk; cbn [frames_from].
  - split; [reflexivity | constructor].
  - destruct Hk as [Hk | Hk]; [discriminate |].
    replace (S k - 1)%nat with k in Hk by lia.
    destruct (Forall_firstn_skipn _ P bl y Hy) as [Hf _].
    destruct (Forall_firstn_skipn _ P hop y Hy) as [_ Hs].
    destruct (IH (skipn hop y) Hs) as [Hlen Hall].
    { destruct k as [| k']; [left; reflexivity | right].
      rewrite length_skipn. cbn in Hk |- *. nia. }
    cbn [List.length]. split; [lia |].
    constructor; [| exact Hall].
    split; [| exact Hf]. rewrite length_firstn. lia.
Qed.

Lemma frame_spec (P : float -> Prop) (y : list float) (bl hop : Z)
  (blocks : list (list float)) :
  Forall P y -> 1 <= bl -> frame y bl hop = Ok blocks ->
  Z.of_nat (List.length blocks) <= Z.of_nat (List.length y)
  /\ Forall (fun b => Z.of_nat (List.length b) = bl /\ Forall P b) blocks.
Proof.
  intros Hy Hbl. unfold frame.
  set (n := Z.of_nat (List.length y)).
  destruct (Z.ltb_spec n bl) as [| Hn]; [discriminate |].
  destruct (Z.ltb_spec hop 1) as [| Hhop]; [discriminate |].
  intros Heq. set (q := (n - bl) / hop).
  assert (Hblocks : blocks = frames_from y (Z.to_nat bl) (Z.to_nat hop)
                               (Z.to_nat (1 + q)))
    by (inversion Heq; reflexivity).
  clear Heq. subst blocks.
  assert (Hq : 0 <= q /\ q * hop <= n - bl).
  { unfold q. split; [apply Z.div_pos; lia |].
    rewrite Z.mul_comm. apply Z.mul_div_le. lia. }
  destruct (frames_from_spec P (Z.to_nat bl) (Z.to_nat hop)
              (Z.to_nat (1 + q)) y Hy) as [Hlen Hall].
  { right. replace (Z.to_nat (1 + q) - 1)%nat with (Z.to_nat q) by lia.
    apply Nat2Z.inj_le.
    rewrite Nat2Z.inj_add, Nat2Z.inj_mul, !Z2Nat.id by lia.
    fold n. lia. }
  split.
  - rewrite Hlen, Z2Nat.id by lia. fold n. nia.
  - revert Hall. apply Forall_impl. intros b [Hb HP].
    split; [| exact HP]. rewrite Hb. apply Z2Nat.id. lia.
Qed.

Lemma Forall_filter_incl (A : Type) (P : A -> Prop) (f : A -> bool)
  (l : list A) : Forall P l -> Forall P (filter f l).
Proof.
  rewrite !Forall_forall. intros H x Hx. apply filter_In in Hx. now apply H.
Qed.

Lemma filter_length (A : Type) (f : A -> bool) (l : list A) :
  (List.length (filter f l) <= List.length l)%nat.
Proof.
  induction l as [| x l IH]; cbn [filter List.length]; [lia |].
  destruct (f x); cbn [List.length]; lia.
Qed.

Lemma mean_minus_10_not_nan (r : reduction) (l : list float) :
  l <> [] -> Z.of_nat (List.length l) < 2 ^ 53 ->
  Forall (fun d => fin 16 d \/ d = finf) l ->
  is_nan (fsub (np_mean r l) f10) = false.
Proof.
  intros Hne Hlen Hl.
  destruct (np_mean_db r l Hne Hlen Hl) as [Hm | ->]; [| reflexivity].
  apply (fin_not_nan 72). apply (fsub_fin 70); [lia | assumption |].
  cbn. split; [reflexivity | lia].
Qed.

Lemma gated_loudness_range (block_db : list float) :
  Z.of_nat (List.length block_db) < 2 ^ 53 ->
  Forall (fun d => fin 16 d \/ d = finf) block_db ->
  fle fneg70 (gated_loudness block_db) = true
  /\ fle (gated_loudness block_db) f0 = true.
Proof.
  intros Hlen Hdb. unfold gated_loudness.
  destruct (valid_blocks block_db); [split; reflexivity |].
  destruct (final_blocks block_db) eqn:E; [split; reflexivity |].
  rewrite <- E. apply clamp_lufs_range, mean_minus_10_not_nan.
  - rewrite E. discriminate.
  - pose proof (filter_length _ (fun d => fgt d (relative_threshold_of block_db))
                  block_db) as Hle.
    unfold final_blocks. lia.
  - unfold final_blocks. now apply Forall_filter_incl.
Qed.

Lemma frame_block_length (y : list float) (bl : Z)
  (blocks : list (list float)) :
  frame y bl (bl / 2) = Ok blocks -> 2 <= bl.
Proof.
  unfold frame.
  destruct (_ <? bl); [discriminate |].
  destruct (Z.ltb_spec (bl / 2) 1) as [| Hhop]; [discriminate |].
  intros _. destruct (Z.le_gt_cases 2 bl) as [| Hlt]; [assumption |].
  assert (bl / 2 < 1) by (apply Z.div_lt_upper_bound; lia). lia.
Qed.

Section LoudnessEstimate.

Variable log10 : float -> float.
Hypothesis Hlog : log10_regular log10.

Lemma block_db_bounded (y : list float) (bl : Z)
  (blocks : list (list float)) :
  Forall (fin 1024) y -> Z.of_nat (List.length y) < 2 ^ 53 ->
  frame y bl (bl / 2) = Ok blocks ->
  Z.of_nat (List.length (map (to_db log10) (map (rms_of Axis0) blocks))) < 2 ^ 53
  /\ Forall (fun d => fin 16 d \/ d = finf)
       (map (to_db log10) (map (rms_of Axis0) blocks)).
Proof.
  intros Hy Hlen Hfr.
  pose proof (frame_block_length _ _ _ Hfr) as Hbl.
  assert (Hn : bl <= Z.of_nat (List.length y)).
  { unfold frame in Hfr.
    destruct (Z.ltb_spec (Z.of_nat (List.length y)) bl); [discriminate | lia]. }
  destruct (frame_spec (fin 1024) y bl (bl / 2) blocks Hy ltac:(lia) Hfr)
    as [Hcount Hall].
  rewrite !length_map. split; [lia |].
  rewrite !Forall_map. revert Hall. apply Forall_impl.
  intros b [Hb HP]. apply (to_db_bounded log10 Hlog).
  apply rms_of_bounded; [| lia | exact HP].
  intros ->. cbn [List.length] in Hb. lia.
Qed.

Lemma calculate_lufs_in_range (y : list float) (sr : Z) :
  Forall finite_sample y -> Z.of_nat (List.length y) < 2 ^ 53 ->
  fle fneg70 (calculate_lufs log10 y sr) = true
  /\ fle (calculate_lufs log10 y sr) f0 = true.
Proof.
  intros Hy Hlen.
  assert (Hy' : Forall (fin 1024) y).
  { revert Hy. apply Forall_impl. exact finite_sample_fin. }
  unfold calculate_lufs, calculate_lufs_body.
  destruct y as [| x0 y0] eqn:Ey; [split; reflexivity |].
  rewrite <- Ey in *. replace (List.length y =? 0)%nat with false
    by (rewrite Ey; reflexivity).
  cbv iota.
  destruct (block_length_of sr) as [bl | e]; [| split; reflexivity].
  cbn [bind].
  destruct (Z.of_nat (List.length y) <? bl).
  - cbn [catch]. apply clamp_lufs_range.
    apply (fallback_not_nan log10 Hlog); [rewrite Ey; discriminate | |];
      assumption.
  - destruct (frame y bl (bl / 2)) as [blocks | e] eqn:Hfr;
      [| split; reflexivity].
    cbn [bind catch].
    destruct (block_db_bounded y bl blocks Hy' Hlen Hfr) as [Hc Hd].
    now apply gated_loudness_range.
Qed.

End LoudnessEstimate.

(** ** The silence floor *)

Lemma py_int_negative (x : float) (n : Z) :
  (match x with
   | S754_zero _ | S754_infinity _ | S754_finite true _ _ => True
   | _ => False
   end) ->
  py_int x = Ok n -> n <= 0.
Proof.
  destruct x as [s | s | | [] m e]; try tauto; intros _; cbn [py_int].
  - intros [= <-]. lia.
  - discriminate.
  - intros H.
    assert (Hn : n = - match e with
                       | Zneg k => Zpos m / 2 ^ Zpos k
                       | _ => Zpos m * 2 ^ e
                       end) by congruence.
    rewrite Hn. clear H Hn. destruct e as [| k | k].
    + rewrite Z.pow_0_r. lia.
    + assert (0 < 2 ^ Zpos k) by (apply pow2_pos; lia). nia.
    + assert (0 < 2 ^ Zpos k) by (apply pow2_pos; lia).
      assert (0 <= Zpos m / 2 ^ Zpos k) by (apply Z.div_pos; lia). lia.
Qed.

Lemma block_length_nonpos (sr bl : Z) :
  sr <= 0 -> block_length_of sr = Ok bl -> bl <= 0.
Proof.
  intros Hsr. unfold block_length_of, py_float_of_int.
  destruct sr as [| p | p]; [| lia |].
  - cbn. intros [= <-]. lia.
  - pose proof (binary_normalize_shape (Zneg p) 0 false ltac:(lia)) as Hr.
    change (binary_normalize prec emax (Zneg p) 0 false) with (Z2F (Zneg p))
      in Hr.
    change (Zneg p <? 0) with true in Hr.
    destruct Hr as [_ | _ | m e Hb _]; cbn [bind].
    + cbn. intros [= <-]. lia.
    + discriminate.
    + assert (H04 : exists m4 e4, f0_4 = S754_finite false m4 e4
                                  /\ bounded64 m4 e4 = true)
        by (eexists _, _; split; reflexivity).
      destruct H04 as [m4 [e4 [-> Hb4]]].
      destruct (fmul_shape false true m4 m e4 e Hb4 Hb) as [k [_ Hk]].
      apply py_int_negative.
      cbn [xorb] in Hk. revert Hk.
      generalize (fmul (S754_finite false m4 e4) (S754_finite true m e)).
      intros r Hr. destruct Hr; exact I.
Qed.

Lemma calculate_lufs_nonpositive_rate
  (log10 : float -> float) (y : list float) (sr : Z) :
  sr <= 0 -> calculate_lufs log10 y sr = fneg70.
Proof.
  intros Hsr. unfold calculate_lufs, calculate_lufs_body.
  destruct y as [| x0 y0] eqn:Ey; [reflexivity |].
  rewrite <- Ey. replace (List.length y =? 0)%nat with false
    by (rewrite Ey; reflexivity).
  cbv iota.
  destruct (block_length_of sr) as [bl | e] eqn:Hbl; [| reflexivity].
  apply (block_length_nonpos _ _ Hsr) in Hbl. cbn [bind].
  destruct (Z.ltb_spec (Z.of_nat (List.length y)) bl) as [| _]; [lia |].
  destruct (frame y bl (bl / 2)) as [blocks | e] eqn:Hfr; [| reflexivity].
  apply frame_block_length in Hfr. lia.
Qed.




(** ** The reference logarithm is regular *)

Lemma log2_bits_bound (fuel : nat) :
  forall Y F, 0 <= F ->
  0 <= log2_bits fuel Y F < (F + 1) * 2 ^ Z.of_nat fuel.
Proof.
  induction fuel as [| k IH]; intros Y F HF.
  - cbn [log2_bits]. change (2 ^ Z.of_nat 0) with 1. lia.
  - cbn [log2_bits].
    replace (2 ^ Z.of_nat (S k)) with (2 * 2 ^ Z.of_nat k)
      by (rewrite Nat2Z.inj_succ, Z.pow_succ_r by lia; reflexivity).
    assert (0 < 2 ^ Z.of_nat k) by (apply pow2_pos; lia).
    destruct (2 ^ 257 <=? Y * Y / 2 ^ 256).
    + pose proof (IH (Y * Y / 2 ^ 256 / 2) (2 * F + 1) ltac:(lia)). nia.
    + pose proof (IH (Y * Y / 2 ^ 256) (2 * F) ltac:(lia)). nia.
Qed.

Lemma log10_ref_regular : log10_regular log10_ref.
Proof.
  split; [| split; [reflexivity | vm_compute; reflexivity]].
  intros x Hx. destruct x as [s | s | | [] m e]; cbn [pos_ge] in Hx;
    try tauto.
  destruct Hx as [Hb Hmag].
  pose proof (bounded64_mag _ _ Hb) as [He [Hd53 _]].
  unfold log10_ref.
  set (d := Zdigits2 (Zpos m)) in *.
  set (F := log2_bits 120 (Zpos m * 2 ^ 256 / 2 ^ (d - 1)) 0).
  pose proof (log2_bits_bound 120 (Zpos m * 2 ^ 256 / 2 ^ (d - 1)) 0
                ltac:(lia)) as HF.
  fold F in HF. change (Z.of_nat 120) with 120 in HF.
  rewrite Z.add_0_l, Z.mul_1_l in HF.
  set (L2 := (e + d - 1) * 2 ^ 120 + F).
  assert (HL2 : Z.abs L2 < 2 ^ 130).
  { change (2 ^ 130) with (1024 * 2 ^ 120).
    assert (HP : 0 < 2 ^ 120) by (apply pow2_pos; lia).
    unfold L2. revert HF HP. generalize (2 ^ 120). intros P HF HP.
    assert (-27 * P <= (e + d - 1) * P)
      by (apply Z.mul_le_mono_nonneg_r; lia).
    assert ((e + d - 1) * P <= 1023 * P)
      by (apply Z.mul_le_mono_nonneg_r; lia).
    apply Z.abs_lt. lia. }
  destruct (Z.eq_dec (L2 * LOG10_2_SCALED) 0) as [E0 | Hnz];
    [rewrite E0; exact I |].
  pose proof (binary_normalize_shape (L2 * LOG10_2_SCALED) (-320) false Hnz)
    as Hr.
  assert (Hdig : Zdigits2 (L2 * LOG10_2_SCALED) <= 329).
  { rewrite <- Zdigits2_abs. apply Zdigits2_lt_pow; [lia | lia |].
    rewrite Z.abs_mul.
    assert (HC : 0 < LOG10_2_SCALED < 2 ^ 199) by (split; reflexivity).
    rewrite (Z.abs_eq LOG10_2_SCALED) by lia.
    change (2 ^ 329) with (2 ^ 130 * 2 ^ 199).
    apply Z.mul_lt_mono_nonneg; lia. }
  apply rounded_fin in Hr; [| lia].
  eapply fin_weaken; [exact Hr | lia].
Qed.


End Part4.



Section Part5.

Context {summation : Summation}.

(** * Further properties of the code *)

(** ** [format_duration] always returns a well-formed mm:ss string *)

Lemma string_of_uint_digits (d : uint) :
  all_digits (NilEmpty.string_of_uint d) = true.
Proof. induction d; cbn; try reflexivity; exact IHd. Qed.

Lemma fmt_02d_digits (n : Z) : 0 <= n -> all_digits (fmt_02d n) = true.
Proof.
  intros Hn. unfold fmt_02d. destruct (Z.ltb_spec n 0); [lia |].
  apply string_of_uint_digits.
Qed.

(** Whatever it is given, [format_duration] renders a whole number of
    seconds that is not negative. *)
Lemma format_duration_renders (o : pyobj) :
  exists t, 0 <= t /\ format_duration o = mmss (t / 60) (t mod 60).
Proof.
  destruct o as [x |]; [| exists 0; split; [lia | reflexivity]].
  destruct x as [s | s | | s m e].
  - exists 0. split; [lia |]. destruct s; reflexivity.
  - exists 0. split; [lia |]. destruct s; reflexivity.
  - exists 0. split; [lia | reflexivity].
  - destruct s.
    + exists 0. split; [lia | reflexivity].
    + exists (round_mag m e). split; [apply round_mag_nonneg |].
      apply format_duration_finite.
Qed.

(** X1: whatever object it is given (a finite, infinite or NaN float, or
    an object [float()] rejects), [format_duration] returns a string of
    the form mm:ss: a minutes field of two or more characters, one colon,
    a seconds field of exactly two characters, every character of both
    fields a decimal digit, the seconds reading as a number from 0 to 59,
    the minutes as a number that is not negative; the string denotes 60
    times the minutes plus the seconds. *)
Theorem format_duration_well_formed (o : pyobj) :
  exists (mm ss : string) (mins secs : Z),
    format_duration o = (mm ++ ":" ++ ss)%string
    /\ all_digits mm = true /\ (2 <= String.length mm)%nat
    /\ all_digits ss = true /\ String.length ss = 2%nat
    /\ read_decimal mm = Some mins /\ 0 <= mins
    /\ read_decimal ss = Some secs /\ 0 <= secs <= 59
    /\ denoted_seconds (format_duration o) = Some (60 * mins + secs).
Proof.
  destruct (format_duration_renders o) as [t [Ht E]].
  assert (Hm : 0 <= t / 60) by (apply Z.div_pos; lia).
  pose proof (Z.mod_pos_bound t 60 ltac:(lia)) as Hs.
  exists (fmt_02d (t / 60)), (fmt_02d (t mod 60)), (t / 60), (t mod 60).
  split; [exact E |].
  split; [now apply fmt_02d_digits |].
  split; [now apply fmt_02d_length |].
  split; [apply fmt_02d_digits; lia |].
  split; [apply fmt_02d_seconds_length; lia |].
  split; [now apply read_fmt_02d |].
  split; [exact Hm |].
  split; [apply read_fmt_02d; lia |].
  split; [lia |].
  rewrite E, (denoted_seconds_mmss t Ht). f_equal.
  pose proof (Z.div_mod t 60 ltac:(lia)). lia.
Qed.

(** ** Edge cases of the loudness estimate *)

Lemma calculate_lufs_small_block
  (log10 : float -> float) (y : list float) (sr bl : Z) :
  block_length_of sr = Ok bl -> bl < 2 ->
  calculate_lufs log10 y sr = fneg70.
Proof.
  intros Hbl Hlt. unfold calculate_lufs, calculate_lufs_body.
  destruct y as [| x0 y0] eqn:Ey; [reflexivity |].
  rewrite <- Ey. replace (List.length y =? 0)%nat with false
    by (rewrite Ey; reflexivity).
  cbv iota. rewrite Hbl. cbn [bind].
  destruct (Z.ltb_spec (Z.of_nat (List.length y)) bl) as [Hn | _].
  { rewrite Ey in Hn. cbn [List.length] in Hn. lia. }
  destruct (frame y bl (bl / 2)) as [blocks | e] eqn:Hfr; [| reflexivity].
  apply frame_block_length in Hfr. lia.
Qed.

(** X2: at a sample rate of 4 Hz or less (positive or not) a block is under
    two samples long, the hop between blocks is zero, and the estimate is
    the silence floor -70.0 for every buffer, whatever its samples and
    whatever [log10] is. *)
Theorem calculate_lufs_tiny_rate
  (log10 : float -> float) (y : list float) (sr : Z) :
  sr <= 4 -> calculate_lufs log10 y sr = fneg70.
Proof.
  intros Hsr.
  destruct (Z.le_gt_cases sr 0) as [H0 | H0];
    [now apply calculate_lufs_nonpositive_rate |].
  assert (Hcases : sr = 1 \/ sr = 2 \/ sr = 3 \/ sr = 4) by lia.
  destruct Hcases as [-> | [-> | [-> | ->]]].
  - apply (calculate_lufs_small_block log10 y 1 0); [reflexivity | lia].
  - apply (calculate_lufs_small_block log10 y 2 0); [reflexivity | lia].
  - apply (calculate_lufs_small_block log10 y 3 1); [reflexivity | lia].
  - apply (calculate_lufs_small_block log10 y 4 1); [reflexivity | lia].
Qed.

End Part5.

Lemma calculate_lufs_tiny_rate_witness :
  calculate_lufs log10_ref [f1; f0_5; f1; f0_5] 3 = fneg70.
Proof.
  apply (calculate_lufs_tiny_rate log10_ref [f1; f0_5; f1; f0_5] 3). lia.
Defined.

Section Part6.

Context {summation : Summation}.

(** X3: the clamp [max(min(v, 0.0), -70.0)] lets a NaN through. In a
    buffer shorter than one block a NaN sample therefore makes the
    estimate NaN (with a [log10] that maps NaN to NaN, as numpy's does):
    the range of C5 is a property of buffers of finite samples. *)
Theorem calculate_lufs_short_buffer_nan
  (log10 : float -> float) (y : list float) (sr bl : Z) :
  log10 S754_nan = S754_nan ->
  block_length_of sr = Ok bl ->
  Z.of_nat (List.length y) < bl ->
  In S754_nan y ->
  calculate_lufs log10 y sr = S754_nan.
Proof.
  intros Hnan Hbl Hn Hin. unfold calculate_lufs, calculate_lufs_body.
  destruct y as [| x0 y0] eqn:Ey; [contradiction |].
  rewrite <- Ey in *. replace (List.length y =? 0)%nat with false
    by (rewrite Ey; reflexivity).
  cbv iota. rewrite Hbl. cbn [bind].
  destruct (Z.ltb_spec (Z.of_nat (List.length y)) bl) as [_ | Hge]; [| lia].
  cbn [catch]. unfold rms_of, to_db.
  rewrite np_mean_nan.
  - change (fsqrt S754_nan) with S754_nan. rewrite fadd_nan_l, Hnan.
    reflexivity.
  - right. apply in_map_iff. exists S754_nan. split; [reflexivity | exact Hin].
Qed.

End Part6.

Lemma calculate_lufs_short_buffer_nan_witness :
  calculate_lufs log10_ref [f1; S754_nan; f0_5] 44100 = S754_nan.
Proof.
  apply (calculate_lufs_short_buffer_nan log10_ref [f1; S754_nan; f0_5]
           44100 17640).
  - reflexivity.
  - vm_compute. reflexivity.
  - vm_compute. reflexivity.
  - right. left. reflexivity.
Defined.

Section Part7.

Context {summation : Summation}.

(** ** The block length is exactly 40% of the sample rate *)

(** A count below [2^53] converts to a float without rounding. *)
Lemma Z2F_exact (p : positive) :
  Zpos p < 2 ^ 53 ->
  exists m,
    Z2F (Zpos p) = S754_finite false m (Zdigits2 (Zpos p) - 53)
    /\ bounded64 m (Zdigits2 (Zpos p) - 53) = true
    /\ Zpos m = Zpos p * 2 ^ (53 - Zdigits2 (Zpos p)).
Proof.
  intros Hp. unfold Z2F. cbn [binary_normalize]. unfold binary_round.
  pose proof (shl_align_spec p 0 (fexp64 (Zpos (digits2_pos p) + 0))) as H.
  change (Zpos (digits2_pos p)) with (Zdigits2 (Zpos p)) in *.
  set (d := Zdigits2 (Zpos p)) in *.
  assert (Hd : 1 <= d <= 53).
  { split; [unfold d; cbn; lia |]. apply Zdigits2_lt_pow; lia. }
  destruct (shl_align p 0 _) as [mz ez]. destruct H as [Hmz Hez].
  rewrite fexp64_eq in Hez.
  assert (Hez' : ez = d - 53) by lia. clear Hez. subst ez.
  replace (0 - (d - 53)) with (53 - d) in Hmz by lia.
  assert (Hdz : Zdigits2 (Zpos mz) = 53).
  { rewrite Hmz, Zdigits2_mul_pow2 by lia. fold d. lia. }
  pose proof (round64_exact false (Zpos mz) 1 (d - 53) ltac:(lia) ltac:(lia))
    as Hex.
  rewrite Z.div_1_r, Hdz in Hex.
  assert (HE : fexp64 (53 + (d - 53)) = d - 53) by (rewrite fexp64_eq; lia).
  rewrite HE in Hex. specialize (Hex ltac:(lia)). cbv zeta in Hex.
  replace (loc_of (Zpos mz) 1) with loc_Exact in Hex
    by (unfold loc_of; rewrite Z.mod_1_r; reflexivity).
  rewrite Z.sub_diag, Z.mul_1_l in Hex. change (2 ^ 0) with 1 in Hex.
  rewrite <- (Z.mul_1_r (Zpos mz)) in Hex at 2.
  rewrite rne_exact in Hex by lia.
  rewrite Hex. exists mz.
  pose proof (Zdigits2_pos_bounds mz) as [Hlo Hhi]. rewrite Hdz in Hlo, Hhi.
  unfold pack.
  destruct (Z.eqb_spec (Zpos mz) (2 ^ 53)) as [Hc | _]; [lia |].
  destruct (Z.leb_spec (d - 53) 971) as [_ | Hc]; [| lia].
  split; [reflexivity |]. split; [| exact Hmz].
  apply bounded64_intro; [| lia]. rewrite Hdz. exact HE.
Qed.

(** [int()] of a packed positive float with a non-positive exponent. *)
Lemma py_int_pack (M E : Z) :
  0 <= M <= 2 ^ 53 -> -1074 <= E <= 0 ->
  py_int (pack false M E) = Ok (M / 2 ^ (- E)).
Proof.
  intros HM HE. unfold pack.
  assert (HW : 0 < 2 ^ (- E)) by (apply pow2_pos; lia).
  destruct M as [| p | p]; [| | lia].
  - cbn [py_int]. rewrite Z.div_0_l by lia. reflexivity.
  - destruct (Z.eqb_spec (Zpos p) (2 ^ 53)) as [Hc | _].
    + destruct (Z.leb_spec (E + 1) 971) as [_ | ?]; [| lia].
      cbn [py_int]. rewrite Hc. f_equal.
      destruct (E + 1) as [| k | k] eqn:Ek.
      * replace (- E) with 1 by lia. reflexivity.
      * assert (E = 0) by lia. subst E.
        replace (Zpos k) with 1 by lia. reflexivity.
      * replace (- E) with (1 + Zpos k) by lia.
        rewrite pow2_split by lia.
        change (2 ^ 53) with (2 ^ 1 * Zpos 4503599627370496).
        rewrite Z.div_mul_cancel_l; [reflexivity | | lia].
        apply Z.neq_sym, Z.lt_neq, pow2_pos. lia.
    + destruct (Z.leb_spec E 971) as [_ | ?]; [| lia].
      cbn [py_int]. f_equal. destruct E as [| k | k]; [| lia |].
      * change (2 ^ (- 0)) with 1. rewrite Z.div_1_r. cbn. lia.
      * reflexivity.
Qed.

Lemma block_length_of_value (sr : Z) :
  0 <= sr < 2 ^ 50 -> block_length_of sr = Ok (2 * sr / 5).
Proof.
  intros [Hsr0 Hsr]. destruct sr as [| p | p]; [reflexivity | | lia].
  destruct (Z2F_exact p ltac:(lia)) as [m [HZ [Hb Hm]]].
  unfold block_length_of, py_float_of_int. rewrite HZ. cbn [bind].
  set (d := Zdigits2 (Zpos p)) in *.
  assert (Hd : 1 <= d <= 50).
  { split; [unfold d; cbn; lia |]. apply Zdigits2_lt_pow; lia. }
  pose proof (Zdigits2_pos_bounds p) as [Hplo Hphi]. fold d in Hplo, Hphi.
  assert (H04 : exists m4, f0_4 = S754_finite false m4 (-54)
                           /\ Zpos m4 * 5 = 2 * 2 ^ 54 + 2
                           /\ Zdigits2 (Zpos m4) = 53)
    by (eexists; repeat split; vm_compute; reflexivity).
  destruct H04 as [m4 [-> [Hm4 Hd4]]].
  unfold fmul, SFmul. cbn [xorb].
  set (k := 53 - d) in *.
  assert (Hdm : Zdigits2 (Zpos m) = 53).
  { rewrite Hm, Zdigits2_mul_pow2 by lia. fold d. lia. }
  pose proof (Zdigits2_mul m4 m) as HdN. rewrite Hd4, Hdm in HdN.
  set (N := Zpos (m4 * m)) in *.
  assert (HN : N = Zpos m4 * Zpos p * 2 ^ k).
  { unfold N. rewrite Pos2Z.inj_mul, Hm. ring. }
  replace (-54 + (d - 53)) with (- 54 - k) by lia.
  pose proof (round64_exact false N 1 (- 54 - k) ltac:(lia) ltac:(lia)) as Hex.
  rewrite Z.div_1_r in Hex.
  set (E := fexp64 (Zdigits2 N + (- 54 - k))) in *.
  assert (HE : d - 55 <= E <= d - 54).
  { unfold E. rewrite fexp64_eq. lia. }
  specialize (Hex ltac:(lia)). cbv zeta in Hex.
  replace (loc_of N 1) with loc_Exact in Hex
    by (unfold loc_of; rewrite Z.mod_1_r; reflexivity).
  rewrite Z.mul_1_l in Hex. rewrite Hex. clear Hex.
  set (U := 2 ^ (E - (- 54 - k))). set (W := 2 ^ (- E)).
  set (q := 2 * Zpos p / 5).
  assert (Hq : 5 * q <= 2 * Zpos p <= 5 * q + 4).
  { unfold q. pose proof (Z.div_mod (2 * Zpos p) 5 ltac:(lia)).
    pose proof (Z.mod_pos_bound (2 * Zpos p) 5 ltac:(lia)). lia. }
  assert (HU : 0 < U) by (apply pow2_pos; lia).
  assert (HW : 0 < W) by (apply pow2_pos; lia).
  assert (HK : 0 < 2 ^ k) by (apply pow2_pos; lia).
  assert (HWU : W * U = 2 ^ 54 * 2 ^ k).
  { unfold W, U. rewrite <- !pow2_split by lia. f_equal. lia. }
  assert (HU' : U = 2 ^ (E + 54) * 2 ^ k).
  { unfold U. rewrite <- pow2_split by lia. f_equal. lia. }
  assert (HE54 : 0 < 2 ^ (E + 54) <= 2 * Zpos p).
  { split; [apply pow2_pos; lia |].
    apply Z.le_trans with (2 ^ d); [apply Z.pow_le_mono_r; lia |].
    replace d with (1 + (d - 1)) by lia. rewrite pow2_split by lia. lia. }
  (* the rounded mantissa lies between q * W and (q + 1) * W - 1 *)
  assert (HM : q * W <= rne N U <= (q + 1) * W - 1).
  { apply rne_bounds; [assumption | |].
    - rewrite <- Z.mul_assoc, HWU, HN.
      rewrite !Z.mul_assoc. apply Z.mul_le_mono_nonneg_r; [lia |]. nia.
    - replace (((q + 1) * W - 1) * U) with ((q + 1) * (W * U) - U) by ring.
      rewrite HWU, HU', HN.
      enough (Zpos m4 * Zpos p + 2 ^ (E + 54) <= (q + 1) * 2 ^ 54) by nia.
      nia. }
  assert (HM53 : 0 <= rne N U <= 2 ^ 53).
  { assert (HUd : 2 ^ 53 * U = 2 ^ Zdigits2 N).
    { unfold U. rewrite <- pow2_split by lia. f_equal.
      unfold E. rewrite fexp64_eq. lia. }
    pose proof (Zdigits2_bounds N ltac:(unfold N; lia)) as [_ HNhi].
    apply rne_bounds; [assumption | lia | lia]. }
  rewrite py_int_pack by lia. f_equal. fold W.
  symmetry. apply Z.div_unique with (rne N U - q * W); lia.
Qed.

(** X4: for a sample rate below 2^50 the block length [int(0.4 * sr)] is
    exactly the integer part of [2 * sr / 5]: neither the binary64 value of
    0.4 (slightly above 2/5) nor the rounding of the product moves it
    across an integer. At 44100 Hz a block is 17640 samples. *)
Theorem block_length_exact (sr : Z) :
  0 <= sr < 2 ^ 50 -> block_length_of sr = Ok (2 * sr / 5).
Proof.
  exact (block_length_of_value sr).
Qed.

Lemma block_length_exact_witness : block_length_of 44100 = Ok (2 * 44100 / 5).
Proof. apply (block_length_exact 44100). lia. Defined.

(** ** LoudnessEstimator: the whole-signal fallback *)

Lemma below_floor_not_above (v : float) :
  flt v fneg70 = true -> flt f0 v = false.
Proof.
  destruct v as [[] | [] | | [] m e]; try discriminate; reflexivity.
Qed.

(** What [max(min(v, 0.0), -70.0)] is: the floor below -70, the ceiling
    above 0, and [v] itself otherwise, a NaN included. *)
Lemma clamp_lufs_cases (v : float) :
  (flt v fneg70 = true -> clamp_lufs v = fneg70)
  /\ (flt f0 v = true -> clamp_lufs v = f0)
  /\ (flt v fneg70 = false -> flt f0 v = false -> clamp_lufs v = v).
Proof.
  unfold clamp_lufs, py_min, py_max, fgt. fold (flt f0 v).
  split; [| split].
  - intros Hlo. rewrite (below_floor_not_above v Hlo).
    fold (flt v fneg70). now rewrite Hlo.
  - intros Hhi. rewrite Hhi. reflexivity.
  - intros Hlo Hhi. rewrite Hhi. fold (flt v fneg70). now rewrite Hlo.
Qed.

(** C6: a non-empty buffer with fewer samples than one block, of
    [int(0.4 * sr)] samples (the integer part of [2 * sr / 5] for a rate
    below 2^50), takes the whole-signal fallback. With [rms] the root of
    the mean square of the whole buffer, the squares added up in whatever
    order numpy adds them, and [v = 20 * log10(rms + 1e-8) - 10], the
    result is [v] clamped to [-70, 0]: -70.0 if [v] is below -70, 0.0 if it
    is above 0, and [v] itself otherwise; it lies in [-70.0, 0.0] unless
    [v] is a NaN. *)
Theorem calculate_lufs_short_buffer
  (log10 : float -> float) (y : list float) (sr block_length : Z) :
  y <> [] ->
  block_length_of sr = Ok block_length ->
  Z.of_nat (List.length y) < block_length ->
  (0 <= sr < 2 ^ 50 -> block_length = 2 * sr / 5)
  /\ exists s : float,
       adds_up (map (fun x => fmul x x) y) s
       /\ let rms := fsqrt (fdiv s (Z2F (Z.of_nat (List.length y)))) in
          let v := fsub (fmul f20 (log10 (fadd rms f1e_8))) f10 in
          let r := calculate_lufs log10 y sr in
          (flt v fneg70 = true -> r = fneg70)
          /\ (flt f0 v = true -> r = f0)
          /\ (flt v fneg70 = false -> flt f0 v = false -> r = v)
          /\ (is_nan v = false -> fle fneg70 r = true /\ fle r f0 = true).
Proof.
  intros Hy Hbl Hn. split.
  { intros Hsr. pose proof (block_length_of_value sr Hsr) as E.
    rewrite Hbl in E. congruence. }
  exists (np_sum Flat (map (fun x => fmul x x) y)).
  split; [apply np_sum_adds_up |]. cbv zeta.
  set (v := fsub (fmul f20 (log10 (fadd (fsqrt (fdiv _ _)) f1e_8))) f10).
  assert (E : calculate_lufs log10 y sr = clamp_lufs v).
  { unfold calculate_lufs, calculate_lufs_body.
    destruct y as [| x0 y0] eqn:Ey; [congruence |]. rewrite <- Ey in *.
    replace (List.length y =? 0)%nat with false by (rewrite Ey; reflexivity).
    cbv iota. rewrite Hbl. cbn [bind].
    apply Z.ltb_lt in Hn. rewrite Hn. cbn [catch].
    unfold to_db, rms_of, np_mean. rewrite length_map.
    unfold v. rewrite Ey. reflexivity. }
  rewrite E. destruct (clamp_lufs_cases v) as (H1 & H2 & H3).
  split; [exact H1 |]. split; [exact H2 |]. split; [exact H3 |].
  apply clamp_lufs_range.
Qed.

End Part7.

Lemma calculate_lufs_short_buffer_witness :
  (0 <= 44100 < 2 ^ 50 -> 17640 = 2 * 44100 / 5)
  /\ exists s : float,
       adds_up (map (fun x => fmul x x) [f1; f0_5; f1; f0_5]) s
       /\ let rms := fsqrt (fdiv s (Z2F (Z.of_nat 4))) in
          let v := fsub (fmul f20 (log10_ref (fadd rms f1e_8))) f10 in
          let r := calculate_lufs log10_ref [f1; f0_5; f1; f0_5] 44100 in
          (flt v fneg70 = true -> r = fneg70)
          /\ (flt f0 v = true -> r = f0)
          /\ (flt v fneg70 = false -> flt f0 v = false -> r = v)
          /\ (is_nan v = false -> fle fneg70 r = true /\ fle r f0 = true).
Proof.
  apply (calculate_lufs_short_buffer log10_ref [f1; f0_5; f1; f0_5]
           44100 17640).
  - discriminate.
  - vm_compute. reflexivity.
  - vm_compute. reflexivity.
Defined.

Section Part8.

Context {summation : Summation}.

(** ** The duration [analyze_audio] reports *)

Lemma loc_of_scale (c N D : Z) :
  0 < c -> 0 < D -> loc_of (c * N) (c * D) = loc_of N D.
Proof.
  intros Hc HD. unfold loc_of.
  rewrite Zmult_mod_distr_l by lia.
  assert (E1 : (c * (N mod D) =? 0) = (N mod D =? 0)).
  { destruct (Z.eqb_spec (N mod D) 0) as [-> | Hne].
    - rewrite Z.mul_0_r. reflexivity.
    - apply Z.eqb_neq. nia. }
  rewrite E1.
  assert (E2 : (2 * (c * (N mod D)) ?= c * D) = (2 * (N mod D) ?= D)).
  { replace (2 * (c * (N mod D))) with (c * (2 * (N mod D))) by ring.
    symmetry. apply Zmult_compare_compat_l. lia. }
  rewrite E2. reflexivity.
Qed.

Lemma div_core_unfold (m1 m2 : positive) (e1 e2 : Z) :
  let e' := Z.min (fexp64 (Zdigits2 (Zpos m1) + e1
                           - (Zdigits2 (Zpos m2) + e2))) (e1 - e2) in
  let m' := Zpos m1 * 2 ^ (e1 - e2 - e') in
  SFdiv_core_binary prec emax (Zpos m1) e1 (Zpos m2) e2
  = (m' / Zpos m2, e', loc_of m' (Zpos m2)).
Proof.
  intros e' m'. unfold SFdiv_core_binary. fold e'.
  set (s := e1 - e2 - e') in *.
  assert (Hs : 0 <= s) by (unfold s, e'; lia).
  assert (Hm' : match s with
                | 0 => Zpos m1
                | Zpos _ => Z.shiftl (Zpos m1) s
                | Zneg _ => 0
                end = m').
  { unfold m'. destruct s as [| p | p]; [| | lia].
    - rewrite Z.mul_1_r. reflexivity.
    - rewrite Z.shiftl_mul_pow2 by lia. reflexivity. }
  rewrite Hm'.
  assert (Hq : fst (Z.div_eucl m' (Zpos m2)) = m' / Zpos m2) by reflexivity.
  assert (Hr : snd (Z.div_eucl m' (Zpos m2)) = m' mod Zpos m2) by reflexivity.
  destruct (Z.div_eucl m' (Zpos m2)) as [q r]. cbn [fst snd] in Hq, Hr.
  subst q r. rewrite new_location_loc by lia. reflexivity.
Qed.

(** Dividing the floats of two counts below [2^53] gives the correctly
    rounded quotient of the counts, as Python's [n / d] on ints does. *)
Lemma fdiv_Z2F (n d : positive) :
  Zpos n < 2 ^ 53 -> Zpos d < 2 ^ 53 ->
  fdiv (Z2F (Zpos n)) (Z2F (Zpos d))
  = fdiv (Z2F_raw (Zpos n)) (Z2F_raw (Zpos d)).
Proof.
  intros Hn Hd.
  destruct (Z2F_exact n Hn) as [m1 [-> [_ Hm1]]].
  destruct (Z2F_exact d Hd) as [m2 [-> [_ Hm2]]].
  set (dn := Zdigits2 (Zpos n)) in *. set (dd := Zdigits2 (Zpos d)) in *.
  assert (Hdn : 1 <= dn <= 53).
  { split; [unfold dn; cbn; lia |]. apply Zdigits2_lt_pow; lia. }
  assert (Hdd : 1 <= dd <= 53).
  { split; [unfold dd; cbn; lia |]. apply Zdigits2_lt_pow; lia. }
  assert (Hd1 : Zdigits2 (Zpos m1) = 53).
  { rewrite Hm1, Zdigits2_mul_pow2 by lia. fold dn. lia. }
  assert (Hd2 : Zdigits2 (Zpos m2) = 53).
  { rewrite Hm2, Zdigits2_mul_pow2 by lia. fold dd. lia. }
  cbn [Z2F_raw]. unfold fdiv, SFdiv.
  rewrite (div_core_unfold m1 m2 (dn - 53) (dd - 53)).
  rewrite (div_core_unfold n d 0 0).
  rewrite Hd1, Hd2. fold dn dd.
  assert (HF : fexp64 (53 + (dn - 53) - (53 + (dd - 53))) = dn - dd - 53)
    by (rewrite fexp64_eq; lia).
  assert (HF' : fexp64 (dn + 0 - (dd + 0)) = dn - dd - 53)
    by (rewrite fexp64_eq; lia).
  rewrite HF, HF'.
  replace (Z.min (dn - dd - 53) (dn - 53 - (dd - 53))) with (dn - dd - 53)
    by lia.
  replace (Z.min (dn - dd - 53) (0 - 0)) with (dn - dd - 53) by lia.
  replace (dn - 53 - (dd - 53) - (dn - dd - 53)) with 53 by lia.
  replace (0 - 0 - (dn - dd - 53)) with (53 - dn + dd) by lia.
  set (c := 2 ^ (53 - dd)).
  assert (Hc : 0 < c) by (apply pow2_pos; lia).
  assert (HN : Zpos m1 * 2 ^ 53 = c * (Zpos n * 2 ^ (53 - dn + dd))).
  { transitivity (Zpos n * 2 ^ (106 - dn)).
    - rewrite Hm1, <- Z.mul_assoc, <- pow2_split by lia.
      f_equal. f_equal. lia.
    - unfold c.
      replace (2 ^ (53 - dd) * (Zpos n * 2 ^ (53 - dn + dd)))
        with (Zpos n * (2 ^ (53 - dd) * 2 ^ (53 - dn + dd))) by ring.
      rewrite <- pow2_split by lia. f_equal. f_equal. lia. }
  assert (HD : Zpos m2 = c * Zpos d) by (rewrite Hm2; unfold c; ring).
  rewrite HN, HD.
  rewrite Z.div_mul_cancel_l by lia.
  rewrite loc_of_scale by lia.
  reflexivity.
Qed.

Lemma analyze_duration_value (y : list float) (sr : Z) :
  Z.of_nat (List.length y) < 2 ^ 53 -> sr < 2 ^ 53 ->
  analyze_duration y sr = Ok (get_duration (Some y) sr).
Proof.
  intros Hn Hsr. unfold analyze_duration.
  destruct (Z.ltb_spec 0 sr) as [Hpos | Hle].
  - destruct (get_duration_value y sr Hpos ltac:(lia)) as [Hv Hen].
    rewrite Hv in *.
    destruct sr as [| d | d]; try lia.
    destruct (Z2F_exact d Hsr) as [md [HZd _]].
    unfold py_float_of_int at 2. rewrite HZd.
    destruct (Z.of_nat (List.length y)) as [| p | p] eqn:En; [| | lia].
    + cbn. reflexivity.
    + destruct (Z2F_exact p Hn) as [mp [HZp _]].
      unfold py_float_of_int. rewrite HZp. cbn [bind py_float_div].
      rewrite <- HZp, <- HZd, fdiv_Z2F by assumption.
      rewrite (energy_not_nan _ Hen), (energy_flt_f0 _ Hen). reflexivity.
  - cbn [bind]. unfold get_duration, get_duration_body.
    destruct (Z.leb_spec sr 0) as [_ | ?]; [reflexivity | lia].
Qed.

(** X5: the duration [analyze_audio] computes inline,
    [float(len(y)) / float(sr)] with its guards, is the value
    [get_duration(y, sr)] returns, for every buffer and sample rate below
    2^53: dividing the two floats rounds once, like the division of the
    two ints. *)
Theorem analyze_duration_agrees (y : list float) (sr : Z) :
  Z.of_nat (List.length y) < 2 ^ 53 -> sr < 2 ^ 53 ->
  analyze_duration y sr = Ok (get_duration (Some y) sr).
Proof. intros Hn Hsr. now apply analyze_duration_value. Qed.

Lemma analyze_duration_agrees_witness :
  analyze_duration [f1; f0_5; f1] 8 = Ok (get_duration (Some [f1; f0_5; f1]) 8).
Proof.
  apply (analyze_duration_agrees [f1; f0_5; f1] 8); cbn; lia.
Defined.

(** ** A non-finite energy gives the sentinel *)

Lemma fadd_not_finite (x y : float) :
  is_finite x = false \/ is_finite y = false ->
  is_finite (fadd x y) = false.
Proof.
  destruct x as [[] | [] | | [] mx ex], y as [[] | [] | | [] my ey];
    cbn [is_finite]; intros [H | H]; try discriminate H; reflexivity.
Qed.

Lemma fdiv_not_finite (x y : float) :
  is_finite x = false -> is_finite (fdiv x y) = false.
Proof.
  destruct x as [[] | [] | | [] mx ex], y as [[] | [] | | [] my ey];
    cbn [is_finite]; intros H; try discriminate H; reflexivity.
Qed.

Lemma np_mean_not_finite (r : reduction) (row : list float) :
  Exists (fun x => is_finite x = false) row ->
  is_finite (np_mean r row) = false.
Proof.
  intros H. unfold np_mean. apply fdiv_not_finite.
  exact (adds_up_absorbing (fun x => is_finite x = false) fadd_not_finite
           row _ (np_sum_adds_up r row) H).
Qed.

(** X7: one entry of the chromagram that is not finite (a NaN or an
    infinity of either sign), in any row and frame, makes the mean of its
    row not finite, the normalisation raises, and [estimate_key] returns
    the sentinel ("Unknown", 0.0). *)
Theorem estimate_key_not_finite (chroma : list (list float)) :
  Exists (Exists (fun x => is_finite x = false)) chroma ->
  estimate_key chroma = ("Unknown"%string, f0).
Proof.
  intros Hex. unfold estimate_key, estimate_key_body, normalize.
  assert (Hf : forallb is_finite (map (np_mean Axis1) chroma) = false).
  { apply Exists_exists in Hex as (row & Hin & Hrow).
    destruct (forallb is_finite (map (np_mean Axis1) chroma)) eqn:E; [| reflexivity].
    rewrite forallb_forall in E.
    specialize (E (np_mean Axis1 row) (in_map (np_mean Axis1) _ _ Hin)).
    rewrite (np_mean_not_finite _ row Hrow) in E. discriminate E. }
  rewrite Hf. reflexivity.
Qed.

End Part8.

Lemma estimate_key_not_finite_witness :
  estimate_key ([f1; finf; f0_5] :: one_frame major_template)
  = ("Unknown"%string, f0).
Proof.
  apply (estimate_key_not_finite ([f1; finf; f0_5] :: one_frame major_template)).
  apply Exists_cons_hd. apply Exists_cons_tl. apply Exists_cons_hd.
  reflexivity.
Defined.

Section Part9.

Context {summation : Summation}.

(** ** Comparisons of finite floats are comparisons of their values *)

Lemma compare_canonical (m1 m2 : positive) (e1 e2 : Z) :
  bounded64 m1 e1 = true -> bounded64 m2 e2 = true ->
  match e1 ?= e2 with
  | Lt => Lt
  | Gt => Gt
  | Eq => Pos.compare_cont Eq m1 m2
  end = (Zpos m1 * 2 ^ (e1 + 1074) ?= Zpos m2 * 2 ^ (e2 + 1074)).
Proof.
  intros H1 H2.
  pose proof (bounded64_mag _ _ H1) as (He1 & Hd1 & Hn1).
  pose proof (bounded64_mag _ _ H2) as (He2 & Hd2 & Hn2).
  pose proof (Zdigits2_pos_bounds m1) as [Hlo1 Hhi1].
  pose proof (Zdigits2_pos_bounds m2) as [Hlo2 Hhi2].
  assert (Hlt : forall (ma mb : positive) (ea eb : Z),
            -1074 <= ea < eb -> Zpos ma < 2 ^ 53 -> 2 ^ 52 <= Zpos mb ->
            Zpos ma * 2 ^ (ea + 1074) < Zpos mb * 2 ^ (eb + 1074)).
  { intros ma mb ea eb Hab Ha Hb.
    assert (HU : 0 < 2 ^ (ea + 1074)) by (apply pow2_pos; lia).
    replace (eb + 1074) with (eb - ea + (ea + 1074)) by lia.
    rewrite (pow2_split (eb - ea) (ea + 1074)) by lia.
    assert (2 ^ 1 <= 2 ^ (eb - ea)) by (apply Z.pow_le_mono_r; lia).
    change (2 ^ 1) with 2 in *. change (2 ^ 53) with (2 * 2 ^ 52) in Ha.
    assert (Zpos ma < Zpos mb * 2 ^ (eb - ea)) by nia.
    rewrite Z.mul_assoc. apply Z.mul_lt_mono_pos_r; assumption. }
  assert (Hsmall : forall (m : positive), Zdigits2 (Zpos m) <= 53 ->
            Zpos m < 2 ^ 53).
  { intros m Hd. pose proof (Zdigits2_pos_bounds m) as [_ Hhi].
    assert (2 ^ Zdigits2 (Zpos m) <= 2 ^ 53)
      by (apply Z.pow_le_mono_r; [lia | exact Hd]).
    lia. }
  destruct (Z.compare_spec e1 e2) as [-> | Hl | Hg].
  - rewrite compare_cont_Eq.
    assert (HU : 0 < 2 ^ (e2 + 1074)) by (apply pow2_pos; lia).
    rewrite <- Zmult_compare_compat_r by lia. reflexivity.
  - symmetry. apply Z.compare_lt_iff.
    apply Hlt; [lia | now apply Hsmall |].
    destruct Hn2 as [Hn2 | Hn2]; [| lia].
    rewrite Hn2 in Hlo2. exact Hlo2.
  - symmetry. apply Z.compare_gt_iff.
    apply Hlt; [lia | now apply Hsmall |].
    destruct Hn1 as [Hn1 | Hn1]; [| lia].
    rewrite Hn1 in Hlo1. exact Hlo1.
Qed.

Lemma SFcompare_scaled (x y : float) :
  fin 1024 x -> fin 1024 y ->
  SFcompare x y = Some (scaled x ?= scaled y).
Proof.
  destruct x as [sx | sx | | sx mx ex]; try contradiction;
    destruct y as [sy | sy | | sy my ey]; try contradiction.
  - reflexivity.
  - intros _ [Hb _]. pose proof (bounded64_mag _ _ Hb) as [He _].
    assert (0 < 2 ^ (ey + 1074)) by (apply pow2_pos; lia).
    cbn [SFcompare scaled]. f_equal. symmetry.
    destruct sy; [apply Z.compare_gt_iff | apply Z.compare_lt_iff]; nia.
  - intros [Hb _] _. pose proof (bounded64_mag _ _ Hb) as [He _].
    assert (0 < 2 ^ (ex + 1074)) by (apply pow2_pos; lia).
    cbn [SFcompare scaled]. f_equal. symmetry.
    destruct sx; [apply Z.compare_lt_iff | apply Z.compare_gt_iff]; nia.
  - intros [Hbx _] [Hby _].
    pose proof (bounded64_mag _ _ Hbx) as [Hex _].
    pose proof (bounded64_mag _ _ Hby) as [Hey _].
    assert (0 < 2 ^ (ex + 1074)) by (apply pow2_pos; lia).
    assert (0 < 2 ^ (ey + 1074)) by (apply pow2_pos; lia).
    pose proof (compare_canonical mx my ex ey Hbx Hby) as Hc.
    cbn [SFcompare scaled]. f_equal.
    destruct sx, sy.
    + replace (Zneg mx * 2 ^ (ex + 1074) ?= Zneg my * 2 ^ (ey + 1074))
        with (CompOpp (Zpos mx * 2 ^ (ex + 1074) ?= Zpos my * 2 ^ (ey + 1074))).
      * rewrite <- Hc. destruct (ex ?= ey); reflexivity.
      * rewrite <- Z.compare_antisym, <- Z.compare_opp. f_equal; lia.
    + symmetry. apply Z.compare_lt_iff. nia.
    + symmetry. apply Z.compare_gt_iff. nia.
    + exact Hc.
Qed.

Lemma fle_scaled (x y : float) :
  fin 1024 x -> fin 1024 y ->
  fle x y = true <-> scaled x <= scaled y.
Proof.
  intros Hx Hy. unfold fle, SFleb. rewrite (SFcompare_scaled x y Hx Hy).
  destruct (Z.compare_spec (scaled x) (scaled y)); split; intros;
    try reflexivity; try discriminate; lia.
Qed.

(** ** A well-formed chromagram never gets the sentinel *)

Lemma np_mean_finite (r : reduction) (k : Z) (row : list float) :
  row <> [] -> Z.of_nat (List.length row) < 2 ^ 53 ->
  -1021 <= k <= 970 -> Forall (fin k) row ->
  is_finite (np_mean r row) = true.
Proof.
  intros Hne Hlen Hk Hrow. unfold np_mean.
  assert (Hn : 0 < Z.of_nat (List.length row) < 2 ^ 53).
  { destruct row; [congruence | cbn [List.length] in *; lia]. }
  destruct (Z2F_count _ Hn) as [Hcnt _].
  assert (Hsum : fin (k + 53) (np_sum r row)).
  { assert (Hrow' : Forall (fun d => fin k d \/ d = finf) row).
    { revert Hrow. apply Forall_impl. intros x Hx. now left. }
    destruct (adds_up_count k row _ ltac:(lia) (np_sum_adds_up r row)
                ltac:(lia) Hrow') as [[_ He] | [Hf Hs]].
    - exfalso. apply Exists_exists in He as (x & Hin & <-).
      rewrite Forall_forall in Hrow. exact (Hrow _ Hin).
    - apply scaled_fin; [assumption |].
      replace (k + 53 + 1074) with (53 + (k + 1074)) by lia.
      rewrite (pow2_split 53 (k + 1074)) by lia.
      assert (0 < 2 ^ (k + 1074)) by (apply pow2_pos; lia).
      nia. }
  pose proof (fdiv_fin (k + 53) 1 _ _ ltac:(lia) Hsum Hcnt) as Hq.
  destruct (fdiv _ _); cbn in Hq |- *; tauto.
Qed.

Lemma unit_energy_fin (x : float) :
  energy x -> fle x f1 = true -> fin 1 x.
Proof.
  intros Hx Hle. pose proof (proj1 (energy_fin x) Hx) as [Hf Hn].
  assert (H1 : fin 1024 f1) by (split; [reflexivity | cbn; lia]).
  apply (fle_scaled x f1 Hf H1) in Hle.
  change (scaled f1) with (2 ^ 1074) in Hle.
  apply scaled_fin; [exact Hf |].
  assert (H0 : 0 <= scaled x).
  { destruct x as [s | s | | [] m e]; cbn [nonneg] in Hn; try tauto.
    - cbn. lia.
    - rewrite scaled_finite. cbn [cond_Zopp].
      destruct Hf as [Hb _]. pose proof (bounded64_mag _ _ Hb) as [He _].
      assert (0 < 2 ^ (e + 1074)) by (apply pow2_pos; lia). lia. }
  rewrite Z.abs_eq by exact H0.
  change (1 + 1074) with (1 + 1074). rewrite (pow2_split 1 1074) by lia.
  change (2 ^ 1) with 2.
  assert (0 < 2 ^ 1074) by (apply pow2_pos; lia). lia.
Qed.

(** X6: the sentinel is for malformed input only. For a chromagram of
    twelve rows, each with at least one frame (and fewer than 2^53) of
    energies from 0.0 to 1.0, the range of the entries of a chromagram
    that [chroma_cqt] has normalised, [estimate_key] returns one of the 24
    key names, a pitch class or a pitch class followed by "m", never
    "Unknown". *)
Theorem estimate_key_names_a_key (chroma : list (list float)) :
  List.length chroma = 12%nat ->
  Forall (fun row => row <> []
                     /\ Z.of_nat (List.length row) < 2 ^ 53
                     /\ Forall (fun x => energy x /\ fle x f1 = true) row)
         chroma ->
  In (fst (estimate_key chroma)) (key_names ++ minor_names).
Proof.
  intros Hrows Hch.
  assert (Havg : Forall energy (map (np_mean Axis1) chroma)).
  { rewrite Forall_map. revert Hch. apply Forall_impl.
    intros row (Hne & Hlen & Hrow).
    apply np_mean_energy.
    - revert Hrow. apply Forall_impl. now intros x [Hx _].
    - apply (np_mean_finite _ 1); [assumption | assumption | lia |].
      revert Hrow. apply Forall_impl. intros x [Hx H1].
      now apply unit_energy_fin. }
  assert (Hne : map (np_mean Axis1) chroma <> []).
  { destruct chroma; [discriminate Hrows | discriminate]. }
  destruct (normalize_energy _ Havg Hne) as (v & Hn & Hv).
  unfold estimate_key, estimate_key_body. rewrite Hn. cbn [bind].
  destruct templates_bounded as [Hmaj Hmin].
  destruct (correlations_bounded major_template v Hv Hmaj eq_refl)
    as [HM HMlen].
  destruct (correlations_bounded minor_template v Hv Hmin eq_refl)
    as [Hm Hmlen].
  set (major_corr := correlations major_template v) in *.
  set (minor_corr := correlations minor_template v) in *.
  destruct (np_argmax_bound major_corr) as (iM & EiM & HiM).
  { intros E. rewrite E in HMlen. discriminate HMlen. }
  destruct (np_argmax_bound minor_corr) as (im & Eim & Him).
  { intros E. rewrite E in Hmlen. discriminate Hmlen. }
  rewrite EiM, Eim. cbn [bind].
  destruct (second_best_bounded 28 major_corr iM HM ltac:(lia))
    as (sM & EsM & _).
  destruct (second_best_bounded 28 minor_corr im Hm ltac:(lia))
    as (sm & Esm & _).
  rewrite EsM, Esm. cbn [bind].
  destruct (fge (nth iM major_corr f0) (nth im minor_corr f0));
    cbn [catch fst]; apply in_or_app.
  - left. apply nth_In. cbn [key_names List.length]. lia.
  - right. unfold minor_names.
    apply (in_map (fun name => (name ++ "m")%string)).
    apply nth_In. cbn [key_names List.length]. lia.
Qed.

End Part9.

Lemma estimate_key_names_a_key_witness :
  In (fst (estimate_key (one_frame major_template))) (key_names ++ minor_names).
Proof.
  apply (estimate_key_names_a_key (one_frame major_template)).
  - reflexivity.
  - repeat (constructor;
            [split; [discriminate |];
             split; [cbn; lia |];
             repeat (constructor;
                     [split; [first [exact I | reflexivity]
                             | reflexivity] |]);
             constructor |]).
    constructor.
Defined.

Section Part10.

Context {summation : Summation}.

(** ** The response of [analyze_audio] *)

Example py_round1_examples :
  py_round1 f0_25 = f0_2 /\ py_round1 f0_35 = f0_3
  /\ py_round1 f125_64 = f125_6 /\ py_round1 fneg12_34 = fneg12_3
  /\ py_round1 f100 = f100 /\ py_round1 fneg70 = fneg70.
Proof. repeat split; vm_compute; reflexivity. Qed.

Lemma round64_opp (m e : Z) (l : location) :
  round64 true m e l = SFopp (round64 false m e l).
Proof.
  unfold binary_round_aux.
  destruct (shr_fexp prec emax m e l) as [mrs' e'].
  destruct (shr_fexp prec emax _ e' loc_Exact) as [mrs'' e''].
  destruct (shr_m mrs''); [reflexivity | | reflexivity].
  destruct (_ <=? _); reflexivity.
Qed.

Lemma fdiv_neg_num (p d : positive) :
  fdiv (Z2F_raw (Zneg p)) (Z2F_raw (Zpos d))
  = SFopp (fdiv (Z2F_raw (Zpos p)) (Z2F_raw (Zpos d))).
Proof.
  cbn [Z2F_raw]. unfold fdiv, SFdiv.
  destruct (SFdiv_core_binary prec emax (Zpos p) 0 (Zpos d) 0) as [[mz ez] lz].
  cbn [xorb]. apply round64_opp.
Qed.

Lemma scaled_opp (x : float) : scaled (SFopp x) = - scaled x.
Proof.
  destruct x as [s | s | | [] m e]; cbn [SFopp scaled negb]; try reflexivity.
  - rewrite <- Z.mul_opp_l. reflexivity.
  - rewrite <- Z.mul_opp_l. reflexivity.
Qed.

Lemma fin_opp (k : Z) (x : float) : fin k x -> fin k (SFopp x).
Proof. destruct x; cbn; tauto. Qed.

Lemma energy_scaled (x : float) : energy x -> 0 <= scaled x.
Proof.
  destruct x as [s | s | | [] m e]; cbn [energy scaled]; try tauto; lia.
Qed.

(** Rounding to one decimal keeps a value within a bound [B] that is a
    whole number, and keeps its sign. *)
Lemma py_round1_bound (v : float) (B : positive) :
  fin 1024 v -> Z.abs (scaled v) <= Zpos B * 2 ^ 1074 ->
  Zpos (B * 10) < 2 ^ 63 ->
  scaled (fdiv (Z2F_raw (Zpos (B * 10))) (Z2F_raw 10)) = Zpos B * 2 ^ 1074 ->
  fin 1024 (py_round1 v)
  /\ Z.abs (scaled (py_round1 v)) <= Zpos B * 2 ^ 1074
  /\ (0 <= scaled v -> 0 <= scaled (py_round1 v))
  /\ (scaled v <= 0 -> scaled (py_round1 v) <= 0).
Proof.
  intros Hv Hle HB Hq.
  assert (H1074 : 0 < 2 ^ 1074) by (apply pow2_pos; lia).
  destruct v as [s | s | | s m e]; try contradiction.
  - cbn [py_round1 scaled Z.abs] in *. repeat split; try exact I; lia.
  - destruct Hv as [Hb _]. pose proof (bounded64_mag _ _ Hb) as [He _].
    assert (HU : 0 < 2 ^ (e + 1074)) by (apply pow2_pos; lia).
    assert (HX : Zpos m * 2 ^ (e + 1074) <= Zpos B * 2 ^ 1074).
    { rewrite scaled_finite, Z.abs_mul, (Z.abs_eq (2 ^ _)) in Hle by lia.
      destruct s; exact Hle. }
    cbn [py_round1]. cbv zeta.
    set (r := rne (Zpos m * 10 * 2 ^ (e + 1074)) (2 ^ 1074)).
    assert (Hr : 0 <= r <= Zpos (B * 10)).
    { apply rne_bounds; [assumption | nia |].
      rewrite Pos2Z.inj_mul. nia. }
    assert (Hsign : forall q : Z, 0 <= q ->
              if s then scaled (S754_finite s m e) < 0 /\ - q <= 0
              else 0 < scaled (S754_finite s m e) /\ 0 <= q).
    { intros q Hq0. rewrite scaled_finite. destruct s; cbn [cond_Zopp]; nia. }
    destruct r as [| p | p] eqn:Er; [| | lia].
    + cbn [scaled Z.abs]. repeat split; try exact I; lia.
    + assert (Hp : (p <= B * 10)%positive) by (apply Pos2Z.pos_le_pos; lia).
      pose proof (int_div_float_mono p (B * 10) 10 Hp HB) as Hmono.
      rewrite Hq in Hmono.
      destruct (int_div_float_value p 10 ltac:(lia)) as (E & _ & Hen & _).
      pose proof (energy_scaled _ Hen) as Hq0.
      apply energy_fin in Hen as [Hfin _].
      specialize (Hsign _ Hq0).
      destruct s.
      * change (- Zpos p) with (Zneg p). rewrite fdiv_neg_num, scaled_opp.
        split; [now apply fin_opp |]. split; [lia |]. split; lia.
      * split; [exact Hfin |]. split; [lia |]. split; lia.
Qed.

Lemma py_round1_not_nan (x : float) :
  is_nan x = false -> is_nan (py_round1 x) = false.
Proof.
  destruct x as [s | s | | s m e]; try discriminate; try reflexivity.
  intros _. cbn [py_round1]. cbv zeta.
  destruct (rne _ _) as [| p | p]; [reflexivity | |].
  - destruct (fdiv_shape (if s then true else false) false
                (match (if s then - Zpos p else Zpos p) with
                 | Zpos q | Zneg q => q | Z0 => 1%positive end)
                10 0 0) as [k [_ Hr]].
    destruct s; cbn in Hr |- *;
      change (SFdiv prec emax) with fdiv; destruct Hr; reflexivity.
  - destruct (fdiv_shape (if s then false else true) false
                (match (if s then - Zneg p else Zneg p) with
                 | Zpos q | Zneg q => q | Z0 => 1%positive end)
                10 0 0) as [k [_ Hr]].
    destruct s; cbn in Hr |- *;
      change (SFdiv prec emax) with fdiv; destruct Hr; reflexivity.
Qed.

Lemma clamp_lufs_fin (v : float) :
  fin 1024 v \/ v = finf -> fin 1024 (clamp_lufs v).
Proof.
  assert (H70 : fin 1024 fneg70) by (split; [reflexivity | cbn; lia]).
  intros [Hv | ->]; [| exact I].
  unfold clamp_lufs, py_min, py_max.
  destruct (flt f0 v).
  - exact I.
  - destruct (fgt fneg70 v); [exact H70 | exact Hv].
Qed.

Lemma clamp_confidence_fin (c : float) :
  fin 1024 c -> fin 1024 (clamp_confidence c).
Proof.
  assert (H100 : fin 1024 f100) by (split; [reflexivity | cbn; lia]).
  intros Hc. unfold clamp_confidence, py_min, py_max.
  destruct (fgt f0 c).
  - exact I.
  - destruct (flt f100 c); [exact H100 | exact Hc].
Qed.

Lemma gated_loudness_fin (block_db : list float) :
  Z.of_nat (List.length block_db) < 2 ^ 53 ->
  Forall (fun d => fin 16 d \/ d = finf) block_db ->
  fin 1024 (gated_loudness block_db).
Proof.
  intros Hlen Hdb. unfold gated_loudness.
  assert (H70 : fin 1024 fneg70) by (split; [reflexivity | cbn; lia]).
  destruct (valid_blocks block_db); [exact H70 |].
  destruct (final_blocks block_db) eqn:E; [exact H70 |].
  rewrite <- E. apply clamp_lufs_fin.
  destruct (np_mean_db Flat (final_blocks block_db)) as [Hm | ->].
  - rewrite E. discriminate.
  - pose proof (filter_length _ (fun d => fgt d (relative_threshold_of block_db))
                  block_db) as Hle.
    unfold final_blocks. lia.
  - unfold final_blocks. now apply Forall_filter_incl.
  - left. apply (fin_weaken 72); [| lia].
    apply (fsub_fin 70); [lia | assumption |].
    cbn. split; [reflexivity | lia].
  - right. reflexivity.
Qed.

Section LoudnessValue.

Variable log10 : float -> float.
Hypothesis Hlog : log10_regular log10.

Lemma calculate_lufs_fin (y : list float) (sr : Z) :
  Forall finite_sample y -> Z.of_nat (List.length y) < 2 ^ 53 ->
  fin 1024 (calculate_lufs log10 y sr).
Proof.
  intros Hy Hlen.
  assert (H70 : fin 1024 fneg70) by (split; [reflexivity | cbn; lia]).
  assert (Hy' : Forall (fin 1024) y).
  { revert Hy. apply Forall_impl. exact finite_sample_fin. }
  unfold calculate_lufs, calculate_lufs_body.
  destruct y as [| x0 y0] eqn:Ey; [exact H70 |].
  rewrite <- Ey in *. replace (List.length y =? 0)%nat with false
    by (rewrite Ey; reflexivity).
  cbv iota.
  destruct (block_length_of sr) as [bl | e]; [| exact H70].
  cbn [bind].
  destruct (Z.of_nat (List.length y) <? bl).
  - cbn [catch]. apply clamp_lufs_fin.
    destruct (to_db_bounded log10 Hlog (rms_of Flat y)) as [Hd | ->].
    + apply rms_of_bounded; [rewrite Ey; discriminate | |]; assumption.
    + left. apply (fin_weaken 18); [| lia].
      apply (fsub_fin 16); [lia | assumption |].
      cbn. split; [reflexivity | lia].
    + right. reflexivity.
  - destruct (frame y bl (bl / 2)) as [blocks | e] eqn:Hfr; [| exact H70].
    cbn [bind catch].
    destruct (block_db_bounded log10 Hlog y bl blocks Hy' Hlen Hfr)
      as [Hc Hd].
    now apply gated_loudness_fin.
Qed.

End LoudnessValue.

Lemma estimate_key_confidence_fin (chroma : list (list float)) :
  Forall (Forall energy) chroma -> fin 1024 (snd (estimate_key chroma)).
Proof.
  intros Hch. unfold estimate_key, estimate_key_body.
  destruct (normalize (map (np_mean Axis1) chroma)) as [v | e] eqn:En; [| exact I].
  cbn [bind].
  assert (Hv : Forall (bounded_energy 2) v).
  { unfold normalize in En.
    destruct (forallb is_finite (map (np_mean Axis1) chroma)) eqn:Efin;
      [| discriminate En].
    assert (Havg : Forall energy (map (np_mean Axis1) chroma)).
    { rewrite forallb_forall in Efin. rewrite Forall_map.
      rewrite Forall_forall in *. intros row Hrow.
      apply np_mean_energy; [now apply Hch |].
      apply Efin. now apply in_map. }
    destruct (map (np_mean Axis1) chroma) as [| a rest] eqn:Eavg;
      [discriminate En |].
    destruct (normalize_energy (a :: rest) Havg ltac:(discriminate))
      as (v' & Hn & Hv').
    unfold normalize in Hn. rewrite Efin in Hn. cbn [negb] in Hn, En.
    rewrite En in Hn. injection Hn as ->. exact Hv'. }
  destruct templates_bounded as [Hmaj Hmin].
  destruct (correlations_bounded major_template v Hv Hmaj eq_refl)
    as [HM HMlen].
  destruct (correlations_bounded minor_template v Hv Hmin eq_refl)
    as [Hm Hmlen].
  set (major_corr := correlations major_template v) in *.
  set (minor_corr := correlations minor_template v) in *.
  destruct (np_argmax_bound major_corr) as (iM & EiM & HiM).
  { intros E. rewrite E in HMlen. discriminate HMlen. }
  destruct (np_argmax_bound minor_corr) as (im & Eim & Him).
  { intros E. rewrite E in Hmlen. discriminate Hmlen. }
  rewrite EiM, Eim. cbn [bind].
  destruct (second_best_bounded 28 major_corr iM HM ltac:(lia))
    as (sM & EsM & HsM).
  destruct (second_best_bounded 28 minor_corr im Hm ltac:(lia))
    as (sm & Esm & Hsm).
  rewrite EsM, Esm. cbn [bind].
  pose proof (nth_Forall _ major_corr iM HM HiM) as HbM.
  pose proof (nth_Forall _ minor_corr im Hm Him) as Hbm.
  destruct (fge (nth iM major_corr f0) (nth im minor_corr f0));
    cbn [catch snd]; apply clamp_confidence_fin;
    apply (fin_weaken 63); try lia; apply blend_fin; assumption.
Qed.

Lemma scaled_constants :
  scaled fneg70 = - 70 * 2 ^ 1074 /\ scaled f100 = 100 * 2 ^ 1074
  /\ scaled (fdiv (Z2F_raw (Zpos (70 * 10))) (Z2F_raw 10)) = 70 * 2 ^ 1074
  /\ scaled (fdiv (Z2F_raw (Zpos (100 * 10))) (Z2F_raw 10)) = 100 * 2 ^ 1074.
Proof. repeat split; vm_compute; reflexivity. Qed.

(** Rounding to one decimal keeps a loudness in [-70, 0] and a confidence
    in [0, 100]. *)
Lemma py_round1_loudness (v : float) :
  fin 1024 v -> fle fneg70 v = true -> fle v f0 = true ->
  fle fneg70 (py_round1 v) = true /\ fle (py_round1 v) f0 = true.
Proof.
  intros Hv Hlo Hhi.
  destruct scaled_constants as (H70 & _ & Hq & _).
  assert (Hf70 : fin 1024 fneg70) by (split; [reflexivity | cbn; lia]).
  apply (fle_scaled fneg70 v Hf70 Hv) in Hlo.
  apply (fle_scaled v f0 Hv I) in Hhi.
  rewrite H70 in Hlo. change (scaled f0) with 0 in Hhi.
  destruct (py_round1_bound v 70 Hv ltac:(lia) ltac:(reflexivity) Hq)
    as (Hr & Hb & _ & Hneg).
  specialize (Hneg Hhi). split.
  - apply (fle_scaled _ _ Hf70 Hr). rewrite H70. lia.
  - apply (fle_scaled _ f0 Hr I). exact Hneg.
Qed.

Lemma py_round1_confidence (c : float) :
  fin 1024 c -> fle f0 c = true -> fle c f100 = true ->
  fle f0 (py_round1 c) = true /\ fle (py_round1 c) f100 = true.
Proof.
  intros Hc Hlo Hhi.
  destruct scaled_constants as (_ & H100 & _ & Hq).
  assert (Hf100 : fin 1024 f100) by (split; [reflexivity | cbn; lia]).
  apply (fle_scaled f0 c I Hc) in Hlo.
  apply (fle_scaled c f100 Hc Hf100) in Hhi.
  rewrite H100 in Hhi. change (scaled f0) with 0 in Hlo.
  destruct (py_round1_bound c 100 Hc ltac:(lia) ltac:(reflexivity) Hq)
    as (Hr & Hb & Hpos & _).
  specialize (Hpos Hlo). split.
  - apply (fle_scaled f0 _ I Hr). exact Hpos.
  - apply (fle_scaled _ _ Hr Hf100). rewrite H100. lia.
Qed.

(** X8: what [analyze_audio] reports once the file is loaded. An empty
    buffer raises ValueError. A sample rate of 0 raises ZeroDivisionError,
    in the message of line 317, before the guard of line 321 is reached.
    For a non-empty buffer of finite samples (fewer than 2^53), a sample
    rate from 1 to below 2^53, a chromagram of finite non-negative energies
    and a regular [log10], the analysis succeeds and, after the rounding to
    one decimal, the loudness still lies in [-70.0, 0.0] and the key
    confidence in [0.0, 100.0]; the duration is the value of [get_duration]
    and its formatted form the mm:ss of that value; the tempo is never
    reported as NaN, a NaN from the beat tracker being replaced by 120.0. *)
Theorem analyze_loaded_fields
  (log10 : float -> float) (y : list float) (sr : Z) (tempo : float)
  (chroma : list (list float)) (tags : option string * option string) :
  (y = [] -> analyze_loaded log10 y sr tempo chroma tags = Raise ValueError)
  /\ (y <> [] -> sr = 0 ->
      analyze_loaded log10 y sr tempo chroma tags = Raise ZeroDivisionError)
  /\ (log10_regular log10 ->
      y <> [] -> Forall finite_sample y ->
      Z.of_nat (List.length y) < 2 ^ 53 -> 0 < sr < 2 ^ 53 ->
      Forall (Forall energy) chroma ->
      exists res,
        analyze_loaded log10 y sr tempo chroma tags = Ok res
        /\ (fle fneg70 (loudness res) = true /\ fle (loudness res) f0 = true)
        /\ (fle f0 (keyConfidence res) = true
            /\ fle (keyConfidence res) f100 = true)
        /\ duration res = get_duration (Some y) sr
        /\ duration_formatted res
           = format_duration (PyFloat (get_duration (Some y) sr))
        /\ (is_nan tempo = true -> bpm res = f120)
        /\ is_nan (bpm res) = false).
Proof.
  split; [| split].
  - intros ->. reflexivity.
  - intros Hne ->. unfold analyze_loaded.
    destruct y as [| x0 y0]; [congruence |]. reflexivity.
  - intros Hlog Hne Hy Hlen [Hsr0 Hsr] Hch. unfold analyze_loaded.
    destruct y as [| x0 y0] eqn:Ey; [congruence |]. rewrite <- Ey in *.
    replace (List.length y =? 0)%nat with false by (rewrite Ey; reflexivity).
    destruct (get_duration_value y sr Hsr0 ltac:(lia)) as [Hv Hen].
    rewrite Hv in Hen.
    rewrite (int_truediv_energy _ sr ltac:(lia) Hen). cbn [bind].
    rewrite (analyze_duration_value y sr Hlen Hsr). cbn [bind].
    pose proof (estimate_key_in_range chroma Hch) as (_ & Hc0 & Hc100).
    pose proof (estimate_key_confidence_fin chroma Hch) as Hcf.
    destruct (estimate_key chroma) as [k c]. cbn [snd] in Hc0, Hc100, Hcf.
    destruct (calculate_lufs_in_range log10 Hlog y sr Hy Hlen) as [Hl70 Hl0].
    pose proof (calculate_lufs_fin log10 Hlog y sr Hy Hlen) as Hlf.
    eexists. split; [reflexivity |].
    cbn [loudness keyConfidence duration duration_formatted bpm].
    split; [now apply py_round1_loudness |].
    split; [now apply py_round1_confidence |].
    split; [reflexivity |]. split; [reflexivity |]. split.
    + intros ->. vm_compute. reflexivity.
    + apply py_round1_not_nan. destruct (is_nan tempo) eqn:Et;
        [reflexivity | exact Et].
Qed.

End Part10.

Lemma analyze_loaded_fields_witness :
  analyze_loaded log10_ref [f1; f0_5; f1; f0_5] 0 S754_nan
    (one_frame major_template) (None, None) = Raise ZeroDivisionError
  /\ exists res,
    analyze_loaded log10_ref [f1; f0_5; f1; f0_5] 44100 S754_nan
      (one_frame major_template) (None, None) = Ok res
    /\ (fle fneg70 (loudness res) = true /\ fle (loudness res) f0 = true)
    /\ (fle f0 (keyConfidence res) = true
        /\ fle (keyConfidence res) f100 = true)
    /\ duration res = get_duration (Some [f1; f0_5; f1; f0_5]) 44100
    /\ duration_formatted res
       = format_duration
           (PyFloat (get_duration (Some [f1; f0_5; f1; f0_5]) 44100))
    /\ (is_nan S754_nan = true -> bpm res = f120)
    /\ is_nan (bpm res) = false.
Proof.
  split.
  - apply (proj1 (proj2 (analyze_loaded_fields log10_ref [f1; f0_5; f1; f0_5]
                           0 S754_nan (one_frame major_template)
                           (None, None)))).
    + discriminate.
    + reflexivity.
  - apply (proj2 (proj2 (analyze_loaded_fields log10_ref [f1; f0_5; f1; f0_5]
                           44100 S754_nan (one_frame major_template)
                           (None, None)))).
    + exact log10_ref_regular.
    + discriminate.
    + repeat (constructor; [split; reflexivity |]). constructor.
    + cbn. lia.
    + lia.
    + exact one_frame_major_energy.
Defined.

Section Part11.

Context {summation : Summation}.

(** * LoudnessEstimator: the two gates *)












(** ** The error of a sum of dB values *)








(** ** LoudnessEstimator: a block below the absolute gate never changes the
    result *)













End Part11.


(** On [quiet_buffer] the second block, at about -75 dB, is one of the
    blocks the code takes its final mean over, and not one of the blocks
    that pass both gates; the code and the two gates give the floor. *)
Example quiet_buffer_floor :
  block_db_of log10_ref quiet_buffer 25
  = [S754_finite true 4855596191510616 (-46);
     S754_finite true 5277030375659196 (-46)]
  /\ final_blocks (block_db_of log10_ref quiet_buffer 25)
     = block_db_of log10_ref quiet_buffer 25
  /\ relative_gate (block_db_of log10_ref quiet_buffer 25)
     = [S754_finite true 4855596191510616 (-46)]
  /\ calculate_lufs log10_ref quiet_buffer 25 = fneg70
  /\ two_gate_loudness (block_db_of log10_ref quiet_buffer 25) = fneg70.
Proof. vm_compute. repeat split. Qed.
